(** * obsync-pg: change detection and reconciliation, checked against the code

    A shallow embedding of the TypeScript sources
    ([lib/parser.ts], [lib/debouncer.ts], [lib/state.ts], [lib/sync-engine.ts],
    [lib/database.ts], [lib/types.ts], [main.ts]) and the properties stated
    about them.

    Conventions.
    - JavaScript strings are strings of bytes.  [String.prototype.trim] and
      [toLowerCase], and the [extension] that the host gives to a file, are
      fields of [Host] of which nothing is assumed; their ASCII versions
      ([asciiTrim], [asciiLowerCase], [textAfterLastDot]) are those of the
      host of the examples, and [sanitizeIdentifier], whose result keeps
      ASCII characters only, is written with the ASCII ones.
    - A JS [Map] keeps insertion order and is an association list ([JsMap]);
      the vault and the remote tables are finite maps ([gmap]).  A plain
      object used as a dictionary is a finite map of its own properties, and
      a read of it ([readKey]) also finds the members that every object
      inherits from [Object.prototype]; statements about writes set the
      reserved key [__proto__] aside.
    - The file system of the host refuses a write below a file, at a folder
      and at the empty path.
    - Asynchronous methods run to completion one after the other; an
      exception is a [Throw] outcome and mutations made before it persist. *)

From Stdlib Require Import ZArith Ascii String List Lia Bool.
From stdpp Require Import base strings list gmap pretty.
Import ListNotations.
Set Warnings "-register-all,-clear-no-such-hyp".
Open Scope string_scope.
Open Scope list_scope.

(* ================================================================== *)
(** * Strings, as the code uses them *)

Definition isSpace (c : ascii) : bool :=
  let n := nat_of_ascii c in
  ((9 <=? n)%nat && (n <=? 13)%nat) || (n =? 32)%nat.

Definition lowerChar (c : ascii) : ascii :=
  let n := nat_of_ascii c in
  if ((65 <=? n)%nat && (n <=? 90)%nat) then ascii_of_nat (n + 32) else c.

(** Lower-casing of the letters [A] to [Z]: what [String.prototype.toLowerCase]
    does to an ASCII text. *)
Fixpoint asciiLowerCase (s : string) : string :=
  match s with
  | EmptyString => EmptyString
  | String c s' => String (lowerChar c) (asciiLowerCase s')
  end.

Fixpoint trimStart (s : string) : string :=
  match s with
  | EmptyString => EmptyString
  | String c s' => if isSpace c then trimStart s' else s
  end.

Fixpoint trimEnd (s : string) : string :=
  match s with
  | EmptyString => EmptyString
  | String c s' =>
      match trimEnd s' with
      | EmptyString => if isSpace c then EmptyString else String c EmptyString
      | r => String c r
      end
  end.

(** Removal of ASCII white space at both ends: what [String.prototype.trim]
    does to an ASCII text. *)
Definition asciiTrim (s : string) : string := trimEnd (trimStart s).

(** [s.startsWith(p)] *)
Fixpoint startsWith (s p : string) : bool :=
  match p, s with
  | EmptyString, _ => true
  | String a p', String b s' => if decide (a = b) then startsWith s' p' else false
  | String _ _, EmptyString => false
  end.

(** [s.endsWith(p)] *)
Fixpoint endsWith (s p : string) : bool :=
  match s with
  | EmptyString => bool_decide (p = EmptyString)
  | String _ s' => bool_decide (s = p) || endsWith s' p
  end.

(** [s.slice(n)] *)
Fixpoint sliceFrom (n : nat) (s : string) : string :=
  match n, s with
  | O, _ => s
  | S n', String _ s' => sliceFrom n' s'
  | S _, EmptyString => EmptyString
  end.

(** [path.substring(0, path.lastIndexOf('/'))]: the text before the last
    slash, empty when the path has none ([lastIndexOf] is then -1 and
    [substring] clamps it to 0). *)
Fixpoint hasSlash (s : string) : bool :=
  match s with
  | EmptyString => false
  | String c s' => bool_decide (c = "/"%char) || hasSlash s'
  end.

Fixpoint parentDir (s : string) : string :=
  match s with
  | EmptyString => EmptyString
  | String c s' => if hasSlash s' then String c (parentDir s') else EmptyString
  end.

(** The name of a file is what follows the last slash; the text after the
    last dot of the name, empty when the name has none, is the extension of
    the files of the examples. *)
Fixpoint fileName (s : string) : string :=
  match s with
  | EmptyString => EmptyString
  | String c s' => if hasSlash s then fileName s' else s
  end.

Fixpoint hasDot (s : string) : bool :=
  match s with
  | EmptyString => false
  | String c s' => bool_decide (c = "."%char) || hasDot s'
  end.

Fixpoint afterLastDot (s : string) : string :=
  match s with
  | EmptyString => EmptyString
  | String c s' => if hasDot s' then afterLastDot s' else
                     if bool_decide (c = "."%char) then s' else EmptyString
  end.

Fixpoint beforeLastDot (s : string) : string :=
  match s with
  | EmptyString => EmptyString
  | String c s' => if hasDot s' then String c (beforeLastDot s') else
                     if bool_decide (c = "."%char) then EmptyString else s
  end.

Definition textAfterLastDot (path : string) : string := afterLastDot (fileName path).
Definition basename (path : string) : string := beforeLastDot (fileName path).

(* ================================================================== *)
(** * Outcomes: a value or a thrown exception *)

Inductive Outcome (A : Type) : Type :=
| Ok (a : A)
| Throw (msg : string).
Arguments Ok {A} a.
Arguments Throw {A} msg.

Definition isOk {A} (o : Outcome A) : bool :=
  match o with Ok _ => true | Throw _ => false end.

(** Exception-only computations (no state), used by the deserialiser. *)
Definition obind {A B} (o : Outcome A) (k : A -> Outcome B) : Outcome B :=
  match o with Ok a => k a | Throw m => Throw m end.

Fixpoint omapM {A B} (f : A -> Outcome B) (l : list A) : Outcome (list B) :=
  match l with
  | [] => Ok []
  | x :: l' => obind (f x) (fun y => obind (omapM f l') (fun ys => Ok (y :: ys)))
  end.

(* ================================================================== *)
(** * Plain objects read as dictionaries *)

(** What [obj[key]] gives for a plain object: an own property, or the member
    of that name that every object inherits from [Object.prototype]. *)
Inductive Read (V : Type) : Type :=
| Own (v : V)
| Inherited (key : string).
Arguments Own {V} v.
Arguments Inherited {V} key.

(** The names of the members of [Object.prototype]. *)
Definition objectPrototypeKeys : list string :=
  ["constructor"; "hasOwnProperty"; "isPrototypeOf"; "propertyIsEnumerable";
   "toLocaleString"; "toString"; "valueOf"; "__proto__";
   "__defineGetter__"; "__defineSetter__"; "__lookupGetter__"; "__lookupSetter__"].

Definition inheritedKey (key : string) : bool := bool_decide (key ∈ objectPrototypeKeys).

(** [obj[key]], given the own property of that name if there is one; [None]
    is [undefined].  An inherited member is a function or an object, hence
    truthy. *)
Definition readKey {V} (own : option V) (key : string) : option (Read V) :=
  match own with
  | Some v => Some (Own v)
  | None => if inheritedKey key then Some (Inherited key) else None
  end.

(* ================================================================== *)
(** * [Map<string, V>]: insertion-ordered *)

Module JsMap.
Section Defs.
Context {V : Type}.

Definition t := list (string * V).

Definition empty : t := [].

Fixpoint get (k : string) (m : t) : option V :=
  match m with
  | [] => None
  | (k', v) :: m' => if decide (k = k') then Some v else get k m'
  end.

Definition has (k : string) (m : t) : bool :=
  match get k m with Some _ => true | None => false end.

(** [m.set(k, v)]: an existing key keeps its position. *)
Fixpoint set (k : string) (v : V) (m : t) : t :=
  match m with
  | [] => [(k, v)]
  | (k', v') :: m' => if decide (k = k') then (k, v) :: m' else (k', v') :: set k v m'
  end.

Fixpoint delete (k : string) (m : t) : t :=
  match m with
  | [] => []
  | (k', v') :: m' => if decide (k = k') then delete k m' else (k', v') :: delete k m'
  end.

Definition keys (m : t) : list string := map fst m.
Definition entries (m : t) : list (string * V) := m.
Definition size (m : t) : nat := length m.

(** [new Map(pairs)] *)
Definition ofEntries (l : list (string * V)) : t :=
  foldl (fun m kv => set (fst kv) (snd kv) m) empty l.

End Defs.
Arguments t : clear implicits.
End JsMap.

(* ================================================================== *)
(** * lib/parser.ts *)

(** A value produced by the YAML parser. *)
Inductive yaml : Type :=
| YNull
| YBool (b : bool)
| YNum (n : Z)
| YStr (s : string)
| YSeq (items : list yaml)
| YMap (fields : list (string * yaml)).

(** A JS date object: a time in milliseconds, or the invalid date. *)
Inductive Date : Type :=
| DateMs (ms : Z)
| InvalidDate.

(** [new Date(n)] for a number. *)
Definition dateOfNumber (n : Z) : Date :=
  if bool_decide (-8640000000000000 <= n <= 8640000000000000)%Z then DateMs n else InvalidDate.

(** A value produced by [JSON.parse]. *)
Inductive json : Type :=
| JNull
| JBool (b : bool)
| JNum (n : Z)
| JStr (s : string)
| JArr (items : list json)
| JObj (fields : list (string * json)).

(** What the code takes from its platform and libraries. *)
Class Host : Type := {
  (** [JSON.parse]; [Throw] on a syntax error *)
  jsonParse : string -> Outcome json;
  (** [new Date(v)] for an array or an object [v]: the conversion of [v] to a
      primitive may throw a TypeError *)
  dateOfObject : json -> Outcome Date;
  (** sha-256, hex encoded, of a text *)
  hashContent : string -> string;
  (** sha-256, hex encoded, of a binary buffer *)
  hashArrayBuffer : string -> string;
  (** [minimatch(path, pattern, { dot: true })] *)
  minimatch : string -> string -> bool;
  (** Obsidian's [normalizePath] *)
  normalizePath : string -> string;
  (** [parse] of the yaml package; [Throw] on a syntax error *)
  parseYaml : string -> Outcome yaml;
  (** [new Date(str).getTime()], [None] for NaN *)
  dateParse : string -> option Z;
  (** the regular-expression scans of a note body, left abstract *)
  extractWikiLinks : string -> list string;
  extractInlineTags : string -> list string;
  (** [String.prototype.trim] and [String.prototype.toLowerCase] *)
  trim : string -> string;
  toLowerCase : string -> string;
  (** [TFile.extension] of the file at a path *)
  extension : string -> string;
}.

Record Frontmatter : Type := {
  title : option string;
  tags : list string;
  aliases : list string;
  created : option Date;
  modified : option Date;
  publish : option bool;
  extra : list (string * yaml);
}.

Record ParsedNote : Type := {
  frontmatter : Frontmatter;
  body : string;
  rawContent : string;
  outgoingLinks : list string;
  inlineTags : list string;
}.

(** JS truthiness of a property that may be absent. *)
Definition yamlTruthy (v : option yaml) : bool :=
  match v with
  | None | Some YNull | Some (YBool false) => false
  | Some (YNum n) => negb (n =? 0)%Z
  | Some (YStr s) => negb (bool_decide (s = EmptyString))
  | Some _ => true
  end.

(** The own enumerable properties of a parsed value, [Object.entries]. *)
Definition yamlEntries (v : yaml) : list (string * yaml) :=
  match v with
  | YMap fields => fields
  | YSeq items => imap (fun i x => (pretty i, x)) items
  | _ => []
  end.

Fixpoint assoc {V} (k : string) (l : list (string * V)) : option V :=
  match l with
  | [] => None
  | (k', v) :: l' => if decide (k = k') then Some v else assoc k l'
  end.

(** [parsed.key] *)
Definition yamlGet (v : yaml) (k : string) : option yaml := assoc k (yamlEntries v).

Definition yamlString (v : yaml) : option string :=
  match v with YStr s => Some s | _ => None end.

Definition nonEmpty (s : string) : bool := negb (bool_decide (s = EmptyString)).

Section Parser.
Context `{Host}.

(** [normalizeStringArray] *)
Definition normalizeStringArray (value : option yaml) : list string :=
  if negb (yamlTruthy value) then []
  else match value with
       | Some (YStr s) => if nonEmpty s then [s] else []
       | Some (YSeq items) =>
           List.filter nonEmpty (map trim (omap yamlString items))
       | _ => []
       end.

(** [parseFlexibleDate] *)
Definition parseFlexibleDate (value : option yaml) : option Date :=
  if negb (yamlTruthy value) then None
  else match value with
       | Some (YStr s) =>
           let str := trim s in
           if nonEmpty str
           then match dateParse str with Some ms => Some (DateMs ms) | None => None end
           else None
       | Some (YNum n) => Some (dateOfNumber n)
       | _ => None
       end.

Definition emptyFrontmatter : Frontmatter :=
  {| title := None; tags := []; aliases := []; created := None; modified := None;
     publish := None; extra := [] |}.

Definition knownFields : list string :=
  ["title"; "tags"; "aliases"; "created"; "modified"; "publish"].

(** The fields read off a parsed mapping (the body of the [try] block). *)
Definition readFields (parsed : yaml) : Frontmatter :=
  {| title := match yamlGet parsed "title" with Some (YStr s) => Some s | _ => None end;
     tags := normalizeStringArray (yamlGet parsed "tags");
     aliases := normalizeStringArray (yamlGet parsed "aliases");
     created := parseFlexibleDate (yamlGet parsed "created");
     modified := parseFlexibleDate (yamlGet parsed "modified");
     publish := match yamlGet parsed "publish" with Some (YBool b) => Some b | _ => None end;
     extra := List.filter (fun kv => negb (bool_decide (fst kv ∈ knownFields)))
                          (yamlEntries parsed) |}.

(** [!parsed || typeof parsed !== 'object'] *)
Definition isObject (parsed : yaml) : bool :=
  match parsed with YSeq _ | YMap _ => true | _ => false end.

(** The closing delimiter of [/^---\n([\s\S]+?)\n---\n?/]: the text up to the
    first newline followed by three dashes, and the text after them. *)
Fixpoint findClose (s : string) : option (string * string) :=
  if startsWith s (String "010" "---") then Some (EmptyString, sliceFrom 4 s)
  else match s with
       | EmptyString => None
       | String c s' =>
           match findClose s' with
           | Some (pre, post) => Some (String c pre, post)
           | None => None
           end
       end.

(** [content.match(frontmatterRegex)]: the captured group and the rest. *)
Definition matchFrontmatter (content : string) : option (string * string) :=
  if startsWith content (String "-" (String "-" (String "-" (String "010" EmptyString))))
  then match sliceFrom 4 content with
       | EmptyString => None
       | String c rest =>
           match findClose rest with
           | Some (pre, post) =>
               Some (String c pre,
                     if startsWith post (String "010" EmptyString) then sliceFrom 1 post else post)
           | None => None
           end
       end
  else None.

(** [parseFrontmatter] *)
Definition parseFrontmatter (content : string) : Frontmatter * string :=
  match matchFrontmatter content with
  | None => (emptyFrontmatter, content)
  | Some (yamlContent, body) =>
      match parseYaml yamlContent with
      | Throw _ => (emptyFrontmatter, content)
      | Ok parsed =>
          if isObject parsed then (readFields parsed, body)
          else (emptyFrontmatter, body)
      end
  end.

(** [filename.replace(/\.md$/, '')] *)
Fixpoint stripMd (s : string) : string :=
  match s with
  | EmptyString => EmptyString
  | String c s' => if bool_decide (s = ".md") then EmptyString else String c (stripMd s')
  end.

(** [parseContent] *)
Definition parseContent (content filename : string) : ParsedNote :=
  let '(fm, body) := parseFrontmatter content in
  let fm' := match title fm with
             | Some t => if nonEmpty t then fm else
                 {| title := Some (stripMd filename); tags := tags fm; aliases := aliases fm;
                    created := created fm; modified := modified fm; publish := publish fm;
                    extra := extra fm |}
             | None =>
                 {| title := Some (stripMd filename); tags := tags fm; aliases := aliases fm;
                    created := created fm; modified := modified fm; publish := publish fm;
                    extra := extra fm |}
             end in
  {| frontmatter := fm'; body := body; rawContent := content;
     outgoingLinks := extractWikiLinks body; inlineTags := extractInlineTags body |}.

(** One iteration of the loops of [mergeTags]: the set [seen] and the array
    [merged]. *)
Definition mergeStep (st : gset string * list string) (tag : string)
  : gset string * list string :=
  let normalized := trim (toLowerCase tag) in
  if nonEmpty normalized && negb (bool_decide (normalized ∈ fst st))
  then ({[ normalized ]} ∪ fst st, snd st ++ [normalized])
  else st.

(** [mergeTags] *)
Definition mergeTags (frontmatterTags inlineTags : list string) : list string :=
  snd (foldl mergeStep (foldl mergeStep (∅, []) frontmatterTags) inlineTags).

(** De-duplication that keeps the first occurrence of each element. *)
Fixpoint keepFirst (l : list string) : list string :=
  match l with
  | [] => []
  | x :: l' => x :: List.filter (fun y => negb (bool_decide (y = x))) (keepFirst l')
  end.

(** The label merge rule in the words of the specification: normalise
    (lower-case, trim), metadata labels first, inline labels second,
    de-duplicate by normalised form, keep first-occurrence order. *)
Definition normalizeTag (t : string) : string := trim (toLowerCase t).

Definition mergeTags_spec (frontmatterTags inlineTags : list string) : list string :=
  keepFirst (List.filter nonEmpty (map normalizeTag (frontmatterTags ++ inlineTags))).

End Parser.

(* ================================================================== *)
(** * lib/types.ts: events *)

Inductive EventType : Type := Create | Modify | Delete | Rename.

Global Instance EventType_eq_dec : EqDecision EventType.
Proof. solve_decision. Defined.

Record FileEvent : Type := {
  path : string;
  eventType : EventType;
  timestamp : Z;
}.

Global Instance FileEvent_eq_dec : EqDecision FileEvent.
Proof. solve_decision. Defined.

(* ================================================================== *)
(** * lib/debouncer.ts *)

Record PendingEvent : Type := {
  event : FileEvent;
  timer : nat;
}.

(** An armed [setTimeout(() => this.emit(path), this.delay)] of the host. *)
Record Timeout : Type := {
  handle : nat;
  due : Z;
  target : string;
}.

(** A listener returns or throws; what it does besides is its own. *)
Definition Listener : Type := FileEvent -> Outcome unit.

Record Debouncer : Type := {
  delay : Z;
  events : JsMap.t PendingEvent;
  callbacks : list Listener;
  stopped : bool;
  (* the host: its clock and its armed timers *)
  clock : Z;
  timeouts : list Timeout;
  nextHandle : nat;
  (* observation: the calls made to the listeners, (index, event), in order *)
  delivered : list (nat * FileEvent);
}.

(** [new Debouncer(delayMs)], created at time [now]. *)
Definition newDebouncer (delayMs now : Z) : Debouncer :=
  {| delay := delayMs; events := JsMap.empty; callbacks := []; stopped := false;
     clock := now; timeouts := []; nextHandle := 0; delivered := [] |}.

Definition withEvents (ev : JsMap.t PendingEvent) (d : Debouncer) : Debouncer :=
  {| delay := delay d; events := ev; callbacks := callbacks d; stopped := stopped d;
     clock := clock d; timeouts := timeouts d; nextHandle := nextHandle d;
     delivered := delivered d |}.

Definition withTimeouts (ts : list Timeout) (d : Debouncer) : Debouncer :=
  {| delay := delay d; events := events d; callbacks := callbacks d; stopped := stopped d;
     clock := clock d; timeouts := ts; nextHandle := nextHandle d;
     delivered := delivered d |}.

Definition withClock (t : Z) (d : Debouncer) : Debouncer :=
  {| delay := delay d; events := events d; callbacks := callbacks d; stopped := stopped d;
     clock := t; timeouts := timeouts d; nextHandle := nextHandle d;
     delivered := delivered d |}.

(** [onEvent] *)
Definition onEvent (callback : Listener) (d : Debouncer) : Debouncer :=
  {| delay := delay d; events := events d; callbacks := callbacks d ++ [callback];
     stopped := stopped d; clock := clock d; timeouts := timeouts d;
     nextHandle := nextHandle d; delivered := delivered d |}.

(** [setTimeout(() => this.emit(path), this.delay)]: the new handle and the
    host with the timer armed. *)
Definition setTimeout (p : string) (d : Debouncer) : nat * Debouncer :=
  (nextHandle d,
   {| delay := delay d; events := events d; callbacks := callbacks d; stopped := stopped d;
      clock := clock d;
      timeouts := timeouts d ++ [{| handle := nextHandle d; due := (clock d + delay d)%Z;
                                    target := p |}];
      nextHandle := S (nextHandle d); delivered := delivered d |}).

(** [clearTimeout(h)] *)
Definition clearTimeout (h : nat) (d : Debouncer) : Debouncer :=
  withTimeouts (List.filter (fun t => negb (bool_decide (handle t = h))) (timeouts d)) d.

(** The coalescing of event types in [add]: the recorded type after an
    event of type [incoming] arrives on an entry of type [existing]. *)
Definition coalesce (existing incoming : EventType) : EventType :=
  if bool_decide (incoming = Delete) then Delete
  else if bool_decide (existing = Create) && bool_decide (incoming = Modify) then existing
  else if negb (bool_decide (existing = Delete)) then incoming
  else existing.

(** [add] *)
Definition add (p : string) (ty : EventType) (d : Debouncer) : Debouncer :=
  if stopped d then d
  else
    let ev := {| path := p; eventType := ty; timestamp := clock d |} in
    match JsMap.get p (events d) with
    | Some existing =>
        let d1 := clearTimeout (timer existing) d in
        let ev' := {| path := path (event existing);
                      eventType := coalesce (eventType (event existing)) ty;
                      timestamp := timestamp ev |} in
        let '(h, d2) := setTimeout p d1 in
        withEvents (JsMap.set p {| event := ev'; timer := h |} (events d2)) d2
    | None =>
        let '(h, d1) := setTimeout p d in
        withEvents (JsMap.set p {| event := ev; timer := h |} (events d1)) d1
    end.

(** The listener loop of [emit]: every callback is called with the event,
    an exception of one is caught and logged. *)
Definition notify (e : FileEvent) (d : Debouncer) : Debouncer :=
  {| delay := delay d; events := events d; callbacks := callbacks d; stopped := stopped d;
     clock := clock d; timeouts := timeouts d; nextHandle := nextHandle d;
     delivered := delivered d ++ imap (fun i (cb : Listener) => (i, e)) (callbacks d) |}.

(** [emit] *)
Definition emit (p : string) (d : Debouncer) : Debouncer :=
  match JsMap.get p (events d) with
  | None => d
  | Some pending => notify (event pending) (withEvents (JsMap.delete p (events d)) d)
  end.

(** The host runs an armed timer: it leaves the queue, the clock is at its
    due time at least, and its callback [emit(path)] runs. *)
Definition fire (t : Timeout) (d : Debouncer) : Debouncer :=
  emit (target t)
       (withClock (Z.max (clock d) (due t))
          (withTimeouts (List.filter (fun x => negb (bool_decide (handle x = handle t)))
                                     (timeouts d)) d)).

(** The armed timer that is due first (the older one on a tie). *)
Fixpoint earliest (l : list Timeout) : option Timeout :=
  match l with
  | [] => None
  | x :: l' =>
      match earliest l' with
      | None => Some x
      | Some y => if (due x <=? due y)%Z then Some x else Some y
      end
  end.

Fixpoint runTimers (fuel : nat) (t : Z) (d : Debouncer) : Debouncer :=
  match fuel with
  | O => d
  | S fuel' =>
      match earliest (timeouts d) with
      | Some x => if (due x <=? t)%Z then runTimers fuel' t (fire x d) else d
      | None => d
      end
  end.

(** Time passes until [t]: every timer due by then fires, in order of due
    time ([emit] arms no timer, so the queue's length is fuel enough). *)
Definition advance (t : Z) (d : Debouncer) : Debouncer :=
  let d' := runTimers (length (timeouts d)) t d in
  withClock (Z.max (clock d') t) d'.

(** [flush] *)
Definition flush (d : Debouncer) : Debouncer :=
  foldl (fun d p =>
           match JsMap.get p (events d) with
           | Some pending => emit p (clearTimeout (timer pending) d)
           | None => d
           end) d (JsMap.keys (events d)).

(** [stop] *)
Definition stop (d : Debouncer) : Debouncer :=
  let d1 := foldl (fun d kv => clearTimeout (timer (snd kv)) d) d (JsMap.entries (events d)) in
  {| delay := delay d1; events := JsMap.empty; callbacks := callbacks d1; stopped := true;
     clock := clock d1; timeouts := timeouts d1; nextHandle := nextHandle d1;
     delivered := delivered d1 |}.

(** [pendingCount] *)
Definition pendingCount (d : Debouncer) : nat := JsMap.size (events d).

(** The events handed to listener [i] for path [p], in order. *)
Definition deliveredTo (i : nat) (p : string) (d : Debouncer) : list FileEvent :=
  map snd (List.filter (fun x => bool_decide (fst x = i) && bool_decide (path (snd x) = p))
                       (delivered d)).

(** Every armed timer belongs to the pending entry of its path, and every
    pending entry has its timer armed. *)
Record debouncerOk (d : Debouncer) : Prop := {
  ok_timeout : forall t, In t (timeouts d) ->
      exists pe, JsMap.get (target t) (events d) = Some pe /\ timer pe = handle t;
  ok_pending : forall p pe, JsMap.get p (events d) = Some pe ->
      path (event pe) = p
      /\ exists t, In t (timeouts d) /\ handle t = timer pe /\ target t = p;
  ok_handles : List.NoDup (map handle (timeouts d));
  ok_fresh : forall t, In t (timeouts d) -> (handle t < nextHandle d)%nat;
}.

(* ================================================================== *)
(** * lib/state.ts *)

Record FileState : Type := {
  (** the [hash] property when it is a string; a record read from a blob of
      another shape may lack it *)
  hash : option string;
  lastSynced : Date;
  lastModified : Date;
  sizeBytes : option Z;
}.

Record SyncState : Type := {
  vaultPath : string;
  lastFullSync : option Date;
  files : gmap string FileState;
}.

Record StateTracker : Type := {
  state : SyncState;
  dirty : bool;
}.

(** [new StateTracker(vaultPath)] *)
Definition newStateTracker (vaultPath : string) : StateTracker :=
  {| state := {| vaultPath := vaultPath; lastFullSync := None; files := ∅ |};
     dirty := false |}.

(** JS truthiness of a property that may be absent. *)
Definition jsonTruthy (v : option json) : bool :=
  match v with
  | None | Some JNull | Some (JBool false) => false
  | Some (JNum n) => negb (n =? 0)%Z
  | Some (JStr s) => nonEmpty s
  | Some _ => true
  end.

(** [v.key] for one of the keys the loader reads (none of them is an index,
    [length] or a method of a prototype): a TypeError on [null], the own
    property of an object, [undefined] on any other value. *)
Definition jsonProp (v : json) (k : string) : Outcome (option json) :=
  match v with
  | JNull => Throw "TypeError: cannot read properties of null"
  | JObj fields => Ok (assoc k fields)
  | _ => Ok None
  end.

Fixpoint chars (s : string) : list json :=
  match s with
  | EmptyString => []
  | String c s' => JStr (String c EmptyString) :: chars s'
  end.

(** [Object.entries(v)] *)
Definition jsonEntries (v : json) : list (string * json) :=
  match v with
  | JObj fields => fields
  | JArr items => imap (fun i x => (pretty i, x)) items
  | JStr s => imap (fun i x => (pretty i, x)) (chars s)
  | _ => []
  end.

(** [Object.fromEntries(l)]: a later pair overrides an earlier one. *)
Definition fromEntries {V} (l : list (string * V)) : gmap string V :=
  foldl (fun m kv => <[fst kv := snd kv]> m) ∅ l.

Section StateTracker.
Context `{Host}.

(** [new Date(v)] for a value read from the blob ([None] is [undefined]). *)
Definition newDate (v : option json) : Outcome Date :=
  match v with
  | None => Ok InvalidDate
  | Some JNull => Ok (DateMs 0)
  | Some (JBool b) => Ok (DateMs (if b then 1 else 0))
  | Some (JNum n) => Ok (dateOfNumber n)
  | Some (JStr s) => Ok (match dateParse s with Some ms => DateMs ms | None => InvalidDate end)
  | Some v => dateOfObject v
  end.

(** One entry of [parsed.files], rebuilt with its two dates revived. *)
Definition reviveFileState (entry : string * json) : Outcome (string * FileState) :=
  let '(p, st) := entry in
  obind (jsonProp st "lastSynced") (fun ls =>
  obind (newDate ls) (fun synced =>
  obind (jsonProp st "lastModified") (fun lm =>
  obind (newDate lm) (fun modified =>
  Ok (p, {| hash := match st with
                    | JObj fields => match assoc "hash" fields with
                                     | Some (JStr h) => Some h | _ => None end
                    | _ => None
                    end;
            lastSynced := synced;
            lastModified := modified;
            sizeBytes := match st with
                         | JObj fields => match assoc "sizeBytes" fields with
                                          | Some (JNum n) => Some n | _ => None end
                         | _ => None
                         end |}))))).

(** The object assigned to [this.state] when the identities agree. *)
Definition reviveState (vaultPath : string) (parsed : json) : Outcome SyncState :=
  obind (jsonProp parsed "lastFullSync") (fun lfs =>
  obind (if jsonTruthy lfs then obind (newDate lfs) (fun d => Ok (Some d)) else Ok None)
        (fun lastFull =>
  obind (jsonProp parsed "files") (fun fs =>
  obind (omapM reviveFileState
               (if jsonTruthy fs then match fs with Some v => jsonEntries v | None => [] end
                else []))
        (fun entries =>
  Ok {| vaultPath := vaultPath; lastFullSync := lastFull; files := fromEntries entries |})))).

(** The body of the [try] block of [load]: the new value of [this.state]. *)
Definition loadBody (json : string) (st : SyncState) : Outcome SyncState :=
  obind (jsonParse json) (fun parsed =>
  obind (jsonProp parsed "vaultPath") (fun vp =>
  match vp with
  | Some (JStr s) =>
      if bool_decide (s = vaultPath st) then reviveState s parsed else Ok st
  | _ => Ok st
  end)).

(** [load]: what the caller gets and the tracker afterwards. *)
Definition load (json : string) (tr : StateTracker) : Outcome unit * StateTracker :=
  match loadBody json (state tr) with
  | Ok st' => (Ok tt, {| state := st'; dirty := dirty tr |})
  | Throw _ => (* console.warn('Failed to load state:', error) *) (Ok tt, tr)
  end.

End StateTracker.

(** The tree identity stored in a deserialised blob. *)
Definition storedIdentity (parsed : json) : option string :=
  match parsed with
  | JObj fields => match assoc "vaultPath" fields with Some (JStr s) => Some s | _ => None end
  | _ => None
  end.

Definition isDirty (tr : StateTracker) : bool := dirty tr.

Definition markSaved (tr : StateTracker) : StateTracker :=
  {| state := state tr; dirty := false |}.

(** [getFileState]: [this.state.files[path] || null]; [files] is a plain
    object, so that for an untracked path named like a member of
    [Object.prototype] the caller gets that member. *)
Definition getFileState (p : string) (tr : StateTracker) : option (Read FileState) :=
  readKey (files (state tr) !! p) p.

Definition setFileState (p : string) (st : FileState) (tr : StateTracker) : StateTracker :=
  {| state := {| vaultPath := vaultPath (state tr); lastFullSync := lastFullSync (state tr);
                 files := <[p := st]> (files (state tr)) |};
     dirty := true |}.

Definition removeFileState (p : string) (tr : StateTracker) : StateTracker :=
  {| state := {| vaultPath := vaultPath (state tr); lastFullSync := lastFullSync (state tr);
                 files := delete p (files (state tr)) |};
     dirty := true |}.

Definition setLastFullSync (time : Date) (tr : StateTracker) : StateTracker :=
  {| state := {| vaultPath := vaultPath (state tr); lastFullSync := Some time;
                 files := files (state tr) |};
     dirty := true |}.

Definition getLastFullSync (tr : StateTracker) : option Date := lastFullSync (state tr).

(** [needsSync]: a member inherited from [Object.prototype] has no [hash],
    so that the test is true for it as it is for no record. *)
Definition needsSync (p currentHash : string) (tr : StateTracker) : bool :=
  match files (state tr) !! p with
  | None => true
  | Some st => negb (bool_decide (hash st = Some currentHash))
  end.

Definition clear (tr : StateTracker) : StateTracker :=
  {| state := {| vaultPath := vaultPath (state tr); lastFullSync := None; files := ∅ |};
     dirty := true |}.

Definition fileCount (tr : StateTracker) : nat := size (files (state tr)).

(* ================================================================== *)
(** * lib/types.ts: models and settings *)

Record VaultNote : Type := {
  note_path : string;
  note_filename : string;
  note_title : option string;
  note_tags : list string;
  note_aliases : list string;
  note_createdAt : option Date;
  note_modifiedAt : option Date;
  note_publish : bool;
  note_frontmatter : list (string * yaml);
  note_body : string;
  note_rawContent : string;
  note_contentHash : string;
  note_fileSizeBytes : Z;
  note_outgoingLinks : list string;
}.

Record VaultAttachment : Type := {
  att_path : string;
  att_filename : string;
  att_extension : string;
  (** the text of the table of [getMimeType], or the member of
      [Object.prototype] that the table inherits under the extension *)
  att_mimeType : Read string;
  att_fileSizeBytes : Z;
  att_contentHash : string;
  att_data : string;
}.

Record SyncStatus : Type := {
  connected : bool;
  totalNotes : nat;
  totalAttachments : nat;
  pendingChanges : nat;
}.

(** The settings the engine reads. *)
Record PluginSettings : Type := {
  debounceMs : Z;
  maxBinarySizeMB : Z;
  retryAttempts : Z;
  ignorePatterns : list string;
}.

(* ================================================================== *)
(** * lib/database.ts *)

(** A query sent to the remote store. *)
Inductive RemoteCall : Type :=
| UpsertNote (p : string)
| UpsertAttachment (p : string)
| DeleteNote (p : string)
| DeleteAttachment (p : string)
| GetAllNoteHashes
| GetAllAttachmentHashes
| GetAllNotes
| GetAllAttachments
| BatchDeleteNotes (ps : list string)
| BatchDeleteAttachments (ps : list string)
| GetStatus.

(** The client and the store behind it: the two tables keyed by their unique
    [path] column, whether the pool exists, the fate of the coming queries
    ([true]: the query throws and changes nothing; none left: it succeeds),
    and the queries sent so far with whether they succeeded. *)
Record Database : Type := {
  pool : bool;
  vault_notes : gmap string VaultNote;
  vault_attachments : gmap string VaultAttachment;
  faults : list bool;
  calls : list (RemoteCall * bool);
}.

Definition DbM (A : Type) : Type := Database -> Outcome A * Database.

Definition query {A} (c : RemoteCall) (run : Database -> A * Database) : DbM A :=
  fun d =>
    match faults d with
    | true :: fs =>
        (Throw "query failed",
         {| pool := pool d; vault_notes := vault_notes d;
            vault_attachments := vault_attachments d; faults := fs;
            calls := calls d ++ [(c, false)] |})
    | _ =>
        let '(a, d') := run d in
        (Ok a,
         {| pool := pool d'; vault_notes := vault_notes d';
            vault_attachments := vault_attachments d'; faults := tail (faults d);
            calls := calls d ++ [(c, true)] |})
    end.

Definition notConnected {A} : DbM A := fun d => (Throw "Database not connected", d).

Definition withNotes (t : gmap string VaultNote) (d : Database) : Database :=
  {| pool := pool d; vault_notes := t; vault_attachments := vault_attachments d;
     faults := faults d; calls := calls d |}.

Definition withAttachments (t : gmap string VaultAttachment) (d : Database) : Database :=
  {| pool := pool d; vault_notes := vault_notes d; vault_attachments := t;
     faults := faults d; calls := calls d |}.

Definition upsertNote (note : VaultNote) : DbM unit :=
  fun d =>
    if negb (pool d) then notConnected d
    else query (UpsertNote (note_path note))
               (fun d => (tt, withNotes (<[note_path note := note]> (vault_notes d)) d)) d.

Definition upsertAttachment (a : VaultAttachment) : DbM unit :=
  fun d =>
    if negb (pool d) then notConnected d
    else query (UpsertAttachment (att_path a))
               (fun d => (tt, withAttachments (<[att_path a := a]> (vault_attachments d)) d)) d.

Definition deleteNote (p : string) : DbM unit :=
  fun d =>
    if negb (pool d) then notConnected d
    else query (DeleteNote p) (fun d => (tt, withNotes (delete p (vault_notes d)) d)) d.

Definition deleteAttachment (p : string) : DbM unit :=
  fun d =>
    if negb (pool d) then notConnected d
    else query (DeleteAttachment p)
               (fun d => (tt, withAttachments (delete p (vault_attachments d)) d)) d.

Definition getAllNoteHashes : DbM (JsMap.t string) :=
  fun d =>
    if negb (pool d) then notConnected d
    else query GetAllNoteHashes
               (fun d => (JsMap.ofEntries
                            (map (fun row => (fst row, note_contentHash (snd row)))
                                 (map_to_list (vault_notes d))), d)) d.

Definition getAllAttachmentHashes : DbM (JsMap.t string) :=
  fun d =>
    if negb (pool d) then notConnected d
    else query GetAllAttachmentHashes
               (fun d => (JsMap.ofEntries
                            (map (fun row => (fst row, att_contentHash (snd row)))
                                 (map_to_list (vault_attachments d))), d)) d.

(** A row of [vault_notes] as a note: its [path] is the key of the row. *)
Definition rowNote (row : string * VaultNote) : VaultNote :=
  let n := snd row in
  {| note_path := fst row; note_filename := note_filename n; note_title := note_title n;
     note_tags := note_tags n; note_aliases := note_aliases n;
     note_createdAt := note_createdAt n; note_modifiedAt := note_modifiedAt n;
     note_publish := note_publish n; note_frontmatter := note_frontmatter n;
     note_body := note_body n; note_rawContent := note_rawContent n;
     note_contentHash := note_contentHash n; note_fileSizeBytes := note_fileSizeBytes n;
     note_outgoingLinks := note_outgoingLinks n |}.

Definition rowAttachment (row : string * VaultAttachment) : VaultAttachment :=
  let a := snd row in
  {| att_path := fst row; att_filename := att_filename a; att_extension := att_extension a;
     att_mimeType := att_mimeType a; att_fileSizeBytes := att_fileSizeBytes a;
     att_contentHash := att_contentHash a; att_data := att_data a |}.

Definition getAllNotes : DbM (list VaultNote) :=
  fun d =>
    if negb (pool d) then notConnected d
    else query GetAllNotes (fun d => (map rowNote (map_to_list (vault_notes d)), d)) d.

Definition getAllAttachments : DbM (list VaultAttachment) :=
  fun d =>
    if negb (pool d) then notConnected d
    else query GetAllAttachments
               (fun d => (map rowAttachment (map_to_list (vault_attachments d)), d)) d.

Definition deleteAll {V} (ps : list string) (t : gmap string V) : gmap string V :=
  foldl (fun t p => delete p t) t ps.

Definition batchDeleteNotes (paths : list string) : DbM unit :=
  fun d =>
    if negb (pool d) || bool_decide (length paths = 0%nat) then (Ok tt, d)
    else query (BatchDeleteNotes paths)
               (fun d => (tt, withNotes (deleteAll paths (vault_notes d)) d)) d.

Definition batchDeleteAttachments (paths : list string) : DbM unit :=
  fun d =>
    if negb (pool d) || bool_decide (length paths = 0%nat) then (Ok tt, d)
    else query (BatchDeleteAttachments paths)
               (fun d => (tt, withAttachments (deleteAll paths (vault_attachments d)) d)) d.

Definition getStatus : DbM SyncStatus :=
  fun d =>
    if negb (pool d)
    then (Ok {| connected := false; totalNotes := 0; totalAttachments := 0;
                pendingChanges := 0 |}, d)
    else query GetStatus
               (fun d => ({| connected := true; totalNotes := size (vault_notes d);
                             totalAttachments := size (vault_attachments d);
                             pendingChanges := 0 |}, d)) d.

(* ================================================================== *)
(** * lib/sync-engine.ts *)

(** What the vault holds at a path. *)
Inductive Entry : Type :=
| FileEntry (content : string) (ctime mtime : Z)
| FolderEntry.

(** A write to the local tree. *)
Inductive LocalWrite : Type :=
| WriteText (p : string)
| WriteBinary (p : string)
| CreateFolder (p : string).

(** What the engine prints and the notices it shows. *)
Inductive ConsoleLine : Type :=
| SyncFailedFor (p : string)
| SyncedNote (p : string)
| SyncedAttachment (p : string)
| AttachmentTooLarge (p : string)
| Removed (p : string)
| FailedToSync (p : string)
| FullReconciliationDone (synced deleted : nat)
| FullReconciliationFailed
| PullComplete (pulled : nat)
| PullFailed
| MaxRetriesExceeded (p : string)
| RetrySucceeded (p : string)
| RetryFailed (p : string) (attempt : nat)
| Notice (text : string).

(** The engine with the world it acts on: the vault of [this.app], the
    database client [this.db], the tracker (the field [state] of the class),
    the host clock, and what it printed and wrote locally. *)
Record SyncEngine : Type := {
  vault : gmap string Entry;
  db : Database;
  settings : PluginSettings;
  tracker : StateTracker;
  retryQueue : JsMap.t nat;
  isRunning : bool;
  statusCallback : bool;
  now : Z;
  localWrites : list LocalWrite;
  console : list ConsoleLine;
}.

Definition withVault (v : gmap string Entry) (e : SyncEngine) : SyncEngine :=
  {| vault := v; db := db e; settings := settings e; tracker := tracker e;
     retryQueue := retryQueue e; isRunning := isRunning e;
     statusCallback := statusCallback e; now := now e;
     localWrites := localWrites e; console := console e |}.

Definition withDb (d : Database) (e : SyncEngine) : SyncEngine :=
  {| vault := vault e; db := d; settings := settings e; tracker := tracker e;
     retryQueue := retryQueue e; isRunning := isRunning e;
     statusCallback := statusCallback e; now := now e;
     localWrites := localWrites e; console := console e |}.

Definition withTracker (t : StateTracker) (e : SyncEngine) : SyncEngine :=
  {| vault := vault e; db := db e; settings := settings e; tracker := t;
     retryQueue := retryQueue e; isRunning := isRunning e;
     statusCallback := statusCallback e; now := now e;
     localWrites := localWrites e; console := console e |}.

Definition withRetryQueue (q : JsMap.t nat) (e : SyncEngine) : SyncEngine :=
  {| vault := vault e; db := db e; settings := settings e; tracker := tracker e;
     retryQueue := q; isRunning := isRunning e;
     statusCallback := statusCallback e; now := now e;
     localWrites := localWrites e; console := console e |}.

Definition withRunning (b : bool) (e : SyncEngine) : SyncEngine :=
  {| vault := vault e; db := db e; settings := settings e; tracker := tracker e;
     retryQueue := retryQueue e; isRunning := b;
     statusCallback := statusCallback e; now := now e;
     localWrites := localWrites e; console := console e |}.

Definition withLocalWrites (w : list LocalWrite) (e : SyncEngine) : SyncEngine :=
  {| vault := vault e; db := db e; settings := settings e; tracker := tracker e;
     retryQueue := retryQueue e; isRunning := isRunning e;
     statusCallback := statusCallback e; now := now e;
     localWrites := w; console := console e |}.

Definition withConsole (c : list ConsoleLine) (e : SyncEngine) : SyncEngine :=
  {| vault := vault e; db := db e; settings := settings e; tracker := tracker e;
     retryQueue := retryQueue e; isRunning := isRunning e;
     statusCallback := statusCallback e; now := now e;
     localWrites := localWrites e; console := c |}.

(** An asynchronous method of the engine: its outcome and the world after it
    (what was mutated before an exception stays mutated). *)
Definition M (A : Type) : Type := SyncEngine -> Outcome A * SyncEngine.

Definition ret {A} (a : A) : M A := fun e => (Ok a, e).

Definition bind {A B} (c : M A) (k : A -> M B) : M B :=
  fun e => match c e with
           | (Ok a, e') => k a e'
           | (Throw m, e') => (Throw m, e')
           end.

Notation "x <- c ;; k" := (bind c (fun x => k))
  (at level 100, c at next level, right associativity).
Notation "c ;; k" := (bind c (fun _ => k))
  (at level 100, right associativity).

Definition throw {A} (m : string) : M A := fun e => (Throw m, e).

(** [try { c } catch (error) { h error }] *)
Definition tryCatch {A} (c : M A) (h : string -> M A) : M A :=
  fun e => match c e with
           | (Ok a, e') => (Ok a, e')
           | (Throw m, e') => h m e'
           end.

(** [try { c } finally { f }] *)
Definition tryFinally {A} (c : M A) (f : M unit) : M A :=
  fun e => let '(r, e') := c e in
           match f e' with
           | (Ok _, e'') => (r, e'')
           | (Throw m, e'') => (Throw m, e'')
           end.

Definition gets {A} (f : SyncEngine -> A) : M A := fun e => (Ok (f e), e).
Definition modify (f : SyncEngine -> SyncEngine) : M unit := fun e => (Ok tt, f e).

(** [for (const x of l) { f x }] *)
Fixpoint forEach {A} (l : list A) (f : A -> M unit) : M unit :=
  match l with
  | [] => ret tt
  | x :: l' => f x ;; forEach l' f
  end.

(** [await this.db.method(...)] *)
Definition onDb {A} (c : DbM A) : M A :=
  fun e => let '(r, d) := c (db e) in (r, withDb d e).

Definition log (l : ConsoleLine) : M unit :=
  modify (fun e => withConsole (console e ++ [l]) e).

Definition onTracker (f : StateTracker -> StateTracker) : M unit :=
  modify (fun e => withTracker (f (tracker e)) e).

Definition onRetryQueue (f : JsMap.t nat -> JsMap.t nat) : M unit :=
  modify (fun e => withRetryQueue (f (retryQueue e)) e).

Record Stat : Type := {
  stat_ctime : Z;
  stat_mtime : Z;
  stat_size : Z;
}.

Definition isFileEntry (x : Entry) : bool :=
  match x with FileEntry _ _ _ => true | FolderEntry => false end.

(** [this.app.vault.getFiles()], as paths *)
Definition getFiles (v : gmap string Entry) : list string :=
  map fst (List.filter (fun kv => isFileEntry (snd kv)) (map_to_list v)).

(** [vault.read(file)] and [vault.readBinary(file)] *)
Definition vaultRead (p : string) : M string :=
  fun e => match vault e !! p with
           | Some (FileEntry c _ _) => (Ok c, e)
           | _ => (Throw "ENOENT", e)
           end.

(** What [stat] answers for a path: the size of a file is that of its
    content. *)
Definition statOf (v : gmap string Entry) (p : string) : option Stat :=
  match v !! p with
  | Some (FileEntry c ct mt) =>
      Some {| stat_ctime := ct; stat_mtime := mt; stat_size := Z.of_nat (String.length c) |}
  | Some FolderEntry => Some {| stat_ctime := 0; stat_mtime := 0; stat_size := 0 |}
  | None => None
  end.

(** [vault.adapter.stat(path)] *)
Definition adapterStat (p : string) : M (option Stat) :=
  gets (fun e => statOf (vault e) p).

(** The folders above a path, the nearest first: [a/b] and [a] for
    [a/b/c]. *)
Fixpoint foldersAboveN (fuel : nat) (p : string) : list string :=
  match fuel with
  | O => []
  | S fuel' =>
      let dir := parentDir p in
      if nonEmpty dir then dir :: foldersAboveN fuel' dir else []
  end.

Definition foldersAbove (p : string) : list string := foldersAboveN (String.length p) p.

Definition isFileAt (v : gmap string Entry) (p : string) : bool :=
  match v !! p with Some (FileEntry _ _ _) => true | _ => false end.

(** A file stands where the path needs a folder. *)
Definition belowFile (v : gmap string Entry) (p : string) : bool :=
  existsb (isFileAt v) (foldersAbove p).

(** [vault.adapter.write(path, data)] and [writeBinary]: the host refuses to
    write at the empty path (the folder of the vault), below a file, and
    where a folder is. *)
Definition adapterWrite (w : LocalWrite) (p data : string) : M unit :=
  fun e =>
    if negb (nonEmpty p) then (Throw "EISDIR", e)
    else if belowFile (vault e) p then (Throw "ENOTDIR", e)
    else match vault e !! p with
         | Some FolderEntry => (Throw "EISDIR", e)
         | Some (FileEntry _ ct _) =>
             (Ok tt, withLocalWrites (localWrites e ++ [w])
                       (withVault (<[p := FileEntry data ct (now e)]> (vault e)) e))
         | None =>
             (Ok tt, withLocalWrites (localWrites e ++ [w])
                       (withVault (<[p := FileEntry data (now e) (now e)]> (vault e)) e))
         end.

(** [vault.createFolder(path)]: refused where something is, and below a
    file. *)
Definition createFolder (p : string) : M unit :=
  fun e =>
    if belowFile (vault e) p then (Throw "ENOTDIR", e)
    else match vault e !! p with
         | Some _ => (Throw "Folder already exists", e)
         | None =>
             (Ok tt, withLocalWrites (localWrites e ++ [CreateFolder p])
                       (withVault (<[p := FolderEntry]> (vault e)) e))
         end.

Definition mimeTypes : list (string * string) :=
  [("png", "image/png"); ("jpg", "image/jpeg"); ("jpeg", "image/jpeg");
   ("gif", "image/gif"); ("webp", "image/webp"); ("svg", "image/svg+xml");
   ("pdf", "application/pdf"); ("mp3", "audio/mpeg"); ("wav", "audio/wav");
   ("mp4", "video/mp4"); ("webm", "video/webm"); ("json", "application/json");
   ("css", "text/css"); ("js", "application/javascript"); ("html", "text/html");
   ("xml", "application/xml"); ("zip", "application/zip")].

(** [getMimeType]: [mimeTypes[ext.toLowerCase()] || 'application/octet-stream'];
    the texts of the table are not empty. *)
Definition getMimeType `{Host} (ext : string) : Read string :=
  match readKey (assoc (toLowerCase ext) mimeTypes) (toLowerCase ext) with
  | Some m => m
  | None => Own "application/octet-stream"
  end.

(** The test [!dbHash || dbHash !== hash] of the reconciliation scan. *)
Definition needsPush (dbHashes : JsMap.t string) (p hash : string) : bool :=
  match JsMap.get p dbHashes with
  | None => true
  | Some dbHash => negb (nonEmpty dbHash) || negb (bool_decide (dbHash = hash))
  end.

Section Engine.
Context `{Host}.

(** [shouldIgnore] *)
Definition shouldIgnore (p : string) (e : SyncEngine) : bool :=
  existsb (fun pattern => minimatch p pattern) (ignorePatterns (settings e)).

(** [updateStatus]: the status goes to the listener of the user interface. *)
Definition updateStatus : M unit :=
  cb <- gets statusCallback ;;
  if cb then tryCatch (_ <- onDb getStatus ;; ret tt) (fun _ => ret tt)
  else ret tt.

(** [stat?.ctime ? new Date(stat.ctime) : null], and the like for [mtime] *)
Definition dateOfStat (stat : option Stat) (f : Stat -> Z) : option Date :=
  match stat with
  | Some st => if (f st =? 0)%Z then None else Some (dateOfNumber (f st))
  | None => None
  end.

(** [stat?.size || 0] *)
Definition sizeOfStat (stat : option Stat) : Z :=
  match stat with Some st => stat_size st | None => 0%Z end.

(** The note that [syncNote] builds of a file. *)
Definition buildNote (p content : string) (stat : option Stat) : VaultNote :=
  let parsed := parseContent content (basename p) in
  let allTags := mergeTags (tags (frontmatter parsed)) (inlineTags parsed) in
  let created := match created (frontmatter parsed) with
                 | Some d => Some d | None => dateOfStat stat stat_ctime end in
  let modified := match modified (frontmatter parsed) with
                  | Some d => Some d | None => dateOfStat stat stat_mtime end in
  {| note_path := p; note_filename := basename p;
     note_title := title (frontmatter parsed); note_tags := allTags;
     note_aliases := aliases (frontmatter parsed);
     note_createdAt := created; note_modifiedAt := modified;
     note_publish := match publish (frontmatter parsed) with Some b => b | None => false end;
     note_frontmatter := extra (frontmatter parsed);
     note_body := body parsed; note_rawContent := rawContent parsed;
     note_contentHash := hashContent content; note_fileSizeBytes := sizeOfStat stat;
     note_outgoingLinks := outgoingLinks parsed |}.

(** The record that [syncNote] keeps of a synced note, at time [t]. *)
Definition noteFileState (note : VaultNote) (t : Z) : FileState :=
  {| hash := Some (note_contentHash note); lastSynced := DateMs t;
     lastModified := match note_modifiedAt note with Some d => d | None => DateMs t end;
     sizeBytes := Some (note_fileSizeBytes note) |}.

(** [syncNote] *)
Definition syncNote (p : string) : M unit :=
  content <- vaultRead p ;;
  let hash := hashContent content in
  needed <- gets (fun e => needsSync p hash (tracker e)) ;;
  if negb needed then ret tt
  else
    stat <- adapterStat p ;;
    let note := buildNote p content stat in
    onDb (upsertNote note) ;;
    t <- gets now ;;
    onTracker (setFileState p (noteFileState note t)) ;;
    log (SyncedNote p).

(** The attachment that [syncAttachment] builds of a file. *)
Definition buildAttachment (p data : string) (stat : option Stat) : VaultAttachment :=
  {| att_path := p; att_filename := basename p; att_extension := extension p;
     att_mimeType := getMimeType (extension p); att_fileSizeBytes := sizeOfStat stat;
     att_contentHash := hashArrayBuffer data; att_data := data |}.

(** The record that [syncAttachment] keeps of a synced attachment. *)
Definition attachmentFileState (a : VaultAttachment) (stat : option Stat) (t : Z) : FileState :=
  {| hash := Some (att_contentHash a); lastSynced := DateMs t;
     lastModified := match dateOfStat stat stat_mtime with Some d => d | None => DateMs t end;
     sizeBytes := Some (att_fileSizeBytes a) |}.

(** [syncAttachment] *)
Definition syncAttachment (p : string) : M unit :=
  stat <- adapterStat p ;;
  let size := sizeOfStat stat in
  maxSize <- gets (fun e => (maxBinarySizeMB (settings e) * 1024 * 1024)%Z) ;;
  if (maxSize <? size)%Z then log (AttachmentTooLarge p)
  else
    data <- vaultRead p ;;
    let hash := hashArrayBuffer data in
    needed <- gets (fun e => needsSync p hash (tracker e)) ;;
    if negb needed then ret tt
    else
      let attachment := buildAttachment p data stat in
      onDb (upsertAttachment attachment) ;;
      t <- gets now ;;
      onTracker (setFileState p (attachmentFileState attachment stat t)) ;;
      log (SyncedAttachment p).

(** [upsertFile] *)
Definition upsertFile (p : string) : M unit :=
  file <- gets (fun e => vault e !! p) ;;
  match file with
  | Some (FileEntry _ _ _) =>
      ignored <- gets (shouldIgnore p) ;;
      if ignored then ret tt
      else if bool_decide (extension p = "md") then syncNote p
      else syncAttachment p
  | _ => ret tt
  end.

(** [removeFile] *)
Definition removeFile (p : string) : M unit :=
  (if endsWith p ".md" then onDb (deleteNote p) else onDb (deleteAttachment p)) ;;
  onTracker (removeFileState p) ;;
  log (Removed p).

(** [syncFile] *)
Definition syncFile (p : string) (eventType : EventType) : M unit :=
  match eventType with
  | Delete => removeFile p
  | Create | Modify => upsertFile p
  | Rename => ret tt
  end.

(** [handleFileEvent] *)
Definition handleFileEvent (ev : FileEvent) : M unit :=
  tryCatch (syncFile (path ev) (eventType ev) ;; updateStatus)
           (fun _ => log (SyncFailedFor (path ev)) ;;
                     onRetryQueue (JsMap.set (path ev) 0%nat)).

(** The digest of a local file, as the scan of [fullReconcile] takes it. *)
Definition localDigest (p content : string) : string :=
  if bool_decide (extension p = "md") then hashContent content else hashArrayBuffer content.

(** The scan of the local files (the first loop of [fullReconcile]): the
    files to sync and the set of local paths. *)
Fixpoint scanLocal (dbHashes : JsMap.t string) (localFiles : list string)
    (toSync : list string) (localPaths : gset string) : M (list string * gset string) :=
  match localFiles with
  | [] => ret (toSync, localPaths)
  | file :: rest =>
      let localPaths := {[ file ]} ∪ localPaths in
      content <- vaultRead file ;;
      let hash := localDigest file content in
      scanLocal dbHashes rest
                (if needsPush dbHashes file hash then toSync ++ [file] else toSync)
                localPaths
  end.

(** The first half of the [try] block of [fullReconcile]: the files to sync
    and the remote paths to delete. *)
Definition reconcilePlan : M (list string * list string) :=
  localFiles <- gets (fun e => List.filter (fun p => negb (shouldIgnore p e))
                                           (getFiles (vault e))) ;;
  dbNoteHashes <- onDb getAllNoteHashes ;;
  dbAttachHashes <- onDb getAllAttachmentHashes ;;
  let dbHashes := JsMap.ofEntries (JsMap.entries dbNoteHashes ++ JsMap.entries dbAttachHashes) in
  scanned <- scanLocal dbHashes localFiles [] ∅ ;;
  let toDelete := List.filter (fun dbPath => negb (bool_decide (dbPath ∈ snd scanned)))
                              (JsMap.keys dbHashes) in
  ret (fst scanned, toDelete).

(** The loop that syncs the changed and new files: the number synced. *)
Fixpoint pushAll (toSync : list string) (synced : nat) : M nat :=
  match toSync with
  | [] => ret synced
  | file :: rest =>
      ok <- tryCatch ((if bool_decide (extension file = "md") then syncNote file
                       else syncAttachment file) ;; ret true)
                     (fun _ => log (FailedToSync file) ;;
                               onRetryQueue (JsMap.set file 0%nat) ;; ret false) ;;
      pushAll rest (if ok : bool then S synced else synced)
  end.

(** The texts of the two notices that carry a count. *)
Definition syncCompleteText (synced deleted : nat) : string :=
  "Sync complete: " +:+ pretty synced +:+ " files synced, " +:+ pretty deleted +:+ " deleted".

Definition pulledText (pulled : nat) : string :=
  "Pulled " +:+ pretty pulled +:+ " files from database".

(** The second half of the [try] block of [fullReconcile]. *)
Definition applyPlan (plan : list string * list string) : M unit :=
  let '(toSync, toDelete) := plan in
  synced <- pushAll toSync 0 ;;
  let notesToDelete := List.filter (fun p => endsWith p ".md") toDelete in
  let attachToDelete := List.filter (fun p => negb (endsWith p ".md")) toDelete in
  (if (0 <? length notesToDelete)%nat
   then onDb (batchDeleteNotes notesToDelete) ;;
        forEach notesToDelete (fun p => onTracker (removeFileState p))
   else ret tt) ;;
  (if (0 <? length attachToDelete)%nat
   then onDb (batchDeleteAttachments attachToDelete) ;;
        forEach attachToDelete (fun p => onTracker (removeFileState p))
   else ret tt) ;;
  t <- gets now ;;
  onTracker (setLastFullSync (DateMs t)) ;;
  updateStatus ;;
  log (Notice (syncCompleteText synced (length toDelete))) ;;
  log (FullReconciliationDone synced (length toDelete)).

(** [fullReconcile] *)
Definition fullReconcile : M unit :=
  running <- gets isRunning ;;
  if running then log (Notice "Sync already in progress")
  else
    modify (withRunning true) ;;
    log (Notice "Starting full sync...") ;;
    tryFinally
      (tryCatch (plan <- reconcilePlan ;; applyPlan plan)
                (fun _ => log FullReconciliationFailed ;;
                          log (Notice "Sync failed. Check console for details.")))
      (modify (withRunning false)).

(** [ensureFolder] *)
Definition ensureFolder (p : string) : M unit :=
  let normalized := normalizePath p in
  folder <- gets (fun e => vault e !! normalized) ;;
  match folder with
  | None => createFolder normalized
  | Some _ => ret tt
  end.

(** One round of a loop of [pullFromDB]: [true] when the object was written. *)
Definition pullOne (w : LocalWrite) (digest : string -> string)
    (p remoteHash data : string) : M bool :=
  file <- gets (fun e => vault e !! p) ;;
  same <- match file with
          | Some (FileEntry _ _ _) =>
              content <- vaultRead p ;;
              ret (bool_decide (digest content = remoteHash))
          | _ => ret false
          end ;;
  if same : bool then ret false
  else
    let dir := parentDir p in
    (if nonEmpty dir then ensureFolder dir else ret tt) ;;
    adapterWrite w p data ;;
    ret true.

(** The loops of [pullFromDB] over the objects fetched: the number written. *)
Fixpoint pullEach {A} (pull : A -> M bool) (items : list A) (pulled : nat) : M nat :=
  match items with
  | [] => ret pulled
  | x :: rest =>
      written <- pull x ;;
      pullEach pull rest (if written : bool then S pulled else pulled)
  end.

Definition pullNote (note : VaultNote) : M bool :=
  pullOne (WriteText (note_path note)) hashContent
          (note_path note) (note_contentHash note) (note_rawContent note).

Definition pullAttachment (att : VaultAttachment) : M bool :=
  pullOne (WriteBinary (att_path att)) hashArrayBuffer
          (att_path att) (att_contentHash att) (att_data att).

(** [pullFromDB] *)
Definition pullFromDB : M unit :=
  running <- gets isRunning ;;
  if running then log (Notice "Sync already in progress")
  else
    modify (withRunning true) ;;
    log (Notice "Pulling from database...") ;;
    tryFinally
      (tryCatch (notes <- onDb getAllNotes ;;
                 attachments <- onDb getAllAttachments ;;
                 pulled <- pullEach pullNote notes 0 ;;
                 pulled <- pullEach pullAttachment attachments pulled ;;
                 log (Notice (pulledText pulled)) ;;
                 log (PullComplete pulled))
                (fun _ => log PullFailed ;;
                          log (Notice "Pull failed. Check console for details.")))
      (modify (withRunning false)).

(** The body of the loop of [retryFailed], for one entry of the snapshot of
    the retry queue. *)
Definition retryEntry (maxRetries : Z) (entry : string * nat) : M unit :=
  let '(p, count) := entry in
  if (maxRetries <=? Z.of_nat count)%Z
  then log (MaxRetriesExceeded p) ;; onRetryQueue (JsMap.delete p)
  else
    onRetryQueue (JsMap.set p (count + 1)%nat) ;;
    tryCatch (upsertFile p ;;
              onRetryQueue (JsMap.delete p) ;;
              log (RetrySucceeded p))
             (fun _ => log (RetryFailed p (count + 1))).

(** [retryFailed] *)
Definition retryFailed : M unit :=
  maxRetries <- gets (fun e => retryAttempts (settings e)) ;;
  snapshot <- gets (fun e => JsMap.entries (retryQueue e)) ;;
  forEach snapshot (retryEntry maxRetries) ;;
  updateStatus.

(** [getPendingRetries] *)
Definition getPendingRetries (e : SyncEngine) : nat := JsMap.size (retryQueue e).

End Engine.

(** [new SyncEngine(app, db, settings)] over a vault and a database. *)
Definition newSyncEngine (vaultName : string) (v : gmap string Entry) (d : Database)
    (s : PluginSettings) (t : Z) : SyncEngine :=
  {| vault := v; db := d; settings := s; tracker := newStateTracker vaultName;
     retryQueue := JsMap.empty; isRunning := false; statusCallback := false;
     now := t; localWrites := []; console := [] |}.

(* ================================================================== *)
(** * The words of the properties *)

(** The digest the remote store holds for a path: the map the engine builds
    from the two listings, where the attachment table is read last. *)
Definition remoteDigest (d : Database) (p : string) : option string :=
  match vault_attachments d !! p with
  | Some a => Some (att_contentHash a)
  | None => note_contentHash <$> vault_notes d !! p
  end.

(** The content of the local file at a path (empty when there is none). *)
Definition fileContent (v : gmap string Entry) (p : string) : string :=
  match v !! p with Some (FileEntry c _ _) => c | _ => EmptyString end.

Definition isLocalFile (v : gmap string Entry) (p : string) : Prop :=
  exists c ct mt, v !! p = Some (FileEntry c ct mt).

(** The next query reaches the store and is answered. *)
Definition nextQueryOk (d : Database) : Prop :=
  pool d = true /\ head (faults d) <> Some true.

(** The next query throws: there is no pool, or the store fails it. *)
Definition nextQueryFails (d : Database) : Prop :=
  pool d = false \/ head (faults d) = Some true.

(** The store after a query that threw. *)
Definition afterFailedQuery (c : RemoteCall) (d : Database) : Database :=
  if pool d
  then {| pool := pool d; vault_notes := vault_notes d;
          vault_attachments := vault_attachments d; faults := tail (faults d);
          calls := calls d ++ [(c, false)] |}
  else d.

(** The Create/Modify sync of a path gets as far as the remote upsert: the
    file is there, matches no ignore pattern, is a note or an attachment
    within the size limit, and its digest is not the recorded one. *)
Definition reachesUpsert `{Host} (p : string) (e : SyncEngine) : Prop :=
  isLocalFile (vault e) p
  /\ shouldIgnore p e = false
  /\ (extension p = "md"
      \/ (sizeOfStat (statOf (vault e) p) <= maxBinarySizeMB (settings e) * 1024 * 1024)%Z)
  /\ needsSync p (localDigest p (fileContent (vault e) p)) (tracker e) = true.


(** The upsert that the sync of a path sends. *)
Definition upsertCall `{Host} (p : string) : RemoteCall :=
  if bool_decide (extension p = "md") then UpsertNote p else UpsertAttachment p.

(** The engine after a successful upsert of the file at a path. *)
Definition afterUpsert `{Host} (p : string) (e : SyncEngine) : SyncEngine :=
  let c := fileContent (vault e) p in
  let stat := statOf (vault e) p in
  let d := db e in
  if bool_decide (extension p = "md") then
    let note := buildNote p c stat in
    withConsole (console e ++ [SyncedNote p])
      (withTracker (setFileState p (noteFileState note (now e)) (tracker e))
         (withDb {| pool := pool d; vault_notes := <[p := note]> (vault_notes d);
                    vault_attachments := vault_attachments d; faults := tail (faults d);
                    calls := calls d ++ [(UpsertNote p, true)] |} e))
  else
    let a := buildAttachment p c stat in
    withConsole (console e ++ [SyncedAttachment p])
      (withTracker (setFileState p (attachmentFileState a stat (now e)) (tracker e))
         (withDb {| pool := pool d; vault_notes := vault_notes d;
                    vault_attachments := <[p := a]> (vault_attachments d);
                    faults := tail (faults d);
                    calls := calls d ++ [(UpsertAttachment p, true)] |} e)).

(** The lines that [retryFailed] prints about a path. *)
Definition retryLineOf (p : string) (l : ConsoleLine) : bool :=
  match l with
  | MaxRetriesExceeded q | RetrySucceeded q | RetryFailed q _ => bool_decide (q = p)
  | _ => false
  end.

(** What [retryFailed] has printed about a path so far, in order. *)
Definition retryLog (p : string) (e : SyncEngine) : list ConsoleLine :=
  List.filter (retryLineOf p) (console e).

(** The entries of a snapshot that come before the entry of a path. *)
Fixpoint entriesBefore (p : string) (l : list (string * nat)) : list (string * nat) :=
  match l with
  | [] => []
  | (q, c) :: l' => if decide (q = p) then [] else (q, c) :: entriesBefore p l'
  end.

(** The engine at the moment a pass of [retryFailed] started on [e] retries
    the path [p]: the entries before it are done and its count is raised. *)
Definition attemptState `{Host} (p : string) (e : SyncEngine) : SyncEngine :=
  let eb := snd (forEach (entriesBefore p (JsMap.entries (retryQueue e)))
                         (retryEntry (retryAttempts (settings e))) e) in
  match JsMap.get p (retryQueue e) with
  | Some c => withRetryQueue (JsMap.set p (c + 1)%nat (retryQueue eb)) eb
  | None => eb
  end.

(** The retry of a path fails in the pass of [retryFailed] started on [e]. *)
Definition retryFails `{Host} (p : string) (e : SyncEngine) : Prop :=
  isOk (fst (upsertFile p (attemptState p e))) = false.

(** A query that writes to the remote store without deleting from it, or
    only reads its status. *)
Definition isUpsertOrStatus (c : RemoteCall) : bool :=
  match c with
  | UpsertNote _ | UpsertAttachment _ | GetStatus => true
  | _ => false
  end.

(** The path a single-object query is about. *)
Definition callPath (c : RemoteCall) : option string :=
  match c with
  | UpsertNote p | UpsertAttachment p | DeleteNote p | DeleteAttachment p => Some p
  | _ => None
  end.

(** Between two states of the engine, only queries that satisfy [ok] were
    sent. *)
Definition sendsOnly (ok : RemoteCall -> Prop) (e e' : SyncEngine) : Prop :=
  exists cs, calls (db e') = calls (db e) ++ cs /\ Forall (fun c => ok (fst c)) cs.

(** The local file at a path has the digest [h]. *)
Definition localMatches (digest : string -> string) (p h : string)
    (v : gmap string Entry) : Prop :=
  exists c ct mt, v !! p = Some (FileEntry c ct mt) /\ digest c = h.

(** What a stretch of a pull may do to the local tree: every entry stays,
    as a file or as a folder; an entry at a path that [W] does not allow to
    write is left as it is; a file is one that was there or one written; and
    the writes are those [W] allows, and folders made where nothing was. *)
Record pullFrame (W : LocalWrite -> Prop) (e e' : SyncEngine) : Prop := {
  pf_kept : forall q x, vault e !! q = Some x ->
      exists x', vault e' !! q = Some x' /\ isFileEntry x' = isFileEntry x;
  pf_same : forall q x, ~ W (WriteText q) -> ~ W (WriteBinary q) ->
      vault e !! q = Some x -> vault e' !! q = Some x;
  pf_files : forall q c ct mt, vault e' !! q = Some (FileEntry c ct mt) ->
      vault e !! q = Some (FileEntry c ct mt) \/ W (WriteText q) \/ W (WriteBinary q);
  pf_writes : exists ws, localWrites e' = localWrites e ++ ws
      /\ Forall (fun w => W w \/ exists q, w = CreateFolder q /\ vault e !! q = None) ws;
}.

(** The remote store holds a note at [p] that the local tree does not match:
    there is no local file at [p], or its digest is another. *)
Definition staleNote `{Host} (e : SyncEngine) (p : string) : Prop :=
  exists n, vault_notes (db e) !! p = Some n
            /\ ~ localMatches hashContent p (note_contentHash n) (vault e).

Definition staleAttachment `{Host} (e : SyncEngine) (p : string) : Prop :=
  exists a, vault_attachments (db e) !! p = Some a
            /\ ~ localMatches hashArrayBuffer p (att_contentHash a) (vault e).

(** The writes a pull started in [e] may make: the text of a note that is not
    matched, and the bytes of an attachment that is not matched, or whose
    path was just written by a note. *)
Definition pullWrites `{Host} (e : SyncEngine) (w : LocalWrite) : Prop :=
  match w with
  | WriteText p => staleNote e p
  | WriteBinary p =>
      (exists a, vault_attachments (db e) !! p = Some a)
      /\ (staleAttachment e p \/ staleNote e p)
  | CreateFolder _ => False
  end.

(** What changes and what does not between two states of the engine, as
    far as the retries of the path [p] can tell. *)
Record retryFrame (p : string) (e e' : SyncEngine) : Prop := {
  rf_vault : vault e' = vault e;
  rf_settings : settings e' = settings e;
  rf_callback : statusCallback e' = statusCallback e;
  rf_queue : JsMap.get p (retryQueue e') = JsMap.get p (retryQueue e);
  rf_nodup : List.NoDup (JsMap.keys (retryQueue e)) ->
             List.NoDup (JsMap.keys (retryQueue e'));
  rf_log : retryLog p e' = retryLog p e;
  rf_notes : vault_notes (db e') !! p = vault_notes (db e) !! p;
  rf_attachments : vault_attachments (db e') !! p = vault_attachments (db e) !! p;
  rf_calls : exists cs, calls (db e') = calls (db e) ++ cs
                        /\ Forall (fun c => isUpsertOrStatus (fst c) = true
                                            /\ callPath (fst c) <> Some p) cs;
}.

(* ================================================================== *)
(** * The components from outside *)

(** What a client of the debouncer and the host do to it: the methods of the
    class, and the passing of time, which runs the timers that are due. *)
Inductive DebouncerCall : Type :=
| CallOnEvent (callback : Listener)
| CallAdd (p : string) (ty : EventType)
| CallFlush
| CallStop
| TimePasses (t : Z).

Definition call (c : DebouncerCall) (d : Debouncer) : Debouncer :=
  match c with
  | CallOnEvent callback => onEvent callback d
  | CallAdd p ty => add p ty d
  | CallFlush => flush d
  | CallStop => stop d
  | TimePasses t => advance t d
  end.

(** A history of a debouncer. *)
Definition runCalls (cs : list DebouncerCall) (d : Debouncer) : Debouncer :=
  foldl (fun d c => call c d) d cs.

(** The timers and the pending entries agree, and the keys of the map of
    pending entries are distinct, as those of a [Map] are. *)
Record debouncerInv (d : Debouncer) : Prop := {
  inv_ok : debouncerOk d;
  inv_keys : List.NoDup (JsMap.keys (events d));
}.

(** What [emit] hands to the listeners for a pending entry. *)
Definition emission (callbacks : list Listener) (pe : PendingEvent) : list (nat * FileEvent) :=
  imap (fun i (cb : Listener) => (i, event pe)) callbacks.

(** ** The engine after a removal *)



(** ** The files that a full sync is about *)

(** A path is in the scope of the sync: it is a file of the vault and
    matches no ignore pattern. *)
Definition inScope `{Host} (e : SyncEngine) (p : string) : Prop :=
  isLocalFile (vault e) p /\ shouldIgnore p e = false.

(** The digest of the local file at a path. *)
Definition digestOf `{Host} (e : SyncEngine) (p : string) : string :=
  localDigest p (fileContent (vault e) p).

(** ** [serialize] of lib/state.ts *)

(** What [serialize] needs of the platform: [JSON.stringify] and
    [Date.prototype.toISOString]. *)
Class JsonHost : Type := {
  jsonStringify : json -> string;
  toISOString : Z -> string;
}.

(** [Date.prototype.toJSON]: the ISO text of a date, [null] for the invalid
    date. *)
Definition dateToJson `{JsonHost} (d : Date) : json :=
  match d with DateMs ms => JStr (toISOString ms) | InvalidDate => JNull end.

(** A property that is [undefined] is left out by [JSON.stringify]. *)
Definition optField {A} (k : string) (f : A -> json) (v : option A) : list (string * json) :=
  match v with Some a => [(k, f a)] | None => [] end.

(** A record as [JSON.stringify] sees it, its properties in the order in
    which the engine writes them. *)
Definition fileStateToJson `{JsonHost} (st : FileState) : json :=
  JObj (optField "hash" JStr (hash st)
        ++ [("lastSynced", dateToJson (lastSynced st));
            ("lastModified", dateToJson (lastModified st))]
        ++ optField "sizeBytes" JNum (sizeBytes st)).

(** The state object, with the three properties that the class gives it. *)
Definition stateToJson `{JsonHost} (st : SyncState) : json :=
  JObj [("vaultPath", JStr (vaultPath st));
        ("lastFullSync", match lastFullSync st with
                         | Some d => dateToJson d
                         | None => JNull
                         end);
        ("files", JObj (map (fun kv => (fst kv, fileStateToJson (snd kv)))
                            (map_to_list (files st))))].

(** [serialize] *)
Definition serialize `{JsonHost} (tr : StateTracker) : string :=
  jsonStringify (stateToJson (state tr)).

(** A date that comes back from its ISO text. *)
Definition isoRoundTrips `{Host} `{JsonHost} (d : Date) : Prop :=
  exists ms, d = DateMs ms
             /\ nonEmpty (toISOString ms) = true
             /\ dateParse (toISOString ms) = Some ms.

(* ------------------------------------------------------------------ *)
(** ** [main.ts]: the schema name derived from the name of the vault *)

(** [\d], [[a-z]], [_] and the class [[a-z0-9_]] *)
Definition isDigit (c : ascii) : bool :=
  let n := nat_of_ascii c in (48 <=? n)%nat && (n <=? 57)%nat.

Definition isLower (c : ascii) : bool :=
  let n := nat_of_ascii c in (97 <=? n)%nat && (n <=? 122)%nat.

Definition isUnderscore (c : ascii) : bool := bool_decide (c = "_"%char).

Definition isWordChar (c : ascii) : bool := isLower c || isDigit c || isUnderscore c.

(** The first character of the text is in the class. *)
Definition headIs (p : ascii -> bool) (s : string) : bool :=
  match s with
  | String c _ => p c
  | EmptyString => false
  end.

(** [s.replace(/X+/g, '_')]: every maximal run of characters of the class
    becomes one underscore. *)
Fixpoint squeeze (p : ascii -> bool) (s : string) : string :=
  match s with
  | EmptyString => EmptyString
  | String c s' =>
      if p c then
        if headIs p s' then squeeze p s' else String "_" (squeeze p s')
      else String c (squeeze p s')
  end.

(** [s.replace(/-/g, '_')] *)
Fixpoint hyphensToUnderscores (s : string) : string :=
  match s with
  | EmptyString => EmptyString
  | String c s' =>
      String (if bool_decide (c = "-"%char) then "_"%char else c) (hyphensToUnderscores s')
  end.

(** [s.replace(/[^X]/g, '')]: the characters of the class, in order. *)
Fixpoint keepChars (p : ascii -> bool) (s : string) : string :=
  match s with
  | EmptyString => EmptyString
  | String c s' => if p c then String c (keepChars p s') else keepChars p s'
  end.

(** [s.replace(/^X+/, '')] and [s.replace(/X+$/, '')] *)
Fixpoint stripStart (p : ascii -> bool) (s : string) : string :=
  match s with
  | EmptyString => EmptyString
  | String c s' => if p c then stripStart p s' else s
  end.

Fixpoint stripEnd (p : ascii -> bool) (s : string) : string :=
  match s with
  | EmptyString => EmptyString
  | String c s' =>
      match stripEnd p s' with
      | EmptyString => if p c then EmptyString else String c EmptyString
      | r => String c r
      end
  end.

(** [sanitizeIdentifier] *)
Definition sanitizeIdentifier (name : string) : string :=
  let result := asciiLowerCase name in
  let result := squeeze isSpace result in
  let result := hyphensToUnderscores result in
  let result := keepChars isWordChar result in
  let result := squeeze isUnderscore result in
  let result := stripEnd isUnderscore (stripStart isUnderscore result) in
  let result :=
    if bool_decide (result = EmptyString) then "vault"
    else if headIs isDigit result then String.append "vault_" result
    else result in
  if (63 <? String.length result)%nat
  then stripEnd isUnderscore (String.substring 0 63 result)
  else result.

(** Every character of the text is in the class. *)
Fixpoint allChars (p : ascii -> bool) (s : string) : bool :=
  match s with
  | EmptyString => true
  | String c s' => p c && allChars p s'
  end.

(** No two underscores follow each other. *)
Fixpoint noUnderscoreRun (s : string) : bool :=
  match s with
  | EmptyString => true
  | String c s' => negb (isUnderscore c && headIs isUnderscore s') && noUnderscoreRun s'
  end.

(** A name PostgreSQL takes unquoted and stores as it is: at most 63
    characters of [[a-z0-9_]], the first a letter; and, as the code makes
    them, no underscore at the end and no two in a row. *)
Definition validIdentifier (s : string) : Prop :=
  (1 <= String.length s <= 63)%nat
  /\ allChars isWordChar s = true
  /\ headIs isLower s = true
  /\ endsWith s "_" = false
  /\ noUnderscoreRun s = true.

(* ------------------------------------------------------------------ *)
(** ** The push loop of a full sync, file by file *)

(** The digest of the row that the upsert of a path writes: a note's in
    [vault_notes], an attachment's in [vault_attachments]. *)
Definition rowDigest `{Host} (d : Database) (p : string) : option string :=
  if bool_decide (extension p = "md") then note_contentHash <$> vault_notes d !! p
  else att_contentHash <$> vault_attachments d !! p.


(* ------------------------------------------------------------------ *)
(** ** A round of a pull *)



(* ================================================================== *)
(** * A small concrete world, for the examples *)

(** A host whose digests are the content behind a tag, whose glob match is
    equality, and whose parsers know the few texts the examples use. *)
Definition demoHost : Host :=
  {| jsonParse := fun s =>
       if bool_decide (s = "mine") then
         Ok (JObj [("vaultPath", JStr "notes"); ("lastFullSync", JNum 7);
                   ("files", JObj [("a.md", JObj [("hash", JStr "t:alpha");
                                                  ("lastSynced", JNum 5);
                                                  ("lastModified", JNum 4);
                                                  ("sizeBytes", JNum 5)])])])
       else if bool_decide (s = "foreign") then
         Ok (JObj [("vaultPath", JStr "elsewhere");
                   ("files", JObj [("z.md", JObj [("hash", JStr "t:zeta")])])])
       else if bool_decide (s = "broken record") then
         Ok (JObj [("vaultPath", JStr "notes"); ("files", JObj [("a.md", JNull)])])
       else Throw "SyntaxError";
     dateOfObject := fun _ => Ok InvalidDate;
     hashContent := fun c => String.append "t:" c;
     hashArrayBuffer := fun c => String.append "b:" c;
     minimatch := fun p pattern => bool_decide (p = pattern);
     normalizePath := fun p => p;
     parseYaml := fun s =>
       if bool_decide (s = "tags: [Work, work, Work]") then
         Ok (YMap [("tags", YSeq [YStr "Work"; YStr "work"; YStr "Work"])])
       else if bool_decide (s = "tags: ' Work '") then
         Ok (YMap [("tags", YStr " Work ")])
       else Throw "YAMLParseError";
     dateParse := fun _ => None;
     extractWikiLinks := fun _ => [];
     extractInlineTags := fun _ => [];
     trim := asciiTrim;
     toLowerCase := asciiLowerCase;
     extension := textAfterLastDot |}.

Definition demoSettings : PluginSettings :=
  {| debounceMs := 2000; maxBinarySizeMB := 50; retryAttempts := 3;
     ignorePatterns := [".obsidian/app.json"] |}.

Definition demoVault : gmap string Entry :=
  <["a.md" := FileEntry "alpha" 1 2]>
    (<["img/b.png" := FileEntry "beta" 1 2]>
       (<["img" := FolderEntry]>
          (<[".obsidian/app.json" := FileEntry "{}" 1 2]> ∅))).

Definition demoNote (p content : string) : VaultNote :=
  {| note_path := p; note_filename := basename p; note_title := None; note_tags := [];
     note_aliases := []; note_createdAt := None; note_modifiedAt := None;
     note_publish := false; note_frontmatter := []; note_body := content;
     note_rawContent := content; note_contentHash := String.append "t:" content;
     note_fileSizeBytes := 0; note_outgoingLinks := [] |}.

Definition demoAttachment (p content : string) : VaultAttachment :=
  {| att_path := p; att_filename := basename p; att_extension := textAfterLastDot p;
     att_mimeType := @getMimeType demoHost (textAfterLastDot p); att_fileSizeBytes := 0;
     att_contentHash := String.append "b:" content; att_data := content |}.

(** A remote store that holds [a.md] as it is locally, an older [old.md]
    and [gone.png] that no longer exist locally, and answers every query. *)
Definition demoDb : Database :=
  {| pool := true;
     vault_notes := <["a.md" := demoNote "a.md" "alpha"]>
                      (<["old.md" := demoNote "old.md" "omega"]> ∅);
     vault_attachments := <["gone.png" := demoAttachment "gone.png" "gamma"]> ∅;
     faults := []; calls := [] |}.

(** The same store with the fate of its coming queries scripted. *)
Definition demoDbFailing (fs : list bool) : Database :=
  {| pool := true; vault_notes := ∅; vault_attachments := ∅; faults := fs; calls := [] |}.

Definition demoEngine : SyncEngine := newSyncEngine "notes" demoVault demoDb demoSettings 100.

Definition demoEngineFailing (fs : list bool) : SyncEngine :=
  newSyncEngine "notes" demoVault (demoDbFailing fs) demoSettings 100.

(** [k] passes of [retryFailed], one after the other. *)
Fixpoint retryPasses `{Host} (k : nat) (e : SyncEngine) : SyncEngine :=
  match k with
  | O => e
  | S k' => retryPasses k' (snd (retryFailed e))
  end.



(** The small world after an edit of [a.md] whose upsert the store failed,
    the store failing the three queries that follow too. *)
Definition demoRetryEngine : SyncEngine :=
  snd (@handleFileEvent demoHost {| path := "a.md"; eventType := Modify; timestamp := 0 |}
         (demoEngineFailing [true; true; true; true])).

(** The small world after the deletion of [old.md], which is not in the
    vault, the store failing the remote delete. *)
Definition demoDeleteEngine : SyncEngine :=
  snd (@handleFileEvent demoHost {| path := "old.md"; eventType := Delete; timestamp := 0 |}
         (newSyncEngine "notes" demoVault
            {| pool := true; vault_notes := vault_notes demoDb;
               vault_attachments := vault_attachments demoDb;
               faults := [true]; calls := [] |}
            demoSettings 100)).

(** A listener that does nothing, and a debouncer of two seconds with it. *)
Definition demoListener : Listener := fun _ => Ok tt.
Definition demoDeb := onEvent demoListener (newDebouncer 2000 0).

(** The small world with no connection to the database. *)
Definition demoOffline : SyncEngine :=
  newSyncEngine "notes" demoVault
    {| pool := false; vault_notes := ∅; vault_attachments := ∅; faults := []; calls := [] |}
    demoSettings 100.

(** A platform that writes a time as [T] and its digits and reads two such
    texts back, and whose [JSON.parse] knows the one blob that its
    [JSON.stringify] writes. *)
Definition isoJsonHost : JsonHost :=
  {| jsonStringify := fun _ => "blob";
     toISOString := fun ms => String.append "T" (pretty ms) |}.

Definition demoTracker : StateTracker :=
  {| state := {| vaultPath := "notes"; lastFullSync := Some (DateMs 7);
                 files := <["a.md" := {| hash := Some "t:alpha"; lastSynced := DateMs 5;
                                         lastModified := DateMs 4;
                                         sizeBytes := Some 5%Z |}]> ∅ |};
     dirty := true |}.

(** A record of a file, for the examples. *)
Definition demoRecord : FileState :=
  {| hash := Some "t:omega"; lastSynced := DateMs 9; lastModified := DateMs 8;
     sizeBytes := Some 5%Z |}.

Definition isoHost : Host :=
  {| jsonParse := fun s =>
       if bool_decide (s = "blob") then Ok (@stateToJson isoJsonHost (state demoTracker))
       else Throw "SyntaxError";
     dateOfObject := fun _ => Ok InvalidDate;
     hashContent := fun c => String.append "t:" c;
     hashArrayBuffer := fun c => String.append "b:" c;
     minimatch := fun p pattern => bool_decide (p = pattern);
     normalizePath := fun p => p;
     parseYaml := fun _ => Throw "YAMLParseError";
     dateParse := fun s =>
       if bool_decide (s = "T7") then Some 7%Z
       else if bool_decide (s = "T5") then Some 5%Z
       else if bool_decide (s = "T4") then Some 4%Z
       else None;
     extractWikiLinks := fun _ => [];
     extractInlineTags := fun _ => [];
     trim := asciiTrim;
     toLowerCase := asciiLowerCase;
     extension := textAfterLastDot |}.

(** The small world with a store that already mirrors the vault. *)
Definition demoMirror : SyncEngine :=
  newSyncEngine "notes" demoVault
    {| pool := true;
       vault_notes := <["a.md" := demoNote "a.md" "alpha"]> ∅;
       vault_attachments := <["img/b.png" := demoAttachment "img/b.png" "beta"]> ∅;
       faults := []; calls := [] |}
    demoSettings 100.

(** The small world with a store that holds a note in a folder that the
    vault lacks and a picture in a folder that it has. *)
Definition demoPull : SyncEngine :=
  newSyncEngine "notes" demoVault
    {| pool := true;
       vault_notes := <["docs/n.md" := demoNote "docs/n.md" "nu"]> ∅;
       vault_attachments := <["img/c.png" := demoAttachment "img/c.png" "chi"]> ∅;
       faults := []; calls := [] |}
    demoSettings 100.

(* ================================================================== *)
(** * Proofs *)

Example trim_ex : asciiTrim "  a b  " = "a b".
Proof. reflexivity. Qed.

Example parentDir_ex : parentDir "a/b/c.md" = "a/b" /\ parentDir "c.md" = EmptyString /\ parentDir "/c.md" = EmptyString.
Proof. repeat split. Qed.

Example extension_ex : textAfterLastDot "a.b/c.tar.MD" = "MD" /\ textAfterLastDot "a.b/c" = EmptyString /\ basename "x/n.md" = "n".
Proof. repeat split. Qed.

Example mergeTags_ex :
  @mergeTags demoHost ["Project"; "idea"] ["idea"; "todo"] = ["project"; "idea"; "todo"].
Proof. vm_compute. reflexivity. Qed.

Example add_ex :
  delivered (advance 5000 (add "a.md" Modify (advance 1500 (add "a.md" Create demoDeb))))
  = [(0%nat, {| path := "a.md"; eventType := Create; timestamp := 1500 |})].
Proof. vm_compute. reflexivity. Qed.
Example add_ex2 :
  delivered (advance 3499 (add "a.md" Modify (advance 1500 (add "a.md" Create demoDeb))))
  = [].
Proof. vm_compute. reflexivity. Qed.
Example add_ex3 :
  delivered (advance 9000 (add "a.md" Delete (advance 2000 (add "a.md" Create demoDeb))))
  = [(0%nat, {| path := "a.md"; eventType := Create; timestamp := 0 |});
     (0%nat, {| path := "a.md"; eventType := Delete; timestamp := 2000 |})].
Proof. vm_compute. reflexivity. Qed.


(** ** Strings *)

Lemma lowerChar_idem c : lowerChar (lowerChar c) = lowerChar c.
Proof. destruct c as [[] [] [] [] [] [] [] []]; reflexivity. Qed.

Lemma isSpace_lowerChar c : isSpace (lowerChar c) = isSpace c.
Proof. destruct c as [[] [] [] [] [] [] [] []]; reflexivity. Qed.

Lemma asciiLowerCase_idem s : asciiLowerCase (asciiLowerCase s) = asciiLowerCase s.
Proof. induction s as [|c s IH]; simpl; [done|]. by rewrite lowerChar_idem, IH. Qed.

Lemma trimStart_asciiLowerCase s :
  trimStart (asciiLowerCase s) = asciiLowerCase (trimStart s).
Proof.
  induction s as [|c s IH]; simpl; [done|].
  rewrite isSpace_lowerChar. destruct (isSpace c); [apply IH | done].
Qed.

Lemma trimEnd_asciiLowerCase s : trimEnd (asciiLowerCase s) = asciiLowerCase (trimEnd s).
Proof.
  induction s as [|c s IH]; simpl; [done|].
  rewrite IH, isSpace_lowerChar.
  destruct (trimEnd s) as [|a r]; simpl; [|done].
  destruct (isSpace c); done.
Qed.

Lemma asciiTrim_asciiLowerCase s :
  asciiTrim (asciiLowerCase s) = asciiLowerCase (asciiTrim s).
Proof. unfold asciiTrim. by rewrite trimStart_asciiLowerCase, trimEnd_asciiLowerCase. Qed.

Lemma trimStart_idem s : trimStart (trimStart s) = trimStart s.
Proof.
  induction s as [|c s IH]; simpl; [done|].
  destruct (isSpace c) eqn:E; [apply IH|]. simpl. by rewrite E.
Qed.

Lemma trimEnd_idem s : trimEnd (trimEnd s) = trimEnd s.
Proof.
  induction s as [|c s IH]; simpl; [done|].
  destruct (trimEnd s) as [|a r] eqn:E.
  - destruct (isSpace c) eqn:Ec; simpl; [done|]. by rewrite Ec.
  - simpl in *. by rewrite IH.
Qed.

Lemma trimStart_trimEnd s : trimStart (trimEnd s) = trimEnd (trimStart s).
Proof.
  induction s as [|c s IH]; simpl; [done|].
  destruct (isSpace c) eqn:Ec.
  - rewrite <- IH. destruct (trimEnd s) as [|a r]; simpl; [done|]. by rewrite Ec.
  - simpl. destruct (trimEnd s) as [|a r]; simpl; by rewrite Ec.
Qed.

Lemma asciiTrim_idem s : asciiTrim (asciiTrim s) = asciiTrim s.
Proof.
  unfold asciiTrim. rewrite trimStart_trimEnd, trimStart_idem, trimEnd_idem. done.
Qed.

(** On the host of the examples a normalised tag is a fixed point. *)
Lemma demo_normalizeTag_idem t :
  @normalizeTag demoHost (@normalizeTag demoHost t) = @normalizeTag demoHost t.
Proof.
  unfold normalizeTag. cbn [trim toLowerCase demoHost].
  by rewrite <- (asciiTrim_asciiLowerCase (asciiLowerCase t)), asciiLowerCase_idem,
    asciiTrim_idem.
Qed.

Lemma filter_filter_and' {A} (f g : A -> bool) l :
  List.filter g (List.filter f l) = List.filter (fun x => f x && g x) l.
Proof.
  induction l as [|x l IH]; simpl; [done|].
  destruct (f x); simpl; [destruct (g x)|]; by rewrite IH.
Qed.

Lemma filter_comm {A} (f g : A -> bool) l :
  List.filter f (List.filter g l) = List.filter g (List.filter f l).
Proof.
  induction l as [|x l IH]; simpl; [done|].
  destruct (f x) eqn:Ef, (g x) eqn:Eg; simpl; rewrite ?Ef, ?Eg, IH; done.
Qed.

Lemma keepFirst_filter (f : string -> bool) l :
  keepFirst (List.filter f l) = List.filter f (keepFirst l).
Proof.
  induction l as [|x l IH]; simpl; [done|].
  destruct (f x) eqn:E; simpl.
  - rewrite IH. f_equal. apply filter_comm.
  - rewrite IH, filter_filter_and'. apply filter_ext. intros a.
    destruct (decide (a = x)) as [->|Hne].
    + by rewrite E, andb_false_r.
    + by rewrite (bool_decide_eq_false_2 (a = x)) by done.
Qed.

Lemma keepFirst_In x l : In x (keepFirst l) <-> In x l.
Proof.
  induction l as [|y l IH]; simpl; [done|].
  rewrite filter_In, IH. split.
  - intros [?|[? _]]; auto.
  - intros [?|?]; [by left|].
    destruct (decide (x = y)) as [->|Hne]; [by left|right].
    split; [done|]. apply negb_true_iff, bool_decide_eq_false. done.
Qed.

Lemma keepFirst_NoDup l : List.NoDup (keepFirst l).
Proof.
  induction l as [|y l IH]; simpl; constructor.
  - rewrite filter_In. intros [_ Hc].
    apply negb_true_iff, bool_decide_eq_false in Hc. done.
  - by apply List.NoDup_filter.
Qed.

Lemma filter_filter_and {A} (f g : A -> bool) l :
  List.filter f (List.filter g l) = List.filter (fun x => g x && f x) l.
Proof.
  induction l as [|x l IH]; simpl; [done|].
  destruct (g x); simpl; [destruct (f x)|]; by rewrite IH.
Qed.

Section MergeFacts.
Context `{Host}.

Lemma mergeStep_fold (l : list string) (seen : gset string) (merged : list string) :
  (forall x, x ∈ seen <-> x ∈ merged) ->
  snd (foldl mergeStep (seen, merged) l)
  = merged ++ keepFirst (List.filter (fun x => nonEmpty x && negb (bool_decide (x ∈ merged)))
                                     (map normalizeTag l)).
Proof.
  revert seen merged. induction l as [|t l IH]; intros seen merged Hinv; simpl.
  - by rewrite app_nil_r.
  - unfold mergeStep at 2. simpl. fold (normalizeTag t).
    assert (Hdec : bool_decide (normalizeTag t ∈ seen) = bool_decide (normalizeTag t ∈ merged)).
    { apply bool_decide_ext, Hinv. }
    rewrite Hdec.
    destruct (nonEmpty (normalizeTag t) && negb (bool_decide (normalizeTag t ∈ merged))) eqn:E.
    + rewrite IH.
      * rewrite <- app_assoc. simpl. do 2 f_equal.
        rewrite <- keepFirst_filter. f_equal.
        rewrite filter_filter_and. apply filter_ext. intros a.
        destruct (nonEmpty a); simpl; [|done].
        destruct (decide (a = normalizeTag t)) as [->|Hne].
        -- rewrite (bool_decide_eq_true_2 (normalizeTag t = normalizeTag t)) by done.
           rewrite andb_false_r. apply negb_false_iff, bool_decide_eq_true.
           apply elem_of_app. right. apply list_elem_of_singleton. done.
        -- rewrite (bool_decide_eq_false_2 (a = normalizeTag t)) by done.
           rewrite andb_true_r. f_equal. apply bool_decide_ext.
           rewrite elem_of_app, list_elem_of_singleton. tauto.
      * intros x. rewrite elem_of_union, elem_of_singleton, elem_of_app, list_elem_of_singleton.
        rewrite Hinv. tauto.
    + by apply IH.
Qed.

Lemma mergeTags_refines fm inl : mergeTags fm inl = mergeTags_spec fm inl.
Proof.
  unfold mergeTags, mergeTags_spec. rewrite <- foldl_app.
  rewrite (mergeStep_fold _ ∅ []).
  - rewrite app_nil_l. f_equal. apply filter_ext. intros a.
    rewrite (bool_decide_eq_false_2 (a ∈ [])); [by rewrite andb_true_r|].
    apply not_elem_of_nil.
  - intros x. split; [set_solver|]. intros Hx. by apply not_elem_of_nil in Hx.
Qed.

(** ** The parser *)


Lemma mergeTags_normalized fm inl :
  Forall (fun t => nonEmpty t = true
                   /\ exists s, In s (fm ++ inl) /\ t = trim (toLowerCase s))
         (mergeTags fm inl).
Proof.
  rewrite mergeTags_refines. unfold mergeTags_spec.
  apply Forall_forall. intros t Ht. apply list_elem_of_In in Ht.
  apply keepFirst_In, filter_In in Ht as [Ht Hne].
  apply in_map_iff in Ht as (u & <- & Hu). split; [done|]. by exists u.
Qed.

End MergeFacts.

Section ParserFacts.
Context `{Host}.



End ParserFacts.


(** ** Insertion-ordered maps *)

Section JsMapFacts.
Context {V : Type}.
Implicit Types (m : JsMap.t V) (k : string) (v : V).

Lemma jsmap_get_set_eq k v m : JsMap.get k (JsMap.set k v m) = Some v.
Proof.
  induction m as [|[k' v'] m IH]; simpl.
  - by rewrite decide_True.
  - destruct (decide (k = k')) as [->|Hne]; simpl.
    + by rewrite decide_True.
    + by rewrite decide_False.
Qed.

Lemma jsmap_get_set_ne k k' v m : k <> k' -> JsMap.get k' (JsMap.set k v m) = JsMap.get k' m.
Proof.
  intros Hne. induction m as [|[k0 v0] m IH]; simpl.
  - by rewrite decide_False.
  - destruct (decide (k = k0)) as [->|Hne0]; simpl.
    + by rewrite !decide_False.
    + destruct (decide (k' = k0)); done.
Qed.

Lemma jsmap_get_delete_eq k m : JsMap.get k (JsMap.delete k m) = None.
Proof.
  induction m as [|[k' v'] m IH]; simpl; [done|].
  destruct (decide (k = k')) as [->|Hne]; simpl; [done|].
  by rewrite decide_False.
Qed.

Lemma jsmap_get_delete_ne k k' m : k <> k' -> JsMap.get k' (JsMap.delete k m) = JsMap.get k' m.
Proof.
  intros Hne. induction m as [|[k0 v0] m IH]; simpl; [done|].
  destruct (decide (k = k0)) as [->|Hne0]; simpl.
  - by rewrite decide_False.
  - destruct (decide (k' = k0)); done.
Qed.

Lemma jsmap_get_Some_keys k v m : JsMap.get k m = Some v -> In k (JsMap.keys m).
Proof.
  induction m as [|[k' v'] m IH]; simpl; [done|].
  destruct (decide (k = k')) as [->|Hne]; [by left | right; auto].
Qed.

Lemma jsmap_get_None_keys k m : JsMap.get k m = None <-> ~ In k (JsMap.keys m).
Proof.
  induction m as [|[k' v'] m IH]; simpl; [tauto|].
  destruct (decide (k = k')) as [->|Hne].
  - split; [done | intros []; by left].
  - rewrite IH. split; [intros ? [?|?]; congruence | tauto].
Qed.

Lemma jsmap_keys_set k v m :
  forall k', In k' (JsMap.keys (JsMap.set k v m)) <-> k' = k \/ In k' (JsMap.keys m).
Proof.
  intros k'. induction m as [|[k0 v0] m IH]; simpl.
  - split; [intros [?|[]]; by left | intros [?|[]]; by left].
  - destruct (decide (k = k0)) as [->|Hne]; simpl.
    + split; [intros [?|?]; auto | intros [?|[?|?]]; auto].
    + rewrite IH. split; [intros [?|[?|?]]; auto | intros [?|[?|?]]; auto].
Qed.

End JsMapFacts.

(** ** The debouncer *)

Lemma coalesce_rule existing incoming :
  coalesce existing incoming =
    if bool_decide (incoming = Delete \/ existing = Delete) then Delete
    else if bool_decide (existing = Create /\ incoming = Modify) then Create
    else incoming.
Proof. destruct existing, incoming; reflexivity. Qed.

Lemma handle_inj (l : list Timeout) x y :
  List.NoDup (map handle l) -> In x l -> In y l -> handle x = handle y -> x = y.
Proof.
  induction l as [|z l IH]; simpl; [done|].
  intros Hnd Hx Hy Heq. inversion Hnd as [|? ? Hnotin Hnd']; subst.
  destruct Hx as [->|Hx], Hy as [->|Hy]; auto.
  - exfalso. apply Hnotin. rewrite Heq. by apply in_map.
  - exfalso. apply Hnotin. rewrite <- Heq. by apply in_map.
Qed.

Lemma NoDup_map_filter {A B} (f : A -> B) (g : A -> bool) l :
  List.NoDup (map f l) -> List.NoDup (map f (List.filter g l)).
Proof.
  induction l as [|x l IH]; simpl; [done|].
  intros Hnd. inversion Hnd as [|? ? Hnotin Hnd']; subst.
  destruct (g x); simpl; [|by apply IH].
  constructor; [|by apply IH].
  intros Hin. apply Hnotin. apply in_map_iff in Hin as (y & Hy & Hin).
  apply filter_In in Hin as [Hin _]. rewrite <- Hy. by apply in_map.
Qed.

Lemma earliest_spec l x :
  earliest l = Some x -> In x l /\ forall y, In y l -> (due x <= due y)%Z.
Proof.
  revert x. induction l as [|z l IH]; simpl; [done|].
  intros x. destruct (earliest l) as [y|] eqn:E.
  - destruct (IH y eq_refl) as [Hin Hmin].
    destruct (due z <=? due y)%Z eqn:Hc; intros [= <-].
    + apply Z.leb_le in Hc. split; [by left|].
      intros w [<-|Hw]; [lia|]. specialize (Hmin w Hw). lia.
    + apply Z.leb_gt in Hc. split; [by right|].
      intros w [<-|Hw]; [lia|]. by apply Hmin.
  - intros [= <-]. split; [by left|].
    intros w [<-|Hw]; [lia|]. destruct l; [done|]. simpl in E.
    destruct (earliest l); [destruct (_ <=? _)%Z|]; done.
Qed.

Lemma earliest_None l : earliest l = None -> l = [].
Proof.
  destruct l as [|z l]; [done|]. simpl.
  destruct (earliest l); [destruct (_ <=? _)%Z|]; done.
Qed.

(** What [add] stores. *)
Lemma add_events p ty d :
  stopped d = false ->
  JsMap.get p (events (add p ty d)) =
    Some {| event := {| path := match JsMap.get p (events d) with
                                | Some pe => path (event pe) | None => p end;
                        eventType := match JsMap.get p (events d) with
                                     | Some pe => coalesce (eventType (event pe)) ty
                                     | None => ty end;
                        timestamp := clock d |};
            timer := nextHandle d |}.
Proof.
  intros Hs. unfold add. rewrite Hs.
  destruct (JsMap.get p (events d)) as [pe|]; simpl; by rewrite jsmap_get_set_eq.
Qed.

Lemma add_events_ne p q ty d :
  p <> q -> JsMap.get q (events (add p ty d)) = JsMap.get q (events d).
Proof.
  intros Hne. unfold add. destruct (stopped d); [done|].
  destruct (JsMap.get p (events d)) as [pe|]; simpl; by rewrite jsmap_get_set_ne.
Qed.

Lemma add_timeouts p ty d :
  stopped d = false ->
  timeouts (add p ty d) =
    List.filter (fun t => negb (bool_decide (Some (handle t) = timer <$> JsMap.get p (events d))))
                (timeouts d)
    ++ [{| handle := nextHandle d; due := (clock d + delay d)%Z; target := p |}].
Proof.
  intros Hs. unfold add. rewrite Hs.
  destruct (JsMap.get p (events d)) as [pe|]; simpl.
  - f_equal. apply filter_ext. intros t. f_equal. apply bool_decide_ext.
    split; [by intros -> | by intros [=]].
  - f_equal. symmetry. rewrite <- (filter_true (timeouts d)) at 2. by apply filter_ext.
Qed.

Lemma add_frame p ty d :
  delay (add p ty d) = delay d /\ callbacks (add p ty d) = callbacks d
  /\ stopped (add p ty d) = stopped d /\ clock (add p ty d) = clock d
  /\ delivered (add p ty d) = delivered d.
Proof.
  unfold add. destruct (stopped d) eqn:Hs; [done|].
  destruct (JsMap.get p (events d)); simpl; by rewrite ?Hs.
Qed.

Lemma add_nextHandle p ty d :
  stopped d = false -> nextHandle (add p ty d) = S (nextHandle d).
Proof.
  intros Hs. unfold add. rewrite Hs. destruct (JsMap.get p (events d)); done.
Qed.

Lemma add_ok p ty d : debouncerOk d -> debouncerOk (add p ty d).
Proof.
  intros Hok. destruct (stopped d) eqn:Hs.
  { unfold add. by rewrite Hs. }
  destruct Hok as [Hto Hpe Hnd Hfr].
  split.
  - intros t. rewrite add_timeouts by done. rewrite in_app_iff, filter_In. simpl.
    intros [[Hin Hne]|[<-|[]]]; simpl.
    + destruct (Hto t Hin) as (pe & Hget & Htm).
      destruct (decide (target t = p)) as [Heq|Hneq].
      * exfalso. rewrite Heq in Hget. rewrite Hget in Hne. simpl in Hne.
        rewrite Htm in Hne. by rewrite bool_decide_eq_true_2 in Hne.
      * exists pe. by rewrite add_events_ne.
    + eexists. rewrite add_events by done. done.
  - intros q pe. destruct (decide (p = q)) as [<-|Hne].
    + rewrite add_events by done. intros [= <-]. simpl. split.
      * destruct (JsMap.get p (events d)) as [pe0|] eqn:E; [|done].
        by destruct (Hpe p pe0 E).
      * eexists. rewrite add_timeouts by done. rewrite in_app_iff. split; [right; by left|done].
    + rewrite add_events_ne by done. intros Hget.
      destruct (Hpe q pe Hget) as (Hpath & t & Hin & Hh & Ht). split; [done|].
      exists t. split; [|done]. rewrite add_timeouts by done. rewrite in_app_iff, filter_In.
      left. split; [done|]. apply negb_true_iff, bool_decide_eq_false.
      destruct (JsMap.get p (events d)) as [pe0|] eqn:E; simpl; [|done].
      intros [= Heq]. destruct (Hpe p pe0 E) as (_ & t0 & Hin0 & Hh0 & Ht0).
      assert (t = t0) by (eapply handle_inj; eauto; congruence). congruence.
  - rewrite add_timeouts by done. rewrite map_app. simpl.
    apply List.NoDup_app.
    + by apply NoDup_map_filter.
    + constructor; [intros [] | constructor].
    + intros h Hin [<-|[]]. apply in_map_iff in Hin as (t & Hh & Hin).
      apply filter_In in Hin as [Hin _]. specialize (Hfr t Hin). lia.
  - intros t. rewrite add_timeouts, add_nextHandle by done.
    rewrite in_app_iff, filter_In. intros [[Hin _]|[<-|[]]]; simpl; [|lia].
    specialize (Hfr t Hin). lia.
Qed.

Lemma fire_timeouts x d :
  timeouts (fire x d)
  = List.filter (fun y => negb (bool_decide (handle y = handle x))) (timeouts d).
Proof. unfold fire, emit. simpl. by destruct (JsMap.get _ _). Qed.

Lemma fire_events x d :
  events (fire x d) = match JsMap.get (target x) (events d) with
                      | Some _ => JsMap.delete (target x) (events d)
                      | None => events d
                      end.
Proof. unfold fire, emit. simpl. by destruct (JsMap.get _ _). Qed.

Lemma fire_delivered x d :
  delivered (fire x d)
  = delivered d ++ match JsMap.get (target x) (events d) with
                   | Some pe => imap (fun i (cb : Listener) => (i, event pe)) (callbacks d)
                   | None => []
                   end.
Proof.
  unfold fire, emit. simpl. destruct (JsMap.get _ _); simpl; [done|].
  by rewrite app_nil_r.
Qed.

Lemma fire_frame x d :
  delay (fire x d) = delay d /\ callbacks (fire x d) = callbacks d
  /\ stopped (fire x d) = stopped d /\ nextHandle (fire x d) = nextHandle d
  /\ clock (fire x d) = Z.max (clock d) (due x).
Proof. unfold fire, emit. simpl. by destruct (JsMap.get _ _). Qed.

Lemma fire_ok x d : debouncerOk d -> In x (timeouts d) -> debouncerOk (fire x d).
Proof.
  intros [Hto Hpe Hnd Hfr] Hx.
  destruct (Hto x Hx) as (pex & Hgx & Htx).
  split.
  - intros t. rewrite fire_timeouts, fire_events, Hgx, filter_In.
    intros [Hin Hne]. apply negb_true_iff, bool_decide_eq_false in Hne.
    destruct (Hto t Hin) as (pe & Hget & Htm). exists pe. split; [|done].
    rewrite jsmap_get_delete_ne; [done|].
    intros Heq. rewrite <- Heq in Hget. congruence.
  - intros p pe. rewrite fire_events, Hgx. intros Hget.
    destruct (decide (target x = p)) as [<-|Hne].
    { by rewrite jsmap_get_delete_eq in Hget. }
    rewrite jsmap_get_delete_ne in Hget by done.
    destruct (Hpe p pe Hget) as (Hpath & t & Hin & Hh & Ht). split; [done|].
    exists t. split; [|done]. rewrite fire_timeouts, filter_In. split; [done|].
    apply negb_true_iff, bool_decide_eq_false. intros Heq.
    assert (t = x) by (eapply handle_inj; eauto). congruence.
  - rewrite fire_timeouts. by apply NoDup_map_filter.
  - intros t. rewrite fire_timeouts, filter_In. intros [Hin _].
    destruct (fire_frame x d) as (_ & _ & _ & -> & _). auto.
Qed.

Lemma deliveredTo_imap i p (e : FileEvent) (cbs : list Listener) k :
  map snd (List.filter (fun x => bool_decide (fst x = i) && bool_decide (path (snd x) = p))
                       (imap (fun j (cb : Listener) => ((k + j)%nat, e)) cbs))
  = if bool_decide (path e = p /\ (k <= i < k + length cbs)%nat) then [e] else [].
Proof.
  revert k. induction cbs as [|cb cbs IH]; intros k; simpl.
  - rewrite bool_decide_eq_false_2; [done | lia].
  - rewrite (imap_ext _ (fun j cb => ((S k + j)%nat, e))); [|intros; simpl; f_equal; lia].
    specialize (IH (S k)). simpl in IH.
    destruct (bool_decide (k + 0 = i)%nat && bool_decide (path e = p)) eqn:E; simpl; rewrite IH.
    + apply andb_true_iff in E as [E1 E2].
      apply bool_decide_eq_true in E1, E2.
      rewrite bool_decide_eq_false_2 by lia.
      rewrite bool_decide_eq_true_2; [done | split; [done|lia]].
    + match goal with
      | |- (if bool_decide ?P then _ else _) = (if bool_decide ?Q then _ else _) =>
          rewrite (bool_decide_ext P Q); [done|]
      end.
      apply andb_false_iff in E as [E|E]; apply bool_decide_eq_false in E;
        [split; intros [? ?]; split; auto; lia | tauto].
Qed.

Lemma deliveredTo_fire i p x d :
  debouncerOk d -> In x (timeouts d) ->
  deliveredTo i p (fire x d)
  = deliveredTo i p d
    ++ match JsMap.get p (events d) with
       | Some pe => if bool_decide (target x = p /\ (i < length (callbacks d))%nat)
                    then [event pe] else []
       | None => []
       end.
Proof.
  intros Hok Hx. unfold deliveredTo. rewrite fire_delivered, List.filter_app, List.map_app. f_equal.
  destruct (ok_timeout _ Hok x Hx) as (pex & Hgx & _). rewrite Hgx.
  destruct (ok_pending _ Hok _ _ Hgx) as [Hpath _].
  pose proof (deliveredTo_imap i p (event pex) (callbacks d) 0) as Him.
  simpl in Him. rewrite Him. clear Him.
  destruct (decide (target x = p)) as [<-|Hne].
  - rewrite Hgx.
    match goal with
    | |- (if bool_decide ?P then _ else _) = (if bool_decide ?Q then _ else _) =>
        rewrite (bool_decide_ext P Q); [done|]
    end.
    split; intros []; split; auto; lia.
  - rewrite bool_decide_eq_false_2 by (rewrite Hpath; tauto).
    destruct (JsMap.get p (events d)); [|done].
    by rewrite bool_decide_eq_false_2 by tauto.
Qed.

(** A path none of whose timers is due by [t] is left alone by the timers
    that fire until [t]. *)
Lemma runTimers_untouched fuel t p d :
  debouncerOk d ->
  (forall x, In x (timeouts d) -> target x = p -> (t < due x)%Z) ->
  let d' := runTimers fuel t d in
  debouncerOk d'
  /\ JsMap.get p (events d') = JsMap.get p (events d)
  /\ (forall i, deliveredTo i p d' = deliveredTo i p d)
  /\ (forall x, In x (timeouts d') -> target x = p -> (t < due x)%Z)
  /\ (forall x, In x (timeouts d) -> target x = p -> In x (timeouts d'))
  /\ delay d' = delay d /\ callbacks d' = callbacks d /\ stopped d' = stopped d
  /\ nextHandle d' = nextHandle d
  /\ (clock d' <= Z.max (clock d) t)%Z /\ (clock d <= clock d')%Z.
Proof.
  revert d. induction fuel as [|fuel IH]; intros d Hok Hdue; simpl.
  { split; [done|]. repeat split; auto; lia. }
  destruct (earliest (timeouts d)) as [x|] eqn:E; [|split; [done|]; repeat split; auto; lia].
  destruct (due x <=? t)%Z eqn:Hx; [|split; [done|]; repeat split; auto; lia].
  apply Z.leb_le in Hx. apply earliest_spec in E as [Hin _].
  assert (Hne : target x <> p) by (intros Heq; specialize (Hdue x Hin Heq); lia).
  destruct (fire_frame x d) as (Hd & Hc & Hs & Hn & Hck).
  destruct (IH (fire x d)) as (Hok' & Hget & Hdel & Hdue' & Hkeep & Hd' & Hc' & Hs' & Hn' & Hck' & Hck'').
  { by apply fire_ok. }
  { intros y. rewrite fire_timeouts, filter_In. intros [Hy _]. by apply Hdue. }
  split; [done|].
  split.
  { rewrite Hget, fire_events. destruct (JsMap.get (target x) (events d)); [|done].
    by rewrite jsmap_get_delete_ne. }
  split.
  { intros i. rewrite Hdel, deliveredTo_fire by done.
    destruct (JsMap.get p (events d)); [|by rewrite app_nil_r].
    rewrite bool_decide_eq_false_2 by tauto. by rewrite app_nil_r. }
  split; [done|].
  split.
  { intros y Hy Hty. apply Hkeep; [|done]. rewrite fire_timeouts, filter_In. split; [done|].
    apply negb_true_iff, bool_decide_eq_false. intros Heq.
    assert (y = x) by (apply (handle_inj (timeouts d) y x (ok_handles _ Hok)); auto).
    congruence. }
  repeat split; try congruence; lia.
Qed.

Lemma filter_length_lt {A} (f : A -> bool) l x :
  In x l -> f x = false -> (length (List.filter f l) < length l)%nat.
Proof.
  induction l as [|y l IH]; simpl; [done|].
  intros [->|Hin] Hf.
  - rewrite Hf. pose proof (filter_length_le f l). lia.
  - specialize (IH Hin Hf). destruct (f y); simpl; lia.
Qed.

(** A pending entry whose timer is due by [t] is emitted, once, to every
    listener. *)
Lemma runTimers_fires fuel t p pe tm d :
  debouncerOk d ->
  JsMap.get p (events d) = Some pe ->
  In tm (timeouts d) -> handle tm = timer pe -> (due tm <= t)%Z ->
  (length (timeouts d) <= fuel)%nat ->
  let d' := runTimers fuel t d in
  debouncerOk d'
  /\ JsMap.get p (events d') = None
  /\ (forall i, deliveredTo i p d'
                = deliveredTo i p d
                  ++ (if bool_decide (i < length (callbacks d))%nat then [event pe] else []))
  /\ delay d' = delay d /\ callbacks d' = callbacks d /\ stopped d' = stopped d.
Proof.
  revert d. induction fuel as [|fuel IH]; intros d Hok Hget Htm Hh Hdue Hlen.
  { destruct (timeouts d); [done | simpl in Hlen; lia]. }
  simpl.
  destruct (earliest (timeouts d)) as [x|] eqn:E.
  2:{ apply earliest_None in E. by rewrite E in Htm. }
  apply earliest_spec in E as [Hin Hmin].
  pose proof (Hmin tm Htm) as Hle.
  rewrite (proj2 (Z.leb_le (due x) t)) by lia.
  destruct (fire_frame x d) as (Hd & Hc & Hs & Hn & Hck).
  destruct (ok_pending _ Hok _ _ Hget) as (Hpath & tm' & Htm' & Hh' & Htg').
  assert (tm' = tm)
    by (apply (handle_inj (timeouts d) tm' tm (ok_handles _ Hok)); auto; congruence).
  subst tm'.
  destruct (decide (handle x = handle tm)) as [Heq|Hne].
  - assert (x = tm) by (apply (handle_inj (timeouts d) x tm (ok_handles _ Hok)); auto).
    subst x.
    destruct (runTimers_untouched fuel t p (fire tm d))
      as (Hok' & Hget' & Hdel & _ & _ & Hd' & Hc' & Hs' & _).
    { by apply fire_ok. }
    { intros y. rewrite fire_timeouts, filter_In. intros [Hy Hny] Hty.
      apply negb_true_iff, bool_decide_eq_false in Hny.
      destruct (ok_timeout _ Hok y Hy) as (pey & Hgy & Hty').
      rewrite Hty, Hget in Hgy. injection Hgy as <-. congruence. }
    split; [done|].
    split.
    { rewrite Hget', fire_events, Htg', Hget. apply jsmap_get_delete_eq. }
    split.
    { intros i. rewrite Hdel, deliveredTo_fire, Hget by done. f_equal.
      match goal with
      | |- (if bool_decide ?P then _ else _) = (if bool_decide ?Q then _ else _) =>
          rewrite (bool_decide_ext P Q); [done|]
      end.
      tauto. }
    repeat split; congruence.
  - assert (Hnt : target x <> p).
    { intros Heq. destruct (ok_timeout _ Hok x Hin) as (pex & Hgx & Htx).
      rewrite Heq, Hget in Hgx. injection Hgx as <-. congruence. }
    destruct (IH (fire x d)) as (Hok' & Hget' & Hdel & Hd' & Hc' & Hs').
    { by apply fire_ok. }
    { rewrite fire_events. destruct (JsMap.get (target x) (events d)); [|done].
      by rewrite jsmap_get_delete_ne. }
    { rewrite fire_timeouts, filter_In. split; [done|].
      apply negb_true_iff, bool_decide_eq_false. congruence. }
    { done. }
    { done. }
    { rewrite fire_timeouts.
      pose proof (filter_length_lt (fun y => negb (bool_decide (handle y = handle x)))
                    (timeouts d) x Hin) as Hlt.
      simpl in Hlt. rewrite bool_decide_eq_true_2 in Hlt by done.
      specialize (Hlt eq_refl). lia. }
    split; [done|]. split; [done|].
    split.
    { intros i. rewrite Hdel, deliveredTo_fire, Hget by done.
      rewrite bool_decide_eq_false_2 by tauto. rewrite app_nil_r. by rewrite Hc. }
    repeat split; congruence.
Qed.
Lemma withClock_ok c d : debouncerOk d -> debouncerOk (withClock c d).
Proof. intros [? ? ? ?]. by split. Qed.

Lemma advance_untouched t p d :
  debouncerOk d ->
  (forall x, In x (timeouts d) -> target x = p -> (t < due x)%Z) ->
  (clock d <= t)%Z ->
  let d' := advance t d in
  debouncerOk d'
  /\ JsMap.get p (events d') = JsMap.get p (events d)
  /\ (forall i, deliveredTo i p d' = deliveredTo i p d)
  /\ (forall x, In x (timeouts d) -> target x = p -> In x (timeouts d'))
  /\ delay d' = delay d /\ callbacks d' = callbacks d /\ stopped d' = stopped d
  /\ nextHandle d' = nextHandle d /\ clock d' = t.
Proof.
  intros Hok Hdue Hck.
  destruct (runTimers_untouched (length (timeouts d)) t p d Hok Hdue)
    as (Hok' & Hget & Hdel & _ & Hkeep & Hd & Hc & Hs & Hn & Hle & _).
  unfold advance. simpl.
  split; [by apply withClock_ok|].
  repeat split; auto. lia.
Qed.

Lemma advance_fires t p pe tm d :
  debouncerOk d ->
  JsMap.get p (events d) = Some pe ->
  In tm (timeouts d) -> handle tm = timer pe -> (due tm <= t)%Z ->
  let d' := advance t d in
  debouncerOk d'
  /\ JsMap.get p (events d') = None
  /\ (forall i, deliveredTo i p d'
                = deliveredTo i p d
                  ++ (if bool_decide (i < length (callbacks d))%nat then [event pe] else [])).
Proof.
  intros Hok Hget Htm Hh Hdue.
  destruct (runTimers_fires (length (timeouts d)) t p pe tm d Hok Hget Htm Hh Hdue)
    as (Hok' & Hget' & Hdel & _); [lia|].
  unfold advance. simpl.
  split; [by apply withClock_ok|]. split; done.
Qed.

(** Two events on a path with nothing pending, the second one before the
    window of the first has elapsed: one event is emitted, of the coalesced
    type, once the window of the second has elapsed. *)
Lemma add_twice_emits_once d p k1 k2 t1 t2 i :
  debouncerOk d -> stopped d = false -> JsMap.get p (events d) = None ->
  (clock d <= t1 < clock d + delay d)%Z -> (t1 + delay d <= t2)%Z ->
  (i < length (callbacks d))%nat ->
  let d' := advance t2 (add p k2 (advance t1 (add p k1 d))) in
  deliveredTo i p d'
  = deliveredTo i p d ++ [{| path := p; eventType := coalesce k1 k2; timestamp := t1 |}]
  /\ JsMap.get p (events d') = None.
Proof.
  intros Hok Hs Hnone Ht1 Ht2 Hi.
  (* the first event *)
  pose proof (add_ok p k1 d Hok) as Hok1.
  pose proof (add_events p k1 d Hs) as Hev1. rewrite Hnone in Hev1.
  pose proof (add_timeouts p k1 d Hs) as Hto1. rewrite Hnone in Hto1. simpl in Hto1.
  destruct (add_frame p k1 d) as (Hd1 & Hc1 & Hs1 & Hck1 & Hdl1).
  set (d1 := add p k1 d) in *. clearbody d1.
  (* the clock moves to t1: the timer of p is not due *)
  destruct (advance_untouched t1 p d1 Hok1)
    as (Hok2 & Hev2 & Hdl2 & Hkeep2 & Hd2 & Hc2 & Hs2 & Hn2 & Hck2).
  { intros x. rewrite Hto1, in_app_iff, filter_In. intros [[Hx _]|[<-|[]]] Htx; simpl; [|lia].
    destruct (ok_timeout _ Hok x Hx) as (pe & Hget & _). congruence. }
  { lia. }
  set (d2 := advance t1 d1) in *. clearbody d2.
  (* the second event *)
  assert (Hs2' : stopped d2 = false) by congruence.
  pose proof (add_ok p k2 d2 Hok2) as Hok3.
  pose proof (add_events p k2 d2 Hs2') as Hev3. rewrite Hev2, Hev1 in Hev3. simpl in Hev3.
  pose proof (add_timeouts p k2 d2 Hs2') as Hto3.
  destruct (add_frame p k2 d2) as (Hd3 & Hc3 & Hs3 & Hck3 & Hdl3).
  set (d3 := add p k2 d2) in *. clearbody d3.
  (* the clock moves to t2: the timer of p fires *)
  destruct (advance_fires t2 p _ {| handle := nextHandle d2; due := (clock d2 + delay d2)%Z;
                                    target := p |} d3 Hok3 Hev3)
    as (Hok4 & Hev4 & Hdl4).
  { rewrite Hto3, in_app_iff. right. by left. }
  { done. }
  { simpl. rewrite Hck2, Hd2, Hd1. lia. }
  split; [|done].
  rewrite Hdl4. simpl.
  rewrite Hc3, Hc2, Hc1, bool_decide_eq_true_2 by done.
  rewrite Hck2. f_equal.
  unfold deliveredTo at 1. rewrite Hdl3. fold (deliveredTo i p d2).
  rewrite Hdl2. unfold deliveredTo. by rewrite Hdl1.
Qed.

(** C3.  The type recorded for a pending path after a further event: Delete
    once either the recorded or the incoming type is Delete, Create when a
    Modify arrives on a Create, the incoming type otherwise.  An [add] on a
    pending path records that type.  On a path with nothing pending, two
    events of which the second arrives before the window of the first has
    elapsed are handed to every listener as one event, of the coalesced type
    and bearing the time of the second, once the window of the second has
    elapsed, and nothing is left pending: one Create for Create then Modify,
    one Delete for Modify then Delete. *)
Theorem coalescing_rule_and_single_emission :
  (forall existing incoming,
      coalesce existing incoming =
        if bool_decide (incoming = Delete \/ existing = Delete) then Delete
        else if bool_decide (existing = Create /\ incoming = Modify) then Create
        else incoming)
  /\ (forall d p ty pe,
        stopped d = false -> JsMap.get p (events d) = Some pe ->
        exists pe', JsMap.get p (events (add p ty d)) = Some pe'
                    /\ eventType (event pe') = coalesce (eventType (event pe)) ty)
  /\ (forall d p k1 k2 t1 t2 i,
        debouncerOk d -> stopped d = false -> JsMap.get p (events d) = None ->
        (clock d <= t1 < clock d + delay d)%Z -> (t1 + delay d <= t2)%Z ->
        (i < length (callbacks d))%nat ->
        let d' := advance t2 (add p k2 (advance t1 (add p k1 d))) in
        deliveredTo i p d'
        = deliveredTo i p d ++ [{| path := p; eventType := coalesce k1 k2; timestamp := t1 |}]
        /\ JsMap.get p (events d') = None)
  /\ coalesce Create Modify = Create
  /\ coalesce Modify Delete = Delete.
Proof.
  split; [apply coalesce_rule|].
  split.
  { intros d p ty pe Hs Hget. eexists. rewrite add_events, Hget by done. done. }
  split; [apply add_twice_emits_once|].
  done.
Qed.

Lemma newDebouncer_ok delayMs t0 : debouncerOk (newDebouncer delayMs t0).
Proof. split; simpl; try done. constructor. Qed.

Lemma onEvent_ok cb d : debouncerOk d -> debouncerOk (onEvent cb d).
Proof. intros [? ? ? ?]. by split. Qed.

(** The engine's debouncer, freshly made: a Create at time 0, a Modify at
    time 1500, the clock at 5000. *)
Lemma coalescing_rule_and_single_emission_witness :
  deliveredTo 0 "a.md" (advance 5000 (add "a.md" Modify (advance 1500 (add "a.md" Create demoDeb))))
  = [{| path := "a.md"; eventType := Create; timestamp := 1500 |}]
  /\ deliveredTo 0 "a.md" (advance 5000 (add "a.md" Delete (advance 1500 (add "a.md" Modify demoDeb))))
     = [{| path := "a.md"; eventType := Delete; timestamp := 1500 |}].
Proof.
  pose proof (onEvent_ok demoListener _ (newDebouncer_ok 2000 0)) as Hok.
  destruct coalescing_rule_and_single_emission as (_ & _ & Hemit & _).
  split.
  - apply (Hemit demoDeb "a.md" Create Modify 1500%Z 5000%Z 0%nat Hok); simpl; done || lia.
  - apply (Hemit demoDeb "a.md" Modify Delete 1500%Z 5000%Z 0%nat Hok); simpl; done || lia.
Defined.

(** ** The state tracker *)

Section StateTrackerFacts.
Context `{Host}.

Lemma loadBody_identity blob st parsed :
  jsonParse blob = Ok parsed ->
  loadBody blob st =
    if bool_decide (storedIdentity parsed = Some (vaultPath st))
    then reviveState (vaultPath st) parsed
    else match parsed with JNull => Throw "TypeError: cannot read properties of null"
                      | _ => Ok st end.
Proof.
  intros Hp. unfold loadBody. rewrite Hp. simpl.
  destruct parsed as [| | | |items|fields]; simpl; try done.
  destruct (assoc "vaultPath" fields) as [[| | |s| |]|]; try done.
  destruct (decide (s = vaultPath st)) as [->|Hne].
  - by rewrite !bool_decide_eq_true_2.
  - rewrite !bool_decide_eq_false_2; [done | congruence | done].
Qed.

Lemma load_unchanged_or_revived blob tr :
  snd (load blob tr) = tr
  \/ exists parsed st',
       jsonParse blob = Ok parsed
       /\ storedIdentity parsed = Some (vaultPath (state tr))
       /\ reviveState (vaultPath (state tr)) parsed = Ok st'
       /\ snd (load blob tr) = {| state := st'; dirty := dirty tr |}.
Proof.
  unfold load. destruct (jsonParse blob) as [parsed|m] eqn:Hp.
  - rewrite (loadBody_identity _ _ _ Hp).
    destruct (bool_decide (storedIdentity parsed = Some (vaultPath (state tr)))) eqn:Hid.
    + apply bool_decide_eq_true in Hid.
      destruct (reviveState (vaultPath (state tr)) parsed) as [st'|m] eqn:Hr; [|by left].
      right. by exists parsed, st'.
    + left. destruct parsed; simpl; by destruct tr.
  - left. unfold loadBody. by rewrite Hp.
Qed.

(** C6.  [load] always returns to its caller.  It leaves the tracker as it
    was when the blob does not parse, when the deserialised value bears
    another tree identity than the tracker's (or none), and when reviving the
    stored records throws; a tracker just made thus stays empty.  Otherwise
    the whole state is the revived one, under the tracker's own identity:
    there is no third outcome, so no part of a foreign or broken blob is ever
    merged. *)
Theorem load_rejects_foreign_and_malformed :
  (forall blob tr, fst (load blob tr) = Ok tt)
  /\ (forall blob tr, isOk (jsonParse blob) = false -> snd (load blob tr) = tr)
  /\ (forall blob tr parsed,
        jsonParse blob = Ok parsed ->
        storedIdentity parsed <> Some (vaultPath (state tr)) ->
        snd (load blob tr) = tr)
  /\ (forall blob tr, isOk (loadBody blob (state tr)) = false -> snd (load blob tr) = tr)
  /\ (forall blob tr,
        snd (load blob tr) = tr
        \/ exists parsed st',
             jsonParse blob = Ok parsed
             /\ storedIdentity parsed = Some (vaultPath (state tr))
             /\ reviveState (vaultPath (state tr)) parsed = Ok st'
             /\ vaultPath st' = vaultPath (state tr)
             /\ snd (load blob tr) = {| state := st'; dirty := dirty tr |})
  /\ (forall blob name,
        isOk (jsonParse blob) = false
        \/ (exists parsed, jsonParse blob = Ok parsed /\ storedIdentity parsed <> Some name) ->
        files (state (snd (load blob (newStateTracker name)))) = ∅
        /\ lastFullSync (state (snd (load blob (newStateTracker name)))) = None).
Proof.
  split.
  { intros blob tr. unfold load. by destruct (loadBody blob (state tr)). }
  split.
  { intros blob tr Hm. unfold load, loadBody.
    destruct (jsonParse blob); [done|]. done. }
  split.
  { intros blob tr parsed Hp Hid. unfold load.
    rewrite (loadBody_identity _ _ _ Hp), bool_decide_eq_false_2 by done.
    destruct parsed; simpl; by destruct tr. }
  split.
  { intros blob tr Hm. unfold load. by destruct (loadBody blob (state tr)). }
  split.
  { intros blob tr. destruct (load_unchanged_or_revived blob tr)
      as [Hu|(parsed & st' & Hp & Hid & Hr & Hl)]; [by left|].
    right. exists parsed, st'. repeat split; try done.
    unfold reviveState in Hr.
    destruct (jsonProp parsed "lastFullSync"); simpl in Hr; [|done].
    destruct (if jsonTruthy _ then _ else _); simpl in Hr; [|done].
    destruct (jsonProp parsed "files"); simpl in Hr; [|done].
    destruct (omapM _ _); simpl in Hr; [|done].
    by injection Hr as <-. }
  intros blob name Hrej.
  assert (snd (load blob (newStateTracker name)) = newStateTracker name) as ->; [|done].
  destruct Hrej as [Hm|(parsed & Hp & Hid)].
  - unfold load, loadBody. by destruct (jsonParse blob).
  - unfold load. rewrite (loadBody_identity _ _ _ Hp), bool_decide_eq_false_2 by done.
    by destruct parsed.
Qed.

End StateTrackerFacts.

(** A blob that does not parse, a blob of another tree, and a blob of this
    tree one of whose records is null leave the tracker as it was; the blob
    of this tree is loaded. *)
Lemma load_rejects_foreign_and_malformed_witness :
  snd (@load demoHost "not json" (newStateTracker "notes")) = newStateTracker "notes"
  /\ snd (@load demoHost "foreign" (newStateTracker "notes")) = newStateTracker "notes"
  /\ snd (@load demoHost "broken record" (newStateTracker "notes")) = newStateTracker "notes"
  /\ hash <$> files (state (snd (@load demoHost "mine" (newStateTracker "notes")))) !! "a.md"
     = Some (Some "t:alpha").
Proof.
  destruct (@load_rejects_foreign_and_malformed demoHost) as (_ & Hbad & Hforeign & Hthrow & _).
  split; [apply Hbad; reflexivity|].
  split; [eapply Hforeign; [reflexivity | vm_compute; congruence]|].
  split; [apply Hthrow; reflexivity|].
  vm_compute. reflexivity.
Defined.

(** ** The engine: the monad *)

Lemma bind_gets {A B} (f : SyncEngine -> A) (k : A -> M B) e :
  bind (gets f) k e = k (f e) e.
Proof. reflexivity. Qed.

Lemma bind_modify {B} (f : SyncEngine -> SyncEngine) (k : unit -> M B) e :
  bind (modify f) k e = k tt (f e).
Proof. reflexivity. Qed.

Lemma bind_log {B} l (k : unit -> M B) e :
  bind (log l) k e = k tt (withConsole (console e ++ [l]) e).
Proof. reflexivity. Qed.

Lemma bind_ret {A B} (a : A) (k : A -> M B) e : bind (ret a) k e = k a e.
Proof. reflexivity. Qed.

Lemma tryFinally_modify {A} (c : M A) f e :
  tryFinally c (modify f) e = (fst (c e), f (snd (c e))).
Proof. unfold tryFinally, modify. by destruct (c e). Qed.

Section EngineFacts.
Context `{Host}.

(** A call made while a pass runs is refused: it shows a notice and changes
    nothing else. *)
Lemma fullReconcile_refused e :
  isRunning e = true ->
  fullReconcile e = (Ok tt, withConsole (console e ++ [Notice "Sync already in progress"]) e).
Proof. intros Hr. unfold fullReconcile. by rewrite bind_gets, Hr. Qed.

Lemma pullFromDB_refused e :
  isRunning e = true ->
  pullFromDB e = (Ok tt, withConsole (console e ++ [Notice "Sync already in progress"]) e).
Proof. intros Hr. unfold pullFromDB. by rewrite bind_gets, Hr. Qed.

(** C10.  A pass of [fullReconcile] or [pullFromDB] that starts (no other
    pass is running when it is called) ends with the running flag down and
    returns to its caller, whatever was thrown inside it. *)
Theorem running_flag_reset_on_exit e :
  isRunning e = false ->
  isRunning (snd (fullReconcile e)) = false
  /\ isRunning (snd (pullFromDB e)) = false
  /\ isOk (fst (fullReconcile e)) = true
  /\ isOk (fst (pullFromDB e)) = true.
Proof.
  intros Hr.
  unfold fullReconcile, pullFromDB.
  rewrite !bind_gets, Hr, !bind_modify, !bind_log, !tryFinally_modify. simpl.
  repeat split.
  - unfold tryCatch. destruct (bind reconcilePlan _ _) as [[?|?] ?]; [done|].
    by rewrite !bind_log.
  - unfold tryCatch. destruct (bind (onDb getAllNotes) _ _) as [[?|?] ?]; [done|].
    by rewrite !bind_log.
Qed.

End EngineFacts.

(** A pass over the small world, and a pass whose first query throws. *)
Lemma running_flag_reset_on_exit_witness :
  isRunning (snd (@fullReconcile demoHost demoEngine)) = false
  /\ isRunning (snd (@pullFromDB demoHost (demoEngineFailing [true]))) = false.
Proof.
  split.
  - apply (@running_flag_reset_on_exit demoHost demoEngine). reflexivity.
  - apply (@running_flag_reset_on_exit demoHost (demoEngineFailing [true])). reflexivity.
Defined.

(** ** The plan of a full reconciliation *)

Lemma assoc_get {V} k (m : JsMap.t V) : JsMap.get k m = assoc k m.
Proof. induction m as [|[k' v] m IH]; simpl; [done|]. by rewrite IH. Qed.

Lemma assoc_app {V} k (l1 l2 : list (string * V)) :
  assoc k (l1 ++ l2) = match assoc k l1 with Some v => Some v | None => assoc k l2 end.
Proof.
  induction l1 as [|[k' v] l1 IH]; simpl; [done|].
  destruct (decide (k = k')); done.
Qed.

Lemma assoc_In {V} k v (l : list (string * V)) : assoc k l = Some v -> In (k, v) l.
Proof.
  induction l as [|[k' v'] l IH]; simpl; [done|].
  destruct (decide (k = k')) as [->|Hne]; [intros [= ->]; by left | right; auto].
Qed.

Lemma assoc_None {V} k (l : list (string * V)) : assoc k l = None <-> ~ In k (map fst l).
Proof.
  rewrite <- assoc_get. apply jsmap_get_None_keys.
Qed.

Lemma assoc_NoDup {V} k v (l : list (string * V)) :
  List.NoDup (map fst l) -> In (k, v) l -> assoc k l = Some v.
Proof.
  induction l as [|[k' v'] l IH]; simpl; [done|].
  intros Hnd Hin. inversion Hnd as [|? ? Hnotin Hnd']; subst.
  destruct Hin as [[= -> ->]|Hin].
  - by rewrite decide_True.
  - destruct (decide (k = k')) as [->|Hne]; [|auto].
    exfalso. apply Hnotin. apply in_map_iff. by exists (k', v).
Qed.

(** A later pair overrides an earlier one. *)
Lemma get_foldl_set {V} k (l : list (string * V)) (m : JsMap.t V) :
  JsMap.get k (foldl (fun m kv => JsMap.set (fst kv) (snd kv) m) m l)
  = match assoc k (rev l) with Some v => Some v | None => JsMap.get k m end.
Proof.
  revert m. induction l as [|[k' v'] l IH]; intros m; simpl; [done|].
  rewrite IH, assoc_app. destruct (assoc k (rev l)); [done|]. simpl.
  destruct (decide (k = k')) as [->|Hne].
  - apply jsmap_get_set_eq.
  - by apply jsmap_get_set_ne.
Qed.

Lemma assoc_rev_NoDup {V} k (l : list (string * V)) :
  List.NoDup (map fst l) -> assoc k (rev l) = assoc k l.
Proof.
  intros Hnd. destruct (assoc k l) as [v|] eqn:E.
  - apply assoc_NoDup.
    + rewrite map_rev. by apply NoDup_rev.
    + apply in_rev. rewrite rev_involutive. by apply assoc_In.
  - apply assoc_None. rewrite map_rev, <- in_rev. by apply assoc_None.
Qed.

Lemma set_fresh {V} k (v : V) (m : JsMap.t V) :
  ~ In k (JsMap.keys m) -> JsMap.set k v m = m ++ [(k, v)].
Proof.
  induction m as [|[k' v'] m IH]; simpl; [done|].
  intros Hn. rewrite decide_False by (intros ->; apply Hn; by left).
  f_equal. apply IH. intros Hin. apply Hn. by right.
Qed.

Lemma foldl_set_fresh {V} (l : list (string * V)) (m : JsMap.t V) :
  List.NoDup (map fst l) -> (forall k, In k (map fst l) -> ~ In k (JsMap.keys m)) ->
  foldl (fun m kv => JsMap.set (fst kv) (snd kv) m) m l = m ++ l.
Proof.
  revert m. induction l as [|[k v] l IH]; intros m Hnd Hfresh; simpl.
  - by rewrite app_nil_r.
  - inversion Hnd as [|? ? Hnotin Hnd']; subst.
    rewrite set_fresh by (apply Hfresh; by left).
    rewrite IH; [by rewrite <- app_assoc | done |].
    intros k' Hk'. unfold JsMap.keys. rewrite map_app, in_app_iff. simpl.
    intros [Hm|[<-|[]]]; [|done]. eapply Hfresh; [right; eassumption | done].
Qed.

(** The listing of a table is the list of its rows. *)
Lemma ofEntries_rows {V} (t : gmap string V) (f : V -> string) :
  JsMap.ofEntries (map (fun row => (fst row, f (snd row))) (map_to_list t))
  = map (fun row => (fst row, f (snd row))) (map_to_list t).
Proof.
  unfold JsMap.ofEntries. rewrite foldl_set_fresh; [done| |by intros k _ []].
  rewrite map_map. simpl. apply NoDup_ListNoDup, NoDup_fst_map_to_list.
Qed.

(** The rows of a table, as the listing reads them. *)
Lemma rows_assoc {V} (t : gmap string V) (f : V -> string) k :
  assoc k (rev (map (fun row => (fst row, f (snd row))) (map_to_list t))) = f <$> t !! k.
Proof.
  set (l := map _ _).
  assert (Hnd : List.NoDup (map fst l)).
  { unfold l. rewrite map_map. simpl. apply NoDup_ListNoDup, NoDup_fst_map_to_list. }
  rewrite assoc_rev_NoDup by done.
  destruct (t !! k) as [v|] eqn:E; simpl.
  - apply assoc_NoDup; [done|]. unfold l. apply in_map_iff. exists (k, v). split; [done|].
    apply list_elem_of_In, elem_of_map_to_list. done.
  - apply assoc_None. unfold l. rewrite map_map. simpl. intros Hin.
    apply in_map_iff in Hin as ([k' v] & Hk & Hin). simpl in Hk. subst k'.
    apply list_elem_of_In, elem_of_map_to_list in Hin. congruence.
Qed.

Lemma getFiles_In (v : gmap string Entry) p : In p (getFiles v) <-> isLocalFile v p.
Proof.
  unfold getFiles, isLocalFile. rewrite in_map_iff. split.
  - intros ([p' x] & Hp & Hin). simpl in Hp. subst p'.
    apply filter_In in Hin as [Hin Hf]. simpl in Hf.
    apply list_elem_of_In, elem_of_map_to_list in Hin.
    destruct x as [c ct mt|]; [|done]. by exists c, ct, mt.
  - intros (c & ct & mt & Hv). exists (p, FileEntry c ct mt). split; [done|].
    apply filter_In. split; [|done]. apply list_elem_of_In, elem_of_map_to_list. done.
Qed.

Lemma vaultRead_file p e :
  isLocalFile (vault e) p -> vaultRead p e = (Ok (fileContent (vault e) p), e).
Proof. intros (c & ct & mt & Hv). unfold vaultRead, fileContent. by rewrite Hv. Qed.

Section PlanFacts.
Context `{Host}.

Lemma scanLocal_files dbHashes localFiles toSync localPaths e :
  (forall p, In p localFiles -> isLocalFile (vault e) p) ->
  scanLocal dbHashes localFiles toSync localPaths e
  = (Ok (toSync ++ List.filter
                     (fun p => needsPush dbHashes p (localDigest p (fileContent (vault e) p)))
                     localFiles,
         list_to_set localFiles ∪ localPaths), e).
Proof.
  revert toSync localPaths. induction localFiles as [|file rest IH]; intros toSync localPaths Hall.
  - simpl. unfold ret. rewrite app_nil_r. f_equal. f_equal. f_equal. set_solver.
  - simpl. unfold bind at 1. rewrite vaultRead_file by (apply Hall; by left).
    rewrite IH by (intros; apply Hall; by right).
    f_equal. f_equal. f_equal.
    + destruct (needsPush _ _ _); [by rewrite <- app_assoc | done].
    + set_solver.
Qed.

(** The map [dbHashes] of [fullReconcile], read at a path. *)
Lemma dbHashes_get (d : Database) p :
  JsMap.get p
    (JsMap.ofEntries
       (JsMap.entries (JsMap.ofEntries
                         (map (fun row => (fst row, note_contentHash (snd row)))
                              (map_to_list (vault_notes d))))
        ++ JsMap.entries (JsMap.ofEntries
                            (map (fun row => (fst row, att_contentHash (snd row)))
                                 (map_to_list (vault_attachments d))))))
  = remoteDigest d p.
Proof.
  rewrite !ofEntries_rows. unfold JsMap.ofEntries, JsMap.entries, remoteDigest.
  rewrite get_foldl_set, rev_app_distr, assoc_app, !rows_assoc.
  destruct (vault_attachments d !! p); simpl; [done|].
  by destruct (vault_notes d !! p).
Qed.

Lemma needsPush_spec dbHashes p digest :
  digest <> EmptyString ->
  needsPush dbHashes p digest = true
  <-> JsMap.get p dbHashes = None \/ JsMap.get p dbHashes <> Some digest.
Proof.
  intros Hne. unfold needsPush, nonEmpty.
  destruct (JsMap.get p dbHashes) as [h|]; [|by split; [left|]].
  rewrite orb_true_iff, !negb_true_iff, negb_false_iff, bool_decide_eq_true,
    bool_decide_eq_false.
  split.
  - intros [->|Hd]; right; congruence.
  - intros [?|Hd]; [done|]. right. congruence.
Qed.

Lemma query_ok {A} c (run : Database -> A * Database) d :
  head (faults d) <> Some true ->
  query c run d
  = (Ok (fst (run d)),
     {| pool := pool (snd (run d)); vault_notes := vault_notes (snd (run d));
        vault_attachments := vault_attachments (snd (run d));
        faults := tail (faults d); calls := calls d ++ [(c, true)] |}).
Proof.
  intros Hh. unfold query. destruct (faults d) as [|[] fs]; simpl in *; try done;
    by destruct (run d).
Qed.

Lemma query_fails {A} c (run : Database -> A * Database) d :
  head (faults d) = Some true ->
  query c run d
  = (Throw "query failed",
     {| pool := pool d; vault_notes := vault_notes d;
        vault_attachments := vault_attachments d;
        faults := tail (faults d); calls := calls d ++ [(c, false)] |}).
Proof.
  intros Hh. unfold query. destruct (faults d) as [|[] fs]; simpl in *; done.
Qed.

(** C1.  When the two listings of the remote digests are answered, the scan
    of [fullReconcile] ends with a plan: the files to sync are the local
    files that match no ignore pattern and whose digest the remote map lacks
    or holds with another value, and the remote paths to delete are the paths
    of the remote map that are not such a local file.  (A digest is 64
    hexadecimal digits, never the empty string.) *)
Theorem reconcile_plan_is_the_set_difference e :
  (forall c, hashContent c <> EmptyString /\ hashArrayBuffer c <> EmptyString) ->
  pool (db e) = true ->
  head (faults (db e)) <> Some true ->
  head (tail (faults (db e))) <> Some true ->
  exists toSync toDelete e',
    reconcilePlan e = (Ok (toSync, toDelete), e')
    /\ (forall p, In p toSync <->
          (isLocalFile (vault e) p /\ shouldIgnore p e = false)
          /\ (remoteDigest (db e) p = None
              \/ remoteDigest (db e) p <> Some (localDigest p (fileContent (vault e) p))))
    /\ (forall p, In p toDelete <->
          remoteDigest (db e) p <> None
          /\ ~ (isLocalFile (vault e) p /\ shouldIgnore p e = false)).
Proof.
  intros Hhash Hpool Hf1 Hf2.
  unfold reconcilePlan.
  rewrite bind_gets.
  unfold bind at 1. unfold onDb at 1, getAllNoteHashes. rewrite Hpool. simpl.
  rewrite query_ok by done. simpl.
  unfold bind at 1. unfold onDb at 1, getAllAttachmentHashes. simpl. rewrite Hpool. simpl.
  rewrite query_ok by done. simpl.
  set (dbHashes := JsMap.ofEntries _).
  set (e2 := withDb _ (withDb _ e)).
  set (localFiles := List.filter _ _).
  assert (Hlocal : forall p, In p localFiles <->
                               isLocalFile (vault e) p /\ shouldIgnore p e = false).
  { intros p. unfold localFiles. rewrite filter_In, getFiles_In, negb_true_iff. done. }
  unfold bind at 1.
  rewrite scanLocal_files by (intros p Hp; by apply Hlocal in Hp as [? _]).
  simpl. unfold ret.
  eexists _, _, _. split; [reflexivity|].
  assert (Hget : forall p, JsMap.get p dbHashes = remoteDigest (db e) p).
  { intros p. unfold dbHashes. apply dbHashes_get. }
  split.
  - intros p. rewrite filter_In, Hlocal. unfold e2. simpl.
    rewrite needsPush_spec, Hget; [done|].
    unfold localDigest. destruct (bool_decide _); apply Hhash.
  - intros p. rewrite filter_In, negb_true_iff, bool_decide_eq_false.
    rewrite elem_of_union, elem_of_list_to_set, list_elem_of_In, Hlocal.
    rewrite <- Hget. split.
    + intros [Hk Hn]. split.
      * intros Hnone. by apply jsmap_get_None_keys in Hnone.
      * intros Hl. apply Hn. by left.
    + intros [Hk Hn]. split.
      * destruct (in_dec string_dec p (JsMap.keys dbHashes)) as [|Hnk]; [done|].
        by apply jsmap_get_None_keys in Hnk.
      * intros [Hl|Hl]; [done | set_solver].
Qed.

End PlanFacts.

(** The small world: [img/b.png] is not in the remote store, [a.md] is
    there with the same digest, [old.md] and [gone.png] are only there. *)
Lemma reconcile_plan_is_the_set_difference_witness :
  exists toSync toDelete e',
    @reconcilePlan demoHost demoEngine = (Ok (toSync, toDelete), e')
    /\ (In "img/b.png" toSync /\ ~ In "a.md" toSync)
    /\ (In "old.md" toDelete /\ In "gone.png" toDelete /\ ~ In "a.md" toDelete).
Proof.
  destruct (@reconcile_plan_is_the_set_difference demoHost demoEngine)
    as (toSync & toDelete & e' & Hplan & _ & _).
  - intros c. split; by destruct c.
  - reflexivity.
  - vm_compute; congruence.
  - vm_compute; congruence.
  - exists toSync, toDelete, e'. split; [exact Hplan|].
    vm_compute in Hplan. injection Hplan as <- <- _.
    repeat split; simpl; try tauto.
    + intros [|[]]; discriminate.
    + intros [?|[?|[]]]; discriminate.
Defined.

(** ** The sync of one file *)

Lemma nextQuery_cases d : nextQueryOk d \/ nextQueryFails d.
Proof.
  unfold nextQueryOk, nextQueryFails.
  destruct (pool d); [|by right; left].
  destruct (faults d) as [|[] fs]; simpl; [left; by split | right; by right | left; by split].
Qed.

Lemma upsertNote_ok n d :
  nextQueryOk d ->
  upsertNote n d
  = (Ok tt, {| pool := pool d; vault_notes := <[note_path n := n]> (vault_notes d);
               vault_attachments := vault_attachments d; faults := tail (faults d);
               calls := calls d ++ [(UpsertNote (note_path n), true)] |}).
Proof.
  intros [Hp Hf]. unfold upsertNote. rewrite Hp. cbn [negb].
  rewrite query_ok by done. simpl. by rewrite Hp.
Qed.

Lemma upsertNote_fails n d :
  nextQueryFails d ->
  exists m, upsertNote n d = (Throw m, afterFailedQuery (UpsertNote (note_path n)) d).
Proof.
  unfold upsertNote, afterFailedQuery. intros [Hp|Hf].
  - rewrite Hp. simpl. by eexists.
  - destruct (pool d) eqn:Hp; cbn [negb]; [|by eexists].
    rewrite query_fails by done. rewrite Hp. by eexists.
Qed.

Lemma upsertAttachment_ok a d :
  nextQueryOk d ->
  upsertAttachment a d
  = (Ok tt, {| pool := pool d; vault_notes := vault_notes d;
               vault_attachments := <[att_path a := a]> (vault_attachments d);
               faults := tail (faults d);
               calls := calls d ++ [(UpsertAttachment (att_path a), true)] |}).
Proof.
  intros [Hp Hf]. unfold upsertAttachment. rewrite Hp. cbn [negb].
  rewrite query_ok by done. simpl. by rewrite Hp.
Qed.

Lemma upsertAttachment_fails a d :
  nextQueryFails d ->
  exists m, upsertAttachment a d
            = (Throw m, afterFailedQuery (UpsertAttachment (att_path a)) d).
Proof.
  unfold upsertAttachment, afterFailedQuery. intros [Hp|Hf].
  - rewrite Hp. simpl. by eexists.
  - destruct (pool d) eqn:Hp; cbn [negb]; [|by eexists].
    rewrite query_fails by done. rewrite Hp. by eexists.
Qed.

Section UpsertFacts.
Context `{Host}.

Lemma upsertFile_ok p e :
  reachesUpsert p e -> nextQueryOk (db e) -> upsertFile p e = (Ok tt, afterUpsert p e).
Proof.
  intros (Hfile & Hig & Hsize & Hn) Hok.
  pose proof Hfile as (c & ct & mt & Hv).
  assert (Hfc : fileContent (vault e) p = c) by (unfold fileContent; by rewrite Hv).
  unfold localDigest in Hn. rewrite Hfc in Hn.
  unfold upsertFile, afterUpsert. rewrite bind_gets, Hv, bind_gets, Hig, Hfc.
  destruct (bool_decide (extension p = "md")) eqn:Hmd.
  - unfold syncNote. unfold bind at 1.
    rewrite vaultRead_file, Hfc, bind_gets, Hn by done. simpl.
    unfold adapterStat. rewrite bind_gets. unfold bind at 1, onDb at 1.
    by rewrite upsertNote_ok by done.
  - apply bool_decide_eq_false in Hmd. destruct Hsize as [?|Hsize]; [done|].
    unfold syncAttachment, adapterStat. rewrite !bind_gets.
    rewrite (proj2 (Z.ltb_ge _ _)) by done.
    unfold bind at 1.
    rewrite vaultRead_file, Hfc, bind_gets, Hn by done. simpl.
    unfold bind at 1, onDb at 1.
    by rewrite upsertAttachment_ok by done.
Qed.

Lemma upsertFile_fails p e :
  reachesUpsert p e -> nextQueryFails (db e) ->
  exists m, upsertFile p e = (Throw m, withDb (afterFailedQuery (upsertCall p) (db e)) e).
Proof.
  intros (Hfile & Hig & Hsize & Hn) Hfail.
  pose proof Hfile as (c & ct & mt & Hv).
  assert (Hfc : fileContent (vault e) p = c) by (unfold fileContent; by rewrite Hv).
  unfold localDigest in Hn. rewrite Hfc in Hn.
  unfold upsertFile, upsertCall. rewrite bind_gets, Hv, bind_gets, Hig.
  destruct (bool_decide (extension p = "md")) eqn:Hmd.
  - unfold syncNote. unfold bind at 1.
    rewrite vaultRead_file, Hfc, bind_gets, Hn by done. simpl.
    unfold adapterStat. rewrite bind_gets. unfold bind at 1, onDb at 1.
    destruct (upsertNote_fails (buildNote p c (statOf (vault e) p)) (db e) Hfail) as [m Hm].
    rewrite Hm. by exists m.
  - apply bool_decide_eq_false in Hmd. destruct Hsize as [?|Hsize]; [done|].
    unfold syncAttachment, adapterStat. rewrite !bind_gets.
    rewrite (proj2 (Z.ltb_ge _ _)) by done.
    unfold bind at 1.
    rewrite vaultRead_file, Hfc, bind_gets, Hn by done. simpl.
    unfold bind at 1, onDb at 1.
    destruct (upsertAttachment_fails (buildAttachment p c (statOf (vault e) p)) (db e) Hfail)
      as [m Hm].
    rewrite Hm. by exists m.
Qed.

(** What [upsertFile] does, case by case. *)
Lemma upsertFile_cases p e :
  upsertFile p e = (Ok tt, e)
  \/ upsertFile p e = (Ok tt, withConsole (console e ++ [AttachmentTooLarge p]) e)
  \/ (reachesUpsert p e /\ nextQueryOk (db e) /\ upsertFile p e = (Ok tt, afterUpsert p e))
  \/ (reachesUpsert p e /\ nextQueryFails (db e)
      /\ exists m, upsertFile p e
                   = (Throw m, withDb (afterFailedQuery (upsertCall p) (db e)) e)).
Proof.
  assert (Hreached : reachesUpsert p e ->
            (reachesUpsert p e /\ nextQueryOk (db e)
             /\ upsertFile p e = (Ok tt, afterUpsert p e))
            \/ (reachesUpsert p e /\ nextQueryFails (db e)
                /\ exists m, upsertFile p e
                             = (Throw m, withDb (afterFailedQuery (upsertCall p) (db e)) e))).
  { intros Hr. destruct (nextQuery_cases (db e)) as [Hok|Hfail].
    - left. auto using upsertFile_ok.
    - right. auto using upsertFile_fails. }
  destruct (vault e !! p) as [[c ct mt|]|] eqn:Hv.
  2,3: left; unfold upsertFile; by rewrite bind_gets, Hv.
  destruct (shouldIgnore p e) eqn:Hig.
  { left. unfold upsertFile. by rewrite bind_gets, Hv, bind_gets, Hig. }
  assert (Hfile : isLocalFile (vault e) p) by (by exists c, ct, mt).
  assert (Hfc : fileContent (vault e) p = c) by (unfold fileContent; by rewrite Hv).
  destruct (needsSync p (localDigest p c) (tracker e)) eqn:Hn.
  - destruct (decide (extension p = "md")) as [Hmd|Hmd].
    { right. right. apply Hreached. repeat split; auto. by rewrite Hfc. }
    destruct (decide (sizeOfStat (statOf (vault e) p)
                      <= maxBinarySizeMB (settings e) * 1024 * 1024)%Z) as [Hsz|Hsz].
    { right. right. apply Hreached. repeat split; auto. by rewrite Hfc. }
    right. left. unfold upsertFile. rewrite bind_gets, Hv, bind_gets, Hig.
    rewrite bool_decide_eq_false_2 by done.
    unfold syncAttachment, adapterStat. rewrite !bind_gets.
    by rewrite (proj2 (Z.ltb_lt _ _)) by lia.
  - unfold localDigest in Hn.
    unfold upsertFile. rewrite bind_gets, Hv, bind_gets, Hig.
    destruct (bool_decide (extension p = "md")) eqn:Hmd.
    + left. unfold syncNote. unfold bind at 1.
      by rewrite vaultRead_file, Hfc, bind_gets, Hn by done.
    + unfold syncAttachment, adapterStat. rewrite !bind_gets.
      destruct (_ <? _)%Z; [right; by left|]. left.
      unfold bind at 1.
      by rewrite vaultRead_file, Hfc, bind_gets, Hn by done.
Qed.

End UpsertFacts.

Lemma needsSync_false p digest tr :
  needsSync p digest tr = false
  <-> exists st, getFileState p tr = Some (Own st) /\ hash st = Some digest.
Proof.
  unfold needsSync, getFileState, readKey. destruct (files (state tr) !! p) as [st|].
  - rewrite negb_false_iff, bool_decide_eq_true. split.
    + intros Hh. by exists st.
    + by intros (st' & [= <-] & Hh).
  - split; [done|]. intros (st & Hst & _). by destruct (inheritedKey p).
Qed.



Section IncrementalFacts.
Context `{Host}.

(** A file whose digest is the recorded one is skipped. *)
Lemma upsertFile_unchanged p e :
  isLocalFile (vault e) p ->
  (extension p = "md"
   \/ (sizeOfStat (statOf (vault e) p) <= maxBinarySizeMB (settings e) * 1024 * 1024)%Z) ->
  needsSync p (localDigest p (fileContent (vault e) p)) (tracker e) = false ->
  upsertFile p e = (Ok tt, e).
Proof.
  intros Hfile Hsize Hn. pose proof Hfile as (c & ct & mt & Hv).
  assert (Hfc : fileContent (vault e) p = c) by (unfold fileContent; by rewrite Hv).
  unfold localDigest in Hn. rewrite Hfc in Hn.
  unfold upsertFile. rewrite bind_gets, Hv, bind_gets.
  destruct (shouldIgnore p e); [done|].
  destruct (bool_decide (extension p = "md")) eqn:Hmd.
  - unfold syncNote. unfold bind at 1.
    by rewrite vaultRead_file, Hfc, bind_gets, Hn by done.
  - apply bool_decide_eq_false in Hmd. destruct Hsize as [?|Hsize]; [done|].
    unfold syncAttachment, adapterStat. rewrite !bind_gets.
    rewrite (proj2 (Z.ltb_ge _ _)) by done.
    unfold bind at 1.
    by rewrite vaultRead_file, Hfc, bind_gets, Hn by done.
Qed.

Lemma afterUpsert_fields p e :
  vault (afterUpsert p e) = vault e
  /\ settings (afterUpsert p e) = settings e
  /\ retryQueue (afterUpsert p e) = retryQueue e
  /\ calls (db (afterUpsert p e)) = calls (db e) ++ [(upsertCall p, true)]
  /\ (exists st, getFileState p (tracker (afterUpsert p e)) = Some (Own st)
                  /\ hash st = Some (localDigest p (fileContent (vault e) p))).
Proof.
  unfold afterUpsert, upsertCall, localDigest, getFileState, readKey.
  destruct (bool_decide (extension p = "md")); simpl; rewrite lookup_insert_eq;
    repeat split; by eexists.
Qed.

Lemma syncFile_upsert p k e :
  k = Create \/ k = Modify -> syncFile p k e = upsertFile p e.
Proof. by intros [->| ->]. Qed.

(** C2.  Two Create/Modify syncs of a path in a row, the content unchanged
    in between, the first one reaching the remote upsert and being answered:
    the first call sends that one upsert and records the digest of the file,
    the second call returns without a query and without changing anything.
    For [needsSync] is false exactly when a record exists for the path with
    that digest. *)
Theorem incremental_sync_is_idempotent e p k1 k2 :
  k1 = Create \/ k1 = Modify ->
  k2 = Create \/ k2 = Modify ->
  reachesUpsert p e ->
  nextQueryOk (db e) ->
  let e1 := snd (syncFile p k1 e) in
  fst (syncFile p k1 e) = Ok tt
  /\ calls (db e1) = calls (db e) ++ [(upsertCall p, true)]
  /\ (exists st, getFileState p (tracker e1) = Some (Own st)
                  /\ hash st = Some (localDigest p (fileContent (vault e) p)))
  /\ vault e1 = vault e
  /\ syncFile p k2 e1 = (Ok tt, e1)
  /\ (forall q digest tr,
        needsSync q digest tr = false
        <-> exists st, getFileState q tr = Some (Own st) /\ hash st = Some digest).
Proof.
  intros Hk1 Hk2 Hreach Hok. simpl.
  rewrite !syncFile_upsert by done.
  rewrite upsertFile_ok by done. simpl.
  destruct (afterUpsert_fields p e) as (Hv & Hs & _ & Hc & Hh).
  destruct Hreach as (Hfile & Hig & Hsize & Hn).
  repeat split; try done.
  - apply upsertFile_unchanged.
    + by rewrite Hv.
    + by rewrite Hv, Hs.
    + rewrite Hv. by apply needsSync_false.
  - by apply needsSync_false.
  - by apply needsSync_false.
Qed.

(** C4.  A Create/Modify event on a path whose sync reaches the remote
    upsert, the upsert throwing: [handleFileEvent] catches the exception and
    returns, the tracker is as it was (no record is written for the path),
    the remote tables are as they were, and the retry queue holds the path
    with the count 0. *)
Theorem failed_upsert_keeps_record_and_enqueues e p k ts :
  k = Create \/ k = Modify ->
  reachesUpsert p e ->
  nextQueryFails (db e) ->
  let r := handleFileEvent {| path := p; eventType := k; timestamp := ts |} e in
  isOk (fst (syncFile p k e)) = false
  /\ fst r = Ok tt
  /\ tracker (snd r) = tracker e
  /\ retryQueue (snd r) = JsMap.set p 0%nat (retryQueue e)
  /\ JsMap.get p (retryQueue (snd r)) = Some 0%nat
  /\ vault_notes (db (snd r)) = vault_notes (db e)
  /\ vault_attachments (db (snd r)) = vault_attachments (db e).
Proof.
  intros Hk Hreach Hfail.
  destruct (upsertFile_fails p e Hreach Hfail) as [m Hm].
  assert (Hb : (syncFile p k ;; updateStatus) e
               = (Throw m, withDb (afterFailedQuery (upsertCall p) (db e)) e)).
  { unfold bind. by rewrite syncFile_upsert, Hm. }
  cbv zeta. unfold handleFileEvent, tryCatch. cbn [path eventType].
  rewrite Hb, syncFile_upsert, Hm by done. simpl.
  repeat split; try done.
  - apply jsmap_get_set_eq.
  - unfold afterFailedQuery. by destruct (pool (db e)).
  - unfold afterFailedQuery. by destruct (pool (db e)).
Qed.

End IncrementalFacts.

(** The small world with an empty tracker: [a.md] is synced by the first
    call and skipped by the second. *)
Lemma incremental_sync_is_idempotent_witness :
  calls (db (snd (@syncFile demoHost "a.md" Modify demoEngine)))
  = [(UpsertNote "a.md", true)]
  /\ @syncFile demoHost "a.md" Modify (snd (@syncFile demoHost "a.md" Modify demoEngine))
     = (Ok tt, snd (@syncFile demoHost "a.md" Modify demoEngine)).
Proof.
  assert (Hreach : @reachesUpsert demoHost "a.md" demoEngine).
  { split; [by exists "alpha", 1%Z, 2%Z|]. split; [reflexivity|].
    split; [by left | reflexivity]. }
  assert (Hok : nextQueryOk (db demoEngine)) by (split; [reflexivity | discriminate]).
  destruct (@incremental_sync_is_idempotent demoHost demoEngine "a.md" Modify Modify
              (or_intror eq_refl) (or_intror eq_refl) Hreach Hok)
    as (_ & Hcalls & _ & _ & Hsecond & _).
  split; [exact Hcalls | exact Hsecond].
Defined.

(** The small world, the store failing the next query: the event on [a.md]
    leaves the tracker empty and enqueues the path. *)
Lemma failed_upsert_keeps_record_and_enqueues_witness :
  tracker (snd (@handleFileEvent demoHost
                  {| path := "a.md"; eventType := Create; timestamp := 0 |}
                  (demoEngineFailing [true])))
  = newStateTracker "notes"
  /\ retryQueue (snd (@handleFileEvent demoHost
                        {| path := "a.md"; eventType := Create; timestamp := 0 |}
                        (demoEngineFailing [true])))
     = [("a.md", 0%nat)].
Proof.
  assert (Hreach : @reachesUpsert demoHost "a.md" (demoEngineFailing [true])).
  { split; [by exists "alpha", 1%Z, 2%Z|]. split; [reflexivity|].
    split; [by left | reflexivity]. }
  assert (Hfail : nextQueryFails (db (demoEngineFailing [true]))) by (by right).
  destruct (@failed_upsert_keeps_record_and_enqueues demoHost (demoEngineFailing [true])
              "a.md" Create 0%Z (or_introl eq_refl) Hreach Hfail)
    as (_ & _ & Htr & Hq & _).
  split; [exact Htr | exact Hq].
Defined.

(** ** The retry loop *)

Lemma retryLog_app p e ls :
  List.filter (retryLineOf p) (console e ++ ls) = retryLog p e ++ List.filter (retryLineOf p) ls.
Proof. apply List.filter_app. Qed.

Lemma jsmap_keys_set_NoDup {V} k (v : V) m :
  List.NoDup (JsMap.keys m) -> List.NoDup (JsMap.keys (JsMap.set k v m)).
Proof.
  induction m as [|[k' v'] m IH]; simpl.
  - intros _. constructor; [intros [] | constructor].
  - intros Hnd. inversion Hnd as [|? ? Hnotin Hnd']; subst.
    destruct (decide (k = k')) as [->|Hne]; simpl; [by constructor|].
    constructor; [|by apply IH].
    intros Hin. apply jsmap_keys_set in Hin as [->|Hin]; done.
Qed.

Lemma jsmap_keys_delete_In {V} k k' (m : JsMap.t V) :
  In k' (JsMap.keys (JsMap.delete k m)) -> In k' (JsMap.keys m).
Proof.
  induction m as [|[k0 v0] m IH]; simpl; [done|].
  destruct (decide (k = k0)); simpl; [by right; apply IH|].
  intros [?|?]; [by left | right; by apply IH].
Qed.

Lemma jsmap_keys_delete_NoDup {V} k (m : JsMap.t V) :
  List.NoDup (JsMap.keys m) -> List.NoDup (JsMap.keys (JsMap.delete k m)).
Proof.
  induction m as [|[k' v'] m IH]; simpl; [done|].
  intros Hnd. inversion Hnd as [|? ? Hnotin Hnd']; subst.
  destruct (decide (k = k')); simpl; [by apply IH|].
  constructor; [|by apply IH]. intros Hin. by apply jsmap_keys_delete_In in Hin.
Qed.

Lemma retryFrame_refl p e : retryFrame p e e.
Proof. split; try done. exists []. by rewrite app_nil_r. Qed.

Lemma retryFrame_trans p e1 e2 e3 :
  retryFrame p e1 e2 -> retryFrame p e2 e3 -> retryFrame p e1 e3.
Proof.
  intros [] []. split; try congruence; auto.
  destruct rf_calls0 as (cs1 & Hc1 & Hf1). destruct rf_calls1 as (cs2 & Hc2 & Hf2).
  exists (cs1 ++ cs2). split; [by rewrite Hc2, Hc1, app_assoc | by apply Forall_app].
Qed.

Section RetryFacts.
Context `{Host}.

(** [upsertFile] leaves the vault, the settings and the retry queue alone,
    prints no retry line, and touches the remote store at its own path only,
    by upserts only. *)
Lemma upsertFile_effect q e :
  let e' := snd (upsertFile q e) in
  vault e' = vault e
  /\ settings e' = settings e
  /\ statusCallback e' = statusCallback e
  /\ retryQueue e' = retryQueue e
  /\ (forall p, retryLog p e' = retryLog p e)
  /\ (forall p, p <> q -> vault_notes (db e') !! p = vault_notes (db e) !! p)
  /\ (forall p, p <> q -> vault_attachments (db e') !! p = vault_attachments (db e) !! p)
  /\ (exists cs, calls (db e') = calls (db e) ++ cs
                 /\ Forall (fun c => fst c = upsertCall q) cs).
Proof.
  assert (Hnil : exists cs, calls (db e) = calls (db e) ++ cs
                            /\ Forall (fun c : RemoteCall * bool => fst c = upsertCall q) cs).
  { exists []. by rewrite app_nil_r. }
  destruct (upsertFile_cases q e) as [Hc|[Hc|[(_ & _ & Hc)|(_ & _ & m & Hc)]]];
    rewrite Hc; simpl.
  - repeat split; done.
  - repeat split; try done. intros p. unfold retryLog. simpl.
    rewrite List.filter_app. simpl. by rewrite app_nil_r.
  - unfold afterUpsert, upsertCall.
    destruct (bool_decide (extension q = "md")); simpl.
    + repeat split; try done.
      * intros p. unfold retryLog. simpl. rewrite List.filter_app. simpl. by rewrite app_nil_r.
      * intros p Hp. by rewrite lookup_insert_ne.
      * eexists. split; [done|]. by repeat constructor.
    + repeat split; try done.
      * intros p. unfold retryLog. simpl. rewrite List.filter_app. simpl. by rewrite app_nil_r.
      * intros p Hp. by rewrite lookup_insert_ne.
      * eexists. split; [done|]. by repeat constructor.
  - unfold afterFailedQuery. destruct (pool (db e)); simpl.
    + repeat split; try done. eexists. split; [done|]. by repeat constructor.
    + repeat split; done.
Qed.

Lemma upsertCall_facts q : isUpsertOrStatus (upsertCall q) = true /\ callPath (upsertCall q) = Some q.
Proof. unfold upsertCall. by destruct (bool_decide _). Qed.

(** The body of the loop, for the entry of a path. *)
Lemma retryEntry_run max q c e :
  retryEntry max (q, c) e =
    if (max <=? Z.of_nat c)%Z
    then (Ok tt, withRetryQueue (JsMap.delete q (retryQueue e))
                   (withConsole (console e ++ [MaxRetriesExceeded q]) e))
    else
      let es := withRetryQueue (JsMap.set q (c + 1)%nat (retryQueue e)) e in
      match upsertFile q es with
      | (Ok _, e1) =>
          (Ok tt, withConsole (console e1 ++ [RetrySucceeded q])
                    (withRetryQueue (JsMap.delete q (retryQueue e1)) e1))
      | (Throw _, e1) =>
          (Ok tt, withConsole (console e1 ++ [RetryFailed q (c + 1)]) e1)
      end.
Proof.
  unfold retryEntry. destruct (max <=? Z.of_nat c)%Z; [done|].
  unfold onRetryQueue. rewrite bind_modify. unfold tryCatch.
  unfold bind at 1. destruct (upsertFile q _) as [[[]|m] e1]; done.
Qed.

Lemma retryEntry_returns max entry e : fst (retryEntry max entry e) = Ok tt.
Proof.
  destruct entry as [q c]. rewrite retryEntry_run.
  destruct (max <=? Z.of_nat c)%Z; [done|]. simpl.
  by destruct (upsertFile q _) as [[[]|m] e1].
Qed.

Lemma retryEntry_other max q c p e :
  q <> p -> retryFrame p e (snd (retryEntry max (q, c) e)).
Proof.
  intros Hne. rewrite retryEntry_run.
  destruct (max <=? Z.of_nat c)%Z; simpl.
  { split; simpl; try done.
    - by apply jsmap_get_delete_ne.
    - apply jsmap_keys_delete_NoDup.
    - unfold retryLog. simpl. rewrite List.filter_app. simpl.
      rewrite bool_decide_eq_false_2 by done. by rewrite app_nil_r.
    - exists []. by rewrite app_nil_r. }
  set (es := withRetryQueue _ e).
  destruct (upsertFile_effect q es) as (Hv & Hs & Hcb & Hq & Hlog & Hn & Ha & cs & Hcs & Hall).
  assert (Hcalls : exists cs0, calls (db (snd (upsertFile q es))) = calls (db e) ++ cs0
            /\ Forall (fun c => isUpsertOrStatus (fst c) = true
                                /\ callPath (fst c) <> Some p) cs0).
  { exists cs. split; [done|]. eapply Forall_impl; [exact Hall|].
    intros x ->. destruct (upsertCall_facts q) as [-> ->]. split; [done | congruence]. }
  destruct (upsertFile q es) as [[[]|m] e1]; simpl in *.
  - split; simpl; try done; try congruence.
    + rewrite jsmap_get_delete_ne, Hq by done. unfold es. simpl. by apply jsmap_get_set_ne.
    + intros Hnd. apply jsmap_keys_delete_NoDup. rewrite Hq. unfold es. simpl.
      by apply jsmap_keys_set_NoDup.
    + unfold retryLog. simpl. rewrite List.filter_app. simpl.
      rewrite bool_decide_eq_false_2 by done. rewrite app_nil_r. apply Hlog.
    + by apply Hn.
    + by apply Ha.
  - split; simpl; try done; try congruence.
    + rewrite Hq. unfold es. simpl. by apply jsmap_get_set_ne.
    + intros Hnd. rewrite Hq. unfold es. simpl. by apply jsmap_keys_set_NoDup.
    + unfold retryLog. simpl. rewrite List.filter_app. simpl.
      rewrite bool_decide_eq_false_2 by done. rewrite app_nil_r. apply Hlog.
    + by apply Hn.
    + by apply Ha.
Qed.

Lemma forEach_retry_returns max l e : fst (forEach l (retryEntry max) e) = Ok tt.
Proof.
  revert e. induction l as [|x l IH]; intros e; simpl; [done|].
  unfold bind. pose proof (retryEntry_returns max x e) as Hr.
  destruct (retryEntry max x e) as [[[]|m] e1]; simpl in Hr; [apply IH | done].
Qed.

Lemma forEach_retry_cons max x l e :
  snd (forEach (x :: l) (retryEntry max) e)
  = snd (forEach l (retryEntry max) (snd (retryEntry max x e))).
Proof.
  simpl. unfold bind. pose proof (retryEntry_returns max x e) as Hr.
  destruct (retryEntry max x e) as [[[]|m] e1]; simpl in Hr; done.
Qed.

Lemma forEach_retry_app max l1 l2 e :
  snd (forEach (l1 ++ l2) (retryEntry max) e)
  = snd (forEach l2 (retryEntry max) (snd (forEach l1 (retryEntry max) e))).
Proof.
  revert e. induction l1 as [|x l1 IH]; intros e; [done|].
  rewrite <- app_comm_cons, !forEach_retry_cons. apply IH.
Qed.

Lemma forEach_retry_others max p l e :
  ~ In p (map fst l) -> retryFrame p e (snd (forEach l (retryEntry max) e)).
Proof.
  revert e. induction l as [|[q c] l IH]; intros e Hnotin.
  - apply retryFrame_refl.
  - rewrite forEach_retry_cons. simpl in Hnotin.
    eapply retryFrame_trans; [apply retryEntry_other | apply IH]; tauto.
Qed.

Lemma updateStatus_frame p e : retryFrame p e (snd (updateStatus e)).
Proof.
  unfold updateStatus. rewrite bind_gets.
  destruct (statusCallback e); [|apply retryFrame_refl].
  unfold tryCatch, bind, onDb, getStatus.
  destruct (pool (db e)) eqn:Hp; simpl.
  2:{ destruct e as [? [] ? ? ? ? ? ? ? ?]. simpl in *. subst. apply retryFrame_refl. }
  unfold query. destruct (faults (db e)) as [|[] fs]; simpl;
    (split; simpl; try done; eexists; split; [done|]; by repeat constructor).
Qed.

Lemma updateStatus_returns e : fst (updateStatus e) = Ok tt.
Proof.
  unfold updateStatus. rewrite bind_gets.
  destruct (statusCallback e); [|done].
  unfold tryCatch, bind. by destruct (onDb getStatus e) as [[?|?] ?].
Qed.

Lemma retryFailed_run e :
  retryFailed e
  = updateStatus (snd (forEach (JsMap.entries (retryQueue e))
                               (retryEntry (retryAttempts (settings e))) e)).
Proof.
  unfold retryFailed. rewrite !bind_gets. unfold bind.
  pose proof (forEach_retry_returns (retryAttempts (settings e))
                (JsMap.entries (retryQueue e)) e) as Hr.
  destruct (forEach _ _ e) as [[[]|m] e1]; simpl in Hr; done.
Qed.

Lemma snapshot_split p c (m : JsMap.t nat) :
  JsMap.get p m = Some c ->
  exists rest, m = entriesBefore p m ++ (p, c) :: rest
               /\ ~ In p (map fst (entriesBefore p m))
               /\ (List.NoDup (JsMap.keys m) -> ~ In p (map fst rest)).
Proof.
  induction m as [|[q cq] m IH]; simpl; [done|].
  destruct (decide (p = q)) as [->|Hne].
  - intros [= ->]. rewrite decide_True by done. exists m. simpl.
    split; [done|]. split; [tauto|]. intros Hnd. by inversion Hnd.
  - intros Hget. rewrite decide_False by done.
    destruct (IH Hget) as (rest & Hm & Hb & Hr). exists rest. simpl.
    split; [by rewrite <- Hm|]. split; [intros [?|?]; [done | tauto]|].
    intros Hnd. inversion Hnd. auto.
Qed.

(** A pass of [retryFailed] around the entry of a path: the entries before
    it, its own round of the loop, and the rest of the pass. *)
Lemma retryFailed_decompose p c e :
  List.NoDup (JsMap.keys (retryQueue e)) ->
  JsMap.get p (retryQueue e) = Some c ->
  exists eb,
    retryFrame p e eb
    /\ JsMap.get p (retryQueue eb) = Some c
    /\ attemptState p e = withRetryQueue (JsMap.set p (c + 1)%nat (retryQueue eb)) eb
    /\ retryFrame p (snd (retryEntry (retryAttempts (settings e)) (p, c) eb))
                    (snd (retryFailed e)).
Proof.
  intros Hnd Hget. rewrite retryFailed_run.
  set (max := retryAttempts (settings e)).
  destruct (snapshot_split p c _ Hget) as (rest & Hsplit & Hbefore & Hrest).
  specialize (Hrest Hnd).
  unfold attemptState. rewrite Hget. fold max.
  unfold JsMap.entries in *.
  set (before := entriesBefore p (retryQueue e)) in *.
  pose proof (forEach_retry_others max p before e Hbefore) as Fb.
  set (eb := snd (forEach before (retryEntry max) e)) in *.
  exists eb. split; [done|].
  split; [by rewrite (rf_queue _ _ _ Fb)|].
  split; [done|].
  assert (Hef : snd (forEach (retryQueue e) (retryEntry max) e)
                = snd (forEach rest (retryEntry max) (snd (retryEntry max (p, c) eb)))).
  { rewrite Hsplit at 1. by rewrite forEach_retry_app, forEach_retry_cons. }
  rewrite Hef.
  eapply retryFrame_trans; [by apply forEach_retry_others | apply updateStatus_frame].
Qed.

(** A pass of [retryFailed], seen from one entry of the queue. *)
Lemma retryFailed_entry p c e :
  List.NoDup (JsMap.keys (retryQueue e)) ->
  JsMap.get p (retryQueue e) = Some c ->
  let e' := snd (retryFailed e) in
  List.NoDup (JsMap.keys (retryQueue e'))
  /\ vault e' = vault e /\ settings e' = settings e
  /\ (if (retryAttempts (settings e) <=? Z.of_nat c)%Z
      then JsMap.get p (retryQueue e') = None
           /\ retryLog p e' = retryLog p e ++ [MaxRetriesExceeded p]
           /\ vault_notes (db e') !! p = vault_notes (db e) !! p
           /\ vault_attachments (db e') !! p = vault_attachments (db e) !! p
      else if isOk (fst (upsertFile p (attemptState p e)))
           then JsMap.get p (retryQueue e') = None
                /\ retryLog p e' = retryLog p e ++ [RetrySucceeded p]
           else JsMap.get p (retryQueue e') = Some (c + 1)%nat
                /\ retryLog p e' = retryLog p e ++ [RetryFailed p (c + 1)]
                /\ vault_notes (db e') !! p = vault_notes (db e) !! p
                /\ vault_attachments (db e') !! p = vault_attachments (db e) !! p).
Proof.
  intros Hnd Hget. cbv zeta.
  destruct (retryFailed_decompose p c e Hnd Hget) as (eb & Fb & Hgb & Hatt & Hafter).
  rewrite Hatt. clear Hatt.
  set (max := retryAttempts (settings e)) in *.
  rewrite retryEntry_run in Hafter.
  destruct (max <=? Z.of_nat c)%Z.
  - set (ep := withRetryQueue _ _) in Hafter.
    split.
    { apply (rf_nodup _ _ _ Hafter). unfold ep. simpl. apply jsmap_keys_delete_NoDup.
      by apply (rf_nodup _ _ _ Fb). }
    split; [rewrite (rf_vault _ _ _ Hafter); apply Fb|].
    split; [rewrite (rf_settings _ _ _ Hafter); apply Fb|].
    split; [rewrite (rf_queue _ _ _ Hafter); apply jsmap_get_delete_eq|].
    split.
    { rewrite (rf_log _ _ _ Hafter). unfold ep, retryLog. simpl.
      rewrite List.filter_app. simpl. rewrite bool_decide_eq_true_2 by done.
      f_equal. apply Fb. }
    split; [rewrite (rf_notes _ _ _ Hafter); apply Fb|].
    rewrite (rf_attachments _ _ _ Hafter); apply Fb.
  - cbv zeta in Hafter.
    set (es := withRetryQueue (JsMap.set p (c + 1)%nat (retryQueue eb)) eb) in *.
    destruct (upsertFile_effect p es) as (Hv & Hs & Hcb & Hq & Hlog & Hn & Ha & _).
    pose proof (upsertFile_cases p es) as Hcases.
    destruct (upsertFile p es) as [[[]|m] e1] eqn:Hup; simpl in *.
    + set (ep := withConsole _ _) in Hafter.
      split.
      { apply (rf_nodup _ _ _ Hafter). unfold ep. simpl. apply jsmap_keys_delete_NoDup.
        rewrite Hq. unfold es. simpl. apply jsmap_keys_set_NoDup, (rf_nodup _ _ _ Fb), Hnd. }
      split; [rewrite (rf_vault _ _ _ Hafter); unfold ep; simpl; rewrite Hv; apply Fb|].
      split; [rewrite (rf_settings _ _ _ Hafter); unfold ep; simpl; rewrite Hs; apply Fb|].
      split; [rewrite (rf_queue _ _ _ Hafter); apply jsmap_get_delete_eq|].
      rewrite (rf_log _ _ _ Hafter). unfold ep, retryLog. simpl.
      rewrite List.filter_app. simpl. rewrite bool_decide_eq_true_2 by done.
      f_equal. fold (retryLog p e1). rewrite Hlog. apply Fb.
    + set (ep := withConsole _ _) in Hafter.
      split.
      { apply (rf_nodup _ _ _ Hafter). unfold ep. simpl.
        rewrite Hq. unfold es. simpl. apply jsmap_keys_set_NoDup, (rf_nodup _ _ _ Fb), Hnd. }
      split; [rewrite (rf_vault _ _ _ Hafter); unfold ep; simpl; rewrite Hv; apply Fb|].
      split; [rewrite (rf_settings _ _ _ Hafter); unfold ep; simpl; rewrite Hs; apply Fb|].
      split.
      { rewrite (rf_queue _ _ _ Hafter). unfold ep. simpl. rewrite Hq. unfold es. simpl.
        apply jsmap_get_set_eq. }
      split.
      { rewrite (rf_log _ _ _ Hafter). unfold ep, retryLog. simpl.
        rewrite List.filter_app. simpl. rewrite bool_decide_eq_true_2 by done.
        f_equal. fold (retryLog p e1). rewrite Hlog. apply Fb. }
      (* a failed upsert leaves the tables as they were *)
      destruct Hcases as [Hc|[Hc|[(_ & _ & Hc)|(_ & _ & m' & Hc)]]]; try discriminate.
      injection Hc as _ ->.
      rewrite (rf_notes _ _ _ Hafter), (rf_attachments _ _ _ Hafter). unfold ep. simpl.
      unfold afterFailedQuery. destruct (pool (db eb)); simpl; split; apply Fb.
Qed.

(** A path that is not in the queue is not retried. *)
Lemma retryFailed_absent p e :
  JsMap.get p (retryQueue e) = None -> retryFrame p e (snd (retryFailed e)).
Proof.
  intros Hget. rewrite retryFailed_run.
  eapply retryFrame_trans; [|apply updateStatus_frame].
  apply forEach_retry_others. by apply jsmap_get_None_keys.
Qed.

End RetryFacts.

Section RetryClaims.
Context `{Host}.

Lemma retryPasses_add k n e : retryPasses (k + n) e = retryPasses n (retryPasses k e).
Proof. revert e. induction k as [|k IH]; intros e; simpl; [done | apply IH]. Qed.

Lemma retryPasses_S k e : retryPasses (S k) e = snd (retryFailed (retryPasses k e)).
Proof.
  replace (S k) with (k + 1)%nat by lia. by rewrite retryPasses_add.
Qed.

Lemma retryPasses_absent p n e :
  JsMap.get p (retryQueue e) = None ->
  JsMap.get p (retryQueue (retryPasses n e)) = None
  /\ retryLog p (retryPasses n e) = retryLog p e.
Proof.
  revert e. induction n as [|n IH]; intros e Hget; [done|]. simpl.
  pose proof (retryFailed_absent p e Hget) as F.
  destruct (IH (snd (retryFailed e))) as [Hq Hl].
  { by rewrite (rf_queue _ _ _ F). }
  split; [done|]. rewrite Hl. apply F.
Qed.

(** C5.  A pass of [retryFailed], for an entry of the queue: an entry whose
    count has reached the ceiling is dropped, with the line that says so and
    without a sync of its path; the count of any other entry is raised by
    one, the upsert path is run for its file, and the entry is removed when
    that returns and kept, with the raised count, when it throws.  A path
    that is not in the queue is not touched.  Hence, with a ceiling of 3, a
    path whose retry fails in three passes in a row stays in the queue with
    the count 3 after the third failure, is dropped from it by the pass that
    follows, which does not retry it, and is left alone by every later
    pass. *)
Theorem retry_ceiling_drops_and_stops :
  (forall e p c,
      List.NoDup (JsMap.keys (retryQueue e)) ->
      JsMap.get p (retryQueue e) = Some c ->
      let e' := snd (retryFailed e) in
      if (retryAttempts (settings e) <=? Z.of_nat c)%Z
      then JsMap.get p (retryQueue e') = None
           /\ retryLog p e' = retryLog p e ++ [MaxRetriesExceeded p]
      else if isOk (fst (upsertFile p (attemptState p e)))
           then JsMap.get p (retryQueue e') = None
                /\ retryLog p e' = retryLog p e ++ [RetrySucceeded p]
           else JsMap.get p (retryQueue e') = Some (c + 1)%nat
                /\ retryLog p e' = retryLog p e ++ [RetryFailed p (c + 1)])
  /\ (forall e p n,
        JsMap.get p (retryQueue e) = None ->
        JsMap.get p (retryQueue (retryPasses n e)) = None
        /\ retryLog p (retryPasses n e) = retryLog p e)
  /\ (forall e p,
        retryAttempts (settings e) = 3%Z ->
        List.NoDup (JsMap.keys (retryQueue e)) ->
        JsMap.get p (retryQueue e) = Some 0%nat ->
        retryFails p e ->
        retryFails p (retryPasses 1 e) ->
        retryFails p (retryPasses 2 e) ->
        JsMap.get p (retryQueue (retryPasses 3 e)) = Some 3%nat
        /\ retryLog p (retryPasses 3 e)
           = retryLog p e ++ [RetryFailed p 1; RetryFailed p 2; RetryFailed p 3]
        /\ JsMap.get p (retryQueue (retryPasses 4 e)) = None
        /\ retryLog p (retryPasses 4 e) = retryLog p (retryPasses 3 e) ++ [MaxRetriesExceeded p]
        /\ (forall n, JsMap.get p (retryQueue (retryPasses (4 + n) e)) = None
                      /\ retryLog p (retryPasses (4 + n) e) = retryLog p (retryPasses 4 e))).
Proof.
  split.
  { intros e p c Hnd Hget. cbv zeta.
    destruct (retryFailed_entry p c e Hnd Hget) as (_ & _ & _ & Hcase).
    destruct (_ <=? _)%Z; [tauto|]. destruct (isOk _); tauto. }
  split; [intros e p n; apply retryPasses_absent|].
  intros e p Hmax Hnd Hget Hf1 Hf2 Hf3.
  (* the three failing passes *)
  assert (Hstep : forall e0 c,
            retryAttempts (settings e0) = 3%Z -> (c < 3)%nat ->
            List.NoDup (JsMap.keys (retryQueue e0)) ->
            JsMap.get p (retryQueue e0) = Some c ->
            retryFails p e0 ->
            retryAttempts (settings (snd (retryFailed e0))) = 3%Z
            /\ List.NoDup (JsMap.keys (retryQueue (snd (retryFailed e0))))
            /\ JsMap.get p (retryQueue (snd (retryFailed e0))) = Some (c + 1)%nat
            /\ retryLog p (snd (retryFailed e0)) = retryLog p e0 ++ [RetryFailed p (c + 1)]).
  { intros e0 c Hm Hc Hnd0 Hg0 Hf0.
    destruct (retryFailed_entry p c e0 Hnd0 Hg0) as (Hnd' & _ & Hs' & Hcase).
    rewrite Hm in Hcase. rewrite (proj2 (Z.leb_gt 3 (Z.of_nat c))) in Hcase by lia.
    unfold retryFails in Hf0. rewrite Hf0 in Hcase.
    split; [congruence|]. split; [done|]. tauto. }
  destruct (Hstep e 0%nat Hmax ltac:(lia) Hnd Hget Hf1) as (Hm1 & Hnd1 & Hg1 & Hl1).
  change (snd (retryFailed e)) with (retryPasses 1 e) in Hm1, Hnd1, Hg1, Hl1.
  destruct (Hstep _ 1%nat Hm1 ltac:(lia) Hnd1 Hg1 Hf2) as (Hm2 & Hnd2 & Hg2 & Hl2).
  change (snd (retryFailed (retryPasses 1 e))) with (retryPasses 2 e) in Hm2, Hnd2, Hg2, Hl2.
  destruct (Hstep _ 2%nat Hm2 ltac:(lia) Hnd2 Hg2 Hf3) as (Hm3 & Hnd3 & Hg3 & Hl3).
  change (snd (retryFailed (retryPasses 2 e))) with (retryPasses 3 e) in Hm3, Hnd3, Hg3, Hl3.
  (* the pass that drops the entry *)
  destruct (retryFailed_entry p 3%nat _ Hnd3 Hg3) as (_ & _ & _ & Hcase).
  rewrite Hm3 in Hcase. simpl in Hcase. destruct Hcase as (Hg4 & Hl4 & _).
  change (snd (retryFailed (retryPasses 3 e))) with (retryPasses 4 e) in Hg4, Hl4.
  split; [done|].
  split; [by rewrite Hl3, Hl2, Hl1, <- !app_assoc|].
  split; [done|]. split; [done|].
  intros n. rewrite retryPasses_add. by apply retryPasses_absent.
Qed.

Lemma sendsOnly_refl ok e : sendsOnly ok e e.
Proof. exists []. by rewrite app_nil_r. Qed.

Lemma sendsOnly_trans ok e1 e2 e3 :
  sendsOnly ok e1 e2 -> sendsOnly ok e2 e3 -> sendsOnly ok e1 e3.
Proof.
  intros (cs1 & H1 & F1) (cs2 & H2 & F2). exists (cs1 ++ cs2).
  split; [by rewrite H2, H1, app_assoc | by apply Forall_app].
Qed.

Lemma retryEntry_sends max x e :
  sendsOnly (fun c => isUpsertOrStatus c = true) e (snd (retryEntry max x e)).
Proof.
  destruct x as [q c]. rewrite retryEntry_run.
  destruct (_ <=? _)%Z; simpl; [exists []; simpl; by rewrite app_nil_r|].
  set (es := withRetryQueue _ e).
  destruct (upsertFile_effect q es) as (_ & _ & _ & _ & _ & _ & _ & cs & Hcs & Hall).
  assert (Hs : sendsOnly (fun c => isUpsertOrStatus c = true) e (snd (upsertFile q es))).
  { exists cs. split; [done|]. eapply Forall_impl; [exact Hall|].
    intros x ->. apply upsertCall_facts. }
  destruct (upsertFile q es) as [[[]|m] e1]; exact Hs.
Qed.

Lemma retryFailed_sends e :
  sendsOnly (fun c => isUpsertOrStatus c = true) e (snd (retryFailed e)).
Proof.
  rewrite retryFailed_run.
  set (max := retryAttempts (settings e)). generalize (JsMap.entries (retryQueue e)).
  intros l.
  eapply sendsOnly_trans.
  - instantiate (1 := snd (forEach l (retryEntry max) e)).
    generalize e. induction l as [|x l IH]; intros e0; [apply sendsOnly_refl|].
    rewrite forEach_retry_cons. eapply sendsOnly_trans; [apply retryEntry_sends | apply IH].
  - destruct (updateStatus_frame EmptyString (snd (forEach l (retryEntry max) e)))
      as [_ _ _ _ _ _ _ _ (cs & Hcs & Hall)].
    exists cs. split; [done|]. eapply Forall_impl; [exact Hall|]. by intros x [? _].
Qed.

Lemma removeFile_fails p e :
  nextQueryFails (db e) ->
  exists m c, (c = DeleteNote p \/ c = DeleteAttachment p)
              /\ removeFile p e = (Throw m, withDb (afterFailedQuery c (db e)) e).
Proof.
  intros Hfail. unfold removeFile, afterFailedQuery.
  destruct (endsWith p ".md").
  - exists (if pool (db e) then "query failed" else "Database not connected"), (DeleteNote p).
    split; [by left|].
    unfold bind, onDb, deleteNote. destruct (pool (db e)) eqn:Hp; simpl; [|done].
    destruct Hfail as [?|Hf]; [congruence|]. rewrite query_fails by done. by rewrite Hp.
  - exists (if pool (db e) then "query failed" else "Database not connected"),
           (DeleteAttachment p).
    split; [by right|].
    unfold bind, onDb, deleteAttachment. destruct (pool (db e)) eqn:Hp; simpl; [|done].
    destruct Hfail as [?|Hf]; [congruence|]. rewrite query_fails by done. by rewrite Hp.
Qed.

(** C9.  A Delete event whose remote delete throws leaves the path in the
    retry queue with the count 0, the remote tables as they were.  A pass of
    [retryFailed] that gets to such an entry below the ceiling, the file
    being gone locally, runs the upsert path, which finds no file and
    returns: the entry is removed as a success, no query about the path is
    sent, and the remote record of the path is as it was.  No pass of
    [retryFailed] ever sends a query other than an upsert or the reading of
    the status. *)
Theorem retry_never_runs_the_delete_path :
  (forall e p ts,
      nextQueryFails (db e) ->
      let r := handleFileEvent {| path := p; eventType := Delete; timestamp := ts |} e in
      fst r = Ok tt
      /\ JsMap.get p (retryQueue (snd r)) = Some 0%nat
      /\ vault_notes (db (snd r)) = vault_notes (db e)
      /\ vault_attachments (db (snd r)) = vault_attachments (db e))
  /\ (forall e p c,
        List.NoDup (JsMap.keys (retryQueue e)) ->
        JsMap.get p (retryQueue e) = Some c ->
        (Z.of_nat c < retryAttempts (settings e))%Z ->
        vault e !! p = None ->
        let e' := snd (retryFailed e) in
        upsertFile p (attemptState p e) = (Ok tt, attemptState p e)
        /\ JsMap.get p (retryQueue e') = None
        /\ retryLog p e' = retryLog p e ++ [RetrySucceeded p]
        /\ vault_notes (db e') !! p = vault_notes (db e) !! p
        /\ vault_attachments (db e') !! p = vault_attachments (db e) !! p
        /\ sendsOnly (fun q => callPath q <> Some p) e e')
  /\ (forall e, sendsOnly (fun q => isUpsertOrStatus q = true) e (snd (retryFailed e))).
Proof.
  split.
  { intros e p ts Hfail. cbv zeta.
    destruct (removeFile_fails p e Hfail) as (m & c & _ & Hm).
    unfold handleFileEvent, tryCatch. cbn [path eventType].
    assert (Hb : (syncFile p Delete ;; updateStatus) e
                 = (Throw m, withDb (afterFailedQuery c (db e)) e)).
    { unfold bind. simpl. by rewrite Hm. }
    rewrite Hb. simpl.
    split; [done|]. split; [apply jsmap_get_set_eq|].
    unfold afterFailedQuery. by destruct (pool (db e)). }
  split; [|apply retryFailed_sends].
  intros e p c Hnd Hget Hc Hnone. cbv zeta.
  destruct (retryFailed_decompose p c e Hnd Hget) as (eb & Fb & Hgb & Hatt & Hafter).
  rewrite Hatt.
  set (es := withRetryQueue (JsMap.set p (c + 1)%nat (retryQueue eb)) eb) in *.
  assert (Hup : upsertFile p es = (Ok tt, es)).
  { unfold upsertFile. rewrite bind_gets. unfold es. simpl.
    by rewrite (rf_vault _ _ _ Fb), Hnone. }
  split; [done|].
  rewrite retryEntry_run in Hafter.
  rewrite (proj2 (Z.leb_gt _ _)) in Hafter by lia. cbv zeta in Hafter.
  fold es in Hafter. rewrite Hup in Hafter.
  set (ep := withConsole _ _) in Hafter.
  split; [rewrite (rf_queue _ _ _ Hafter); apply jsmap_get_delete_eq|].
  split.
  { rewrite (rf_log _ _ _ Hafter). unfold ep, retryLog. simpl.
    rewrite List.filter_app. simpl. rewrite bool_decide_eq_true_2 by done.
    f_equal. apply Fb. }
  split; [rewrite (rf_notes _ _ _ Hafter); apply Fb|].
  split; [rewrite (rf_attachments _ _ _ Hafter); apply Fb|].
  destruct (rf_calls _ _ _ Fb) as (cs1 & Hc1 & Hall1).
  destruct (rf_calls _ _ _ Hafter) as (cs2 & Hc2 & Hall2).
  exists (cs1 ++ cs2). split.
  - rewrite Hc2. unfold ep. simpl. by rewrite Hc1, app_assoc.
  - apply Forall_app. split; (eapply Forall_impl; [eassumption|]); by intros x [_ ?].
Qed.

End RetryClaims.

(** The edit of [a.md] that failed, then three passes that fail and a
    fourth. *)
Lemma retry_ceiling_drops_and_stops_witness :
  JsMap.get "a.md" (retryQueue (@retryPasses demoHost 3 demoRetryEngine)) = Some 3%nat
  /\ JsMap.get "a.md" (retryQueue (@retryPasses demoHost 4 demoRetryEngine)) = None
  /\ retryLog "a.md" (@retryPasses demoHost 4 demoRetryEngine)
     = [RetryFailed "a.md" 1; RetryFailed "a.md" 2; RetryFailed "a.md" 3;
        MaxRetriesExceeded "a.md"].
Proof.
  destruct (@retry_ceiling_drops_and_stops demoHost) as (_ & _ & Hscenario).
  destruct (Hscenario demoRetryEngine "a.md") as (H3 & Hl3 & H4 & Hl4 & _).
  - reflexivity.
  - vm_compute. repeat constructor. intros [].
  - reflexivity.
  - vm_compute. reflexivity.
  - vm_compute. reflexivity.
  - vm_compute. reflexivity.
  - split; [exact H3|]. split; [exact H4|]. rewrite Hl4, Hl3. reflexivity.
Defined.

(** The deletion of [old.md] that failed, then a pass of retries: the entry
    goes and the remote note stays. *)
Lemma retry_never_runs_the_delete_path_witness :
  JsMap.get "old.md" (retryQueue demoDeleteEngine) = Some 0%nat
  /\ JsMap.get "old.md" (retryQueue (snd (@retryFailed demoHost demoDeleteEngine))) = None
  /\ note_path <$> vault_notes (db (snd (@retryFailed demoHost demoDeleteEngine))) !! "old.md"
     = Some "old.md".
Proof.
  destruct (@retry_never_runs_the_delete_path demoHost) as (_ & Hretry & _).
  destruct (Hretry demoDeleteEngine "old.md" 0%nat) as (_ & Hq & _ & Hn & _).
  - vm_compute. repeat constructor. intros [].
  - reflexivity.
  - vm_compute. reflexivity.
  - reflexivity.
  - split; [reflexivity|]. split; [exact Hq|]. rewrite Hn. reflexivity.
Defined.

(* ================================================================== *)
(** ** [pullFromDB]: what it writes and what it leaves *)

Lemma bind_run {A B} (c : M A) (k : A -> M B) e :
  bind c k e = match c e with
               | (Ok a, e') => k a e'
               | (Throw m, e') => (Throw m, e')
               end.
Proof. reflexivity. Qed.

Lemma onDb_run {A} (c : DbM A) e :
  onDb c e = (fst (c (db e)), withDb (snd (c (db e))) e).
Proof. unfold onDb. by destruct (c (db e)). Qed.

Lemma pullFrame_refl W e : pullFrame W e e.
Proof.
  split.
  - intros q x Hq. by exists x.
  - auto.
  - auto.
  - exists []. split; [by rewrite app_nil_r | constructor].
Qed.

Lemma pullFrame_trans W1 W2 W e e1 e2 :
  pullFrame W1 e e1 -> pullFrame W2 e1 e2 ->
  (forall x, W1 x -> W x) -> (forall x, W2 x -> W x) ->
  pullFrame W e e2.
Proof.
  intros [k1 s1 f1 (ws1 & Hw1 & Ha1)] [k2 s2 f2 (ws2 & Hw2 & Ha2)] H1 H2.
  split.
  - intros q x Hq. destruct (k1 q x Hq) as (x1 & Hq1 & Hf1).
    destruct (k2 q x1 Hq1) as (x2 & Hq2 & Hf2). exists x2. split; [done | congruence].
  - intros q x Hn1 Hn2 Hq. apply s2; [intros ?; apply Hn1; auto | intros ?; apply Hn2; auto |].
    apply s1; [intros ?; apply Hn1; auto | intros ?; apply Hn2; auto | done].
  - intros q c ct mt Hq.
    destruct (f2 q c ct mt Hq) as [Hq1 | [?|?]]; [| right; left; auto | right; right; auto].
    destruct (f1 q c ct mt Hq1) as [? | [?|?]]; auto.
  - exists (ws1 ++ ws2). split; [by rewrite Hw2, Hw1, app_assoc |].
    apply Forall_app. split.
    + eapply Forall_impl; [exact Ha1|]. intros w [?|?]; auto.
    + eapply Forall_impl; [exact Ha2|]. intros w [?|(q & -> & Hq)]; [auto|].
      right. exists q. split; [done|]. destruct (vault e !! q) eqn:E; [|done].
      destruct (k1 q _ E) as (x1 & Hq1 & _). congruence.
Qed.

(** Two states with the same tree and the same record of writes are the same
    to a frame. *)
Lemma pullFrame_tree_l W e0 e e' :
  vault e0 = vault e -> localWrites e0 = localWrites e ->
  pullFrame W e0 e' -> pullFrame W e e'.
Proof.
  intros Hv Hl [k s f w]. split.
  - intros q x. rewrite <- Hv. apply k.
  - intros q x. rewrite <- Hv. apply s.
  - intros q c ct mt. rewrite <- Hv. apply f.
  - rewrite <- Hl. destruct w as (ws & Hw & Ha). exists ws. split; [done|].
    eapply Forall_impl; [exact Ha|]. intros x [?|(q & ? & ?)]; [auto|].
    right. exists q. by rewrite <- Hv.
Qed.

Lemma pullFrame_tree_r W e e' e'' :
  vault e'' = vault e' -> localWrites e'' = localWrites e' ->
  pullFrame W e e' -> pullFrame W e e''.
Proof.
  intros Hv Hl [k s f w]. split.
  - intros q x. rewrite Hv. apply k.
  - intros q x. rewrite Hv. apply s.
  - intros q c ct mt. rewrite Hv. apply f.
  - by rewrite Hl.
Qed.

Lemma pullFrame_weaken (W1 W : LocalWrite -> Prop) e e' :
  (forall x, W1 x -> W x) -> pullFrame W1 e e' -> pullFrame W e e'.
Proof.
  intros Hsub F. eapply pullFrame_trans; [exact F | apply (pullFrame_refl W1) | done | done].
Qed.

Lemma adapterWrite_frame w p data e :
  w = WriteText p \/ w = WriteBinary p ->
  pullFrame (fun x => x = w) e (snd (adapterWrite w p data e)).
Proof.
  intros Hw. unfold adapterWrite.
  destruct (negb (nonEmpty p)); [apply pullFrame_refl|].
  destruct (belowFile (vault e) p); [apply pullFrame_refl|].
  destruct (vault e !! p) as [[c ct mt|]|] eqn:E; simpl; [| apply pullFrame_refl |].
  - split; simpl.
    + intros q x Hq. destruct (decide (q = p)) as [->|Hne].
      * rewrite lookup_insert_eq. eexists. split; [done|].
        rewrite E in Hq. by injection Hq as <-.
      * rewrite lookup_insert_ne by done. by exists x.
    + intros q x Hn1 Hn2 Hq. rewrite lookup_insert_ne; [done|].
      intros <-. destruct Hw as [->| ->]; [by apply Hn1 | by apply Hn2].
    + intros q c' ct' mt' Hq. destruct (decide (q = p)) as [->|Hne].
      * right. destruct Hw as [->| ->]; auto.
      * rewrite lookup_insert_ne in Hq by done. auto.
    + exists [w]. split; [done|]. constructor; [by left | constructor].
  - split; simpl.
    + intros q x Hq. destruct (decide (q = p)) as [->|Hne]; [congruence|].
      rewrite lookup_insert_ne by done. by exists x.
    + intros q x Hn1 Hn2 Hq. rewrite lookup_insert_ne; [done|].
      intros <-. destruct Hw as [->| ->]; [by apply Hn1 | by apply Hn2].
    + intros q c' ct' mt' Hq. destruct (decide (q = p)) as [->|Hne].
      * right. destruct Hw as [->| ->]; auto.
      * rewrite lookup_insert_ne in Hq by done. auto.
    + exists [w]. split; [done|]. constructor; [by left | constructor].
Qed.

Lemma localMatches_dec digest p h v :
  localMatches digest p h v \/ ~ localMatches digest p h v.
Proof.
  unfold localMatches.
  destruct (v !! p) as [[c ct mt|]|] eqn:E.
  - destruct (decide (digest c = h)) as [Hd|Hd].
    + left. by exists c, ct, mt.
    + right. intros (c' & ct' & mt' & Hv & Hd'). congruence.
  - right. intros (c' & ct' & mt' & Hv & _). congruence.
  - right. intros (c' & ct' & mt' & Hv & _). congruence.
Qed.

Section PullFacts.
Context `{Host}.

Lemma ensureFolder_frame W dir e : pullFrame W e (snd (ensureFolder dir e)).
Proof.
  unfold ensureFolder. rewrite bind_gets.
  destruct (vault e !! normalizePath dir) eqn:E; [apply pullFrame_refl|].
  unfold createFolder.
  destruct (belowFile (vault e) (normalizePath dir)); [apply pullFrame_refl|].
  rewrite E. simpl.
  split; simpl.
  - intros q x Hq. exists x. rewrite lookup_insert_ne; [done|]. congruence.
  - intros q x _ _ Hq. rewrite lookup_insert_ne; [done|]. congruence.
  - intros q c ct mt Hq. left. destruct (decide (q = normalizePath dir)) as [->|Hne].
    + by rewrite lookup_insert_eq in Hq.
    + by rewrite lookup_insert_ne in Hq.
  - exists [CreateFolder (normalizePath dir)]. split; [done|].
    constructor; [|constructor]. right. eauto.
Qed.

(** One round writes its object only, and only when the local file does not
    match. *)
Lemma pullOne_frame w digest p h data e :
  w = WriteText p \/ w = WriteBinary p ->
  pullFrame (fun x => x = w /\ ~ localMatches digest p h (vault e))
            e (snd (pullOne w digest p h data e)).
Proof.
  intros Hw. unfold pullOne. rewrite bind_gets.
  match goal with |- pullFrame _ _ (snd (bind _ ?k0 _)) => set (k := k0) end.
  assert (Hk : ~ localMatches digest p h (vault e) ->
               pullFrame (fun x => x = w /\ ~ localMatches digest p h (vault e))
                         e (snd (k false e))).
  { intros Hn. subst k. cbv beta iota. rewrite bind_run.
    assert (F1 : pullFrame (fun _ : LocalWrite => False) e
                   (snd ((if nonEmpty (parentDir p)
                          then ensureFolder (parentDir p) else ret tt) e))).
    { destruct (nonEmpty _); [apply ensureFolder_frame | apply pullFrame_refl]. }
    destruct ((if nonEmpty (parentDir p) then ensureFolder (parentDir p) else ret tt) e)
      as [[[]|m] e1]; simpl in F1 |- *.
    2: { eapply pullFrame_weaken; [|exact F1]. tauto. }
    rewrite bind_run.
    pose proof (adapterWrite_frame w p data e1 Hw) as F2.
    destruct (adapterWrite w p data e1) as [[[]|m] e2]; simpl in *;
      (eapply pullFrame_trans; [exact F1 | exact F2 | tauto | intros x ->; by split]). }
  destruct (vault e !! p) as [[c ct mt|]|] eqn:E.
  - assert (Hr : bind (vaultRead p)
                   (fun content => ret (bool_decide (digest content = h))) e
                 = (Ok (bool_decide (digest c = h)), e)).
    { unfold bind, vaultRead. by rewrite E. }
    rewrite bind_run, Hr.
    destruct (bool_decide (digest c = h)) eqn:Hd.
    + subst k. simpl. apply pullFrame_refl.
    + apply Hk. intros (c' & ct' & mt' & Hv & Hd').
      apply bool_decide_eq_false in Hd. congruence.
  - rewrite bind_ret. apply Hk. intros (c' & ct' & mt' & Hv & _). congruence.
  - rewrite bind_ret. apply Hk. intros (c' & ct' & mt' & Hv & _). congruence.
Qed.

(** A loop over objects of distinct paths writes those of its objects that
    the tree it started from does not match. *)
Lemma pullEach_frame {A} (pull : A -> M bool) (mk : string -> LocalWrite)
    (digest : string -> string) (pathOf hashOf : A -> string) :
  (forall q, mk q = WriteText q) \/ (forall q, mk q = WriteBinary q) ->
  (forall a e,
     pullFrame (fun x => x = mk (pathOf a)
                         /\ ~ localMatches digest (pathOf a) (hashOf a) (vault e))
               e (snd (pull a e))) ->
  forall items pulled e,
    List.NoDup (map pathOf items) ->
    pullFrame (fun x => exists a, In a items /\ x = mk (pathOf a)
                         /\ ~ localMatches digest (pathOf a) (hashOf a) (vault e))
              e (snd (pullEach pull items pulled e)).
Proof.
  intros Hmk Hpull items. induction items as [|a rest IH]; intros pulled e Hnd.
  - apply pullFrame_refl.
  - simpl. rewrite bind_run. pose proof (Hpull a e) as F1.
    inversion Hnd as [|? ? Hnotin Hnd']; subst.
    destruct (pull a e) as [[written|m] e1]; simpl in F1 |- *.
    + eapply pullFrame_trans; [exact F1 | apply (IH _ e1 Hnd') | |].
      * intros x [-> Hn]. exists a. split; [by left | done].
      * intros x (a' & Hin & -> & Hn). exists a'. split; [by right|]. split; [done|].
        intros (c & ct & mt & Hv & Hd). apply Hn. exists c, ct, mt. split; [|done].
        assert (Hne : pathOf a' <> pathOf a).
        { intros Heq. apply Hnotin. rewrite <- Heq. by apply in_map. }
        apply (pf_same _ _ _ F1); [| |done].
        -- intros [Heq _]. destruct Hmk as [Hm|Hm]; rewrite Hm in Heq; congruence.
        -- intros [Heq _]. destruct Hmk as [Hm|Hm]; rewrite Hm in Heq; congruence.
    + eapply pullFrame_weaken; [|exact F1].
      intros x [-> Hn]. exists a. split; [by left | done].
Qed.

Lemma pullNote_frame n e :
  pullFrame (fun x => x = WriteText (note_path n)
                      /\ ~ localMatches hashContent (note_path n) (note_contentHash n) (vault e))
            e (snd (pullNote n e)).
Proof. apply pullOne_frame. by left. Qed.

Lemma pullAttachment_frame a e :
  pullFrame (fun x => x = WriteBinary (att_path a)
                      /\ ~ localMatches hashArrayBuffer (att_path a) (att_contentHash a) (vault e))
            e (snd (pullAttachment a e)).
Proof. apply pullOne_frame. by right. Qed.

Lemma getAllNotes_run d :
  vault_notes (snd (getAllNotes d)) = vault_notes d
  /\ vault_attachments (snd (getAllNotes d)) = vault_attachments d
  /\ forall notes, fst (getAllNotes d) = Ok notes ->
       notes = map rowNote (map_to_list (vault_notes d)).
Proof.
  unfold getAllNotes. destruct (pool d); simpl; [|by repeat split].
  unfold query. destruct (faults d) as [|[] fs]; simpl; repeat split; try done;
    by intros ? [= <-].
Qed.

Lemma getAllAttachments_run d :
  vault_notes (snd (getAllAttachments d)) = vault_notes d
  /\ vault_attachments (snd (getAllAttachments d)) = vault_attachments d
  /\ forall atts, fst (getAllAttachments d) = Ok atts ->
       atts = map rowAttachment (map_to_list (vault_attachments d)).
Proof.
  unfold getAllAttachments. destruct (pool d); simpl; [|by repeat split].
  unfold query. destruct (faults d) as [|[] fs]; simpl; repeat split; try done;
    by intros ? [= <-].
Qed.

Lemma rows_NoDup {V} (t : gmap string V) {B} (row : string * V -> B) (pathOf : B -> string) :
  (forall r, pathOf (row r) = fst r) ->
  List.NoDup (map pathOf (map row (map_to_list t))).
Proof.
  intros Hp. rewrite List.map_map.
  rewrite (List.map_ext _ fst) by done.
  apply NoDup_ListNoDup, NoDup_fst_map_to_list.
Qed.

Lemma rows_In {V} (t : gmap string V) {B} (row : string * V -> B) b :
  In b (map row (map_to_list t)) ->
  exists p v, t !! p = Some v /\ b = row (p, v).
Proof.
  intros Hin. apply List.in_map_iff in Hin as ([p v] & <- & Hin).
  exists p, v. split; [|done].
  apply elem_of_map_to_list. by apply list_elem_of_In.
Qed.

Lemma staleNote_dec e p : staleNote e p \/ ~ staleNote e p.
Proof.
  unfold staleNote. destruct (vault_notes (db e) !! p) as [n|] eqn:E.
  - destruct (localMatches_dec hashContent p (note_contentHash n) (vault e)) as [Hm|Hm].
    + right. intros (n' & [= <-] & Hn). done.
    + left. eauto.
  - right. intros (n' & [=] & _).
Qed.

End PullFacts.

Section PullClaims.
Context `{Host}.

(** The two loops of a pull, run on the listings of the store of [e], from a
    state [e2] that has the tree of [e]. *)
Lemma pullLoops_frame {B} e e2 (k : nat -> M B) :
  vault e2 = vault e -> localWrites e2 = localWrites e ->
  let notes := map rowNote (map_to_list (vault_notes (db e))) in
  let atts := map rowAttachment (map_to_list (vault_attachments (db e))) in
  pullFrame (pullWrites e) e
    (snd (bind (pullEach pullNote notes 0)
               (fun pulled => bind (pullEach pullAttachment atts pulled) k) e2))
  \/ exists pulled e4,
       pullFrame (pullWrites e) e e4
       /\ bind (pullEach pullNote notes 0)
               (fun pulled => bind (pullEach pullAttachment atts pulled) k) e2
          = k pulled e4.
Proof.
  intros Hv Hl notes atts.
  pose proof (pullEach_frame pullNote WriteText hashContent note_path note_contentHash
                (or_introl (fun q => eq_refl)) pullNote_frame notes 0 e2
                (rows_NoDup _ rowNote note_path (fun r => eq_refl))) as Fn.
  assert (Hsubn : forall x,
             (exists a, In a notes /\ x = WriteText (note_path a)
                        /\ ~ localMatches hashContent (note_path a) (note_contentHash a) (vault e2))
             -> pullWrites e x).
  { intros x (a & Hin & -> & Hn). apply rows_In in Hin as (p & n & Hp & ->).
    simpl in *. exists n. rewrite <- Hv. done. }
  rewrite bind_run.
  destruct (pullEach pullNote notes 0 e2) as [[pulled|m] e3]; simpl in Fn.
  2: { left. simpl. apply (pullFrame_tree_l _ e2); [done..|].
       eapply pullFrame_weaken; [exact Hsubn | exact Fn]. }
  pose proof (pullEach_frame pullAttachment WriteBinary hashArrayBuffer att_path att_contentHash
                (or_intror (fun q => eq_refl)) pullAttachment_frame atts pulled e3
                (rows_NoDup _ rowAttachment att_path (fun r => eq_refl))) as Fa.
  assert (Hsuba : forall x,
             (exists a, In a atts /\ x = WriteBinary (att_path a)
                        /\ ~ localMatches hashArrayBuffer (att_path a) (att_contentHash a) (vault e3))
             -> pullWrites e x).
  { intros x (a & Hin & -> & Hn). apply rows_In in Hin as (p & a0 & Hp & ->).
    simpl in *. split; [eauto|].
    destruct (staleNote_dec e p) as [Hs|Hs]; [by right|]. left.
    exists a0. split; [done|].
    intros (c & ct & mt & Hc & Hd). apply Hn. exists c, ct, mt. split; [|done].
    apply (pf_same _ _ _ Fn); [| |by rewrite Hv].
    - intros Hw. apply Hs. apply (Hsubn (WriteText p) Hw).
    - intros (a' & _ & [=] & _). }
  assert (F : pullFrame (pullWrites e) e
                (snd (pullEach pullAttachment atts pulled e3))).
  { apply (pullFrame_tree_l _ e2); [done..|].
    eapply pullFrame_trans; [exact Fn | exact Fa | exact Hsubn | exact Hsuba]. }
  rewrite bind_run.
  destruct (pullEach pullAttachment atts pulled e3) as [[pulled'|m] e4]; simpl in F.
  - right. by exists pulled', e4.
  - by left.
Qed.

(** A whole pull, against the state it was called in. *)
Lemma pullFromDB_frame e : pullFrame (pullWrites e) e (snd (pullFromDB e)).
Proof.
  destruct (isRunning e) eqn:Hr.
  { rewrite pullFromDB_refused by done. simpl.
    apply (pullFrame_tree_r _ e e); [done..|]. apply pullFrame_refl. }
  unfold pullFromDB.
  rewrite bind_gets, Hr, bind_modify, bind_log, tryFinally_modify. simpl snd.
  match goal with |- pullFrame _ _ (withRunning false (snd (tryCatch ?c ?h ?e0))) =>
    set (body := c); set (es := e0);
    assert (Hb : pullFrame (pullWrites e) e (snd (body es))) end.
  { subst body. rewrite bind_run, onDb_run.
    destruct (getAllNotes_run (db es)) as (Hn1 & Ha1 & Hr1).
    destruct (fst (getAllNotes (db es))) as [notes|m] eqn:E1.
    2: { simpl. apply (pullFrame_tree_r _ e e); [done..|]. apply pullFrame_refl. }
    rewrite (Hr1 notes eq_refl).
    set (e1 := withDb (snd (getAllNotes (db es))) es).
    rewrite bind_run, onDb_run.
    destruct (getAllAttachments_run (db e1)) as (Hn2 & Ha2 & Hr2).
    destruct (fst (getAllAttachments (db e1))) as [atts|m] eqn:E2.
    2: { simpl. apply (pullFrame_tree_r _ e e); [done..|]. apply pullFrame_refl. }
    rewrite (Hr2 atts eq_refl).
    set (e2 := withDb (snd (getAllAttachments (db e1))) e1).
    change (vault_attachments (db e1))
      with (vault_attachments (snd (getAllNotes (db es)))).
    rewrite Ha1. change (db es) with (db e).
    match goal with |- pullFrame _ _ (snd (bind _ (fun pulled => bind _ ?k0) _)) =>
      destruct (pullLoops_frame e e2 k0 eq_refl eq_refl) as [F|(pulled & e4 & F & Heq)] end.
    - exact F.
    - cbv zeta in Heq. rewrite Heq. cbv beta. rewrite !bind_log. simpl.
      eapply pullFrame_tree_r; [| |exact F]; done. }
  apply (pullFrame_tree_r _ e (snd (tryCatch body
           (fun _ => log PullFailed ;; log (Notice "Pull failed. Check console for details."))
           es))); [done..|].
  unfold tryCatch. destruct (body es) as [[[]|m] e1]; simpl in Hb |- *; [done|].
  eapply pullFrame_tree_r; [| |exact Hb]; done.
Qed.

(** C7.  A pull writes locally only what the local tree does not match, and
    removes nothing.  With [ws] the local writes of a call of [pullFromDB]:
    the text of a remote note is not written when the local file at its path
    has the digest of the note; the bytes of a remote attachment are not
    written when the local file at its path has the digest of the attachment
    (and the store holds no unmatched note at that same path, which the loop
    over the notes would write first); a folder is made only where nothing
    was; every local entry is still there after the call, a file as a file
    and a folder as a folder; and an entry is left exactly as it was when
    the remote objects at its path are matched, in particular when the
    remote store holds nothing at its path.  All of this holds whether the
    pull completes, throws inside, or is refused because a pass is running. *)
Theorem pull_skips_matching_and_never_deletes e :
  exists ws,
    localWrites (snd (pullFromDB e)) = localWrites e ++ ws
    /\ (forall p n, vault_notes (db e) !! p = Some n ->
          localMatches hashContent p (note_contentHash n) (vault e) ->
          ~ In (WriteText p) ws)
    /\ (forall p a, vault_attachments (db e) !! p = Some a ->
          localMatches hashArrayBuffer p (att_contentHash a) (vault e) ->
          ~ staleNote e p ->
          ~ In (WriteBinary p) ws)
    /\ (forall q, In (CreateFolder q) ws -> vault e !! q = None)
    /\ (forall q x, vault e !! q = Some x ->
          exists x', vault (snd (pullFromDB e)) !! q = Some x'
                     /\ isFileEntry x' = isFileEntry x)
    /\ (forall q x, ~ staleNote e q -> ~ staleAttachment e q ->
          vault e !! q = Some x ->
          vault (snd (pullFromDB e)) !! q = Some x
          /\ ~ In (WriteText q) ws /\ ~ In (WriteBinary q) ws)
    /\ (forall q x, vault_notes (db e) !! q = None ->
          vault_attachments (db e) !! q = None ->
          vault e !! q = Some x ->
          vault (snd (pullFromDB e)) !! q = Some x).
Proof.
  destruct (pullFromDB_frame e) as [Hkept Hsame Hfiles (ws & Hws & Hall)].
  assert (Hin : forall w, In w ws ->
            pullWrites e w \/ exists q, w = CreateFolder q /\ vault e !! q = None).
  { by apply List.Forall_forall. }
  assert (Htext : forall q, ~ staleNote e q -> ~ In (WriteText q) ws).
  { intros q Hs Hw. destruct (Hin _ Hw) as [Hp|(q' & [=] & _)]. by apply Hs. }
  assert (Hbin : forall q, ~ staleNote e q -> ~ staleAttachment e q ->
                           ~ In (WriteBinary q) ws).
  { intros q Hs Ha Hw. destruct (Hin _ Hw) as [[_ [Hp|Hp]]|(q' & [=] & _)]; tauto. }
  exists ws. split; [done|]. repeat split.
  - intros p n Hn Hm. apply Htext. intros (n' & Hn' & Hs). congruence.
  - intros p a Ha Hm Hs. apply Hbin; [done|]. intros (a' & Ha' & Hs'). congruence.
  - intros q Hw. destruct (Hin _ Hw) as [[]|(q' & [= <-] & Hq)]. done.
  - exact Hkept.
  - apply Hsame; [done| |done]. simpl. tauto.
  - by apply Htext.
  - by apply Hbin.
  - intros q x Hn Ha. apply Hsame.
    + intros (n & Hn' & _). congruence.
    + intros [(a & Ha') _]. congruence.
Qed.

End PullClaims.

(** The pull of the small world: the note that is matched is not written,
    the two remote objects that are not there locally are, and the local
    objects that the store does not hold stay. *)
Example pull_demo :
  localWrites (snd (@pullFromDB demoHost demoEngine))
  = [WriteText "old.md"; WriteBinary "gone.png"]
  /\ fileContent (vault (snd (@pullFromDB demoHost demoEngine))) "a.md" = "alpha"
  /\ fileContent (vault (snd (@pullFromDB demoHost demoEngine))) "img/b.png" = "beta".
Proof. by vm_compute. Qed.

(* ================================================================== *)
(** ** The debouncer over its histories *)

Lemma jsmap_delete_fresh {V} k (m : JsMap.t V) :
  ~ In k (JsMap.keys m) -> JsMap.delete k m = m.
Proof.
  induction m as [|[k' v] m IH]; simpl; [done|]. intros Hn.
  destruct (decide (k = k')) as [->|Hne]; [tauto|]. f_equal. apply IH. tauto.
Qed.

Lemma jsmap_get_In {V} k (v : V) m : JsMap.get k m = Some v -> In (k, v) m.
Proof.
  induction m as [|[k' v'] m IH]; simpl; [done|].
  destruct (decide (k = k')) as [->|Hne]; [intros [= ->]; by left | right; by apply IH].
Qed.

Lemma jsmap_keys_get {V} k (m : JsMap.t V) :
  In k (JsMap.keys m) -> exists v, JsMap.get k m = Some v.
Proof.
  intros Hin. destruct (JsMap.get k m) as [v|] eqn:E; [by exists v|].
  by apply jsmap_get_None_keys in E.
Qed.

Lemma add_keys p ty d :
  List.NoDup (JsMap.keys (events d)) -> List.NoDup (JsMap.keys (events (add p ty d))).
Proof.
  intros Hnd. unfold add. destruct (stopped d); [done|].
  destruct (JsMap.get p (events d)); simpl; by apply jsmap_keys_set_NoDup.
Qed.

Lemma fire_keys x d :
  List.NoDup (JsMap.keys (events d)) -> List.NoDup (JsMap.keys (events (fire x d))).
Proof.
  intros Hnd. rewrite fire_events.
  destruct (JsMap.get _ _); [by apply jsmap_keys_delete_NoDup | done].
Qed.

Lemma runTimers_inv fuel t d : debouncerInv d -> debouncerInv (runTimers fuel t d).
Proof.
  revert d. induction fuel as [|fuel IH]; intros d Hinv; [done|]. simpl.
  destruct (earliest (timeouts d)) as [x|] eqn:E; [|done].
  destruct (due x <=? t)%Z; [|done].
  apply IH. destruct Hinv as [Hok Hk]. apply earliest_spec in E as [Hin _].
  split; [by apply fire_ok | by apply fire_keys].
Qed.

Lemma advance_inv t d : debouncerInv d -> debouncerInv (advance t d).
Proof.
  intros Hinv. unfold advance.
  destruct (runTimers_inv (length (timeouts d)) t d Hinv) as [Hok Hk].
  split; [by apply withClock_ok | done].
Qed.

(** A state without pending entries and without armed timers. *)
Lemma idle_inv d : events d = [] -> timeouts d = [] -> debouncerInv d.
Proof.
  intros He Ht. split; [split|].
  - intros t. by rewrite Ht.
  - intros p pe. by rewrite He.
  - rewrite Ht. constructor.
  - intros t. by rewrite Ht.
  - rewrite He. constructor.
Qed.

(** The loop of [flush], over the entries [l] that are pending when it
    starts an iteration. *)
Lemma flush_loop l : forall d,
  events d = l -> List.NoDup (JsMap.keys l) ->
  let d' := foldl (fun d p =>
                     match JsMap.get p (events d) with
                     | Some pending => emit p (clearTimeout (timer pending) d)
                     | None => d
                     end) d (JsMap.keys l) in
  events d' = []
  /\ delivered d' = delivered d ++ flat_map (emission (callbacks d)) (map snd l)
  /\ (forall t, In t (timeouts d') ->
        In t (timeouts d) /\ forall kv, In kv l -> handle t <> timer (snd kv))
  /\ callbacks d' = callbacks d /\ stopped d' = stopped d /\ clock d' = clock d
  /\ delay d' = delay d /\ nextHandle d' = nextHandle d.
Proof.
  induction l as [|[k pe] l IH]; intros d He Hnd.
  - simpl. rewrite app_nil_r. repeat split; try done; by intros kv [].
  - inversion Hnd as [|? ? Hnotin Hnd']; subst.
    change (JsMap.keys ((k, pe) :: l)) with (k :: JsMap.keys l).
    cbn [foldl].
    assert (Hget : JsMap.get k (events d) = Some pe).
    { rewrite He. simpl. by rewrite decide_True. }
    rewrite Hget.
    set (d1 := emit k (clearTimeout (timer pe) d)).
    assert (Hd1 : events d1 = l
                  /\ delivered d1 = delivered d ++ emission (callbacks d) pe
                  /\ timeouts d1
                     = List.filter (fun t => negb (bool_decide (handle t = timer pe)))
                                   (timeouts d)
                  /\ callbacks d1 = callbacks d /\ stopped d1 = stopped d
                  /\ clock d1 = clock d /\ delay d1 = delay d
                  /\ nextHandle d1 = nextHandle d).
    { subst d1. unfold emit. cbn [clearTimeout withTimeouts events]. rewrite Hget.
      simpl. repeat split; try done.
      rewrite He. simpl. rewrite decide_True by done. by apply jsmap_delete_fresh. }
    destruct Hd1 as (He1 & Hdl1 & Hto1 & Hcb1 & Hst1 & Hck1 & Hdy1 & Hnh1).
    destruct (IH d1 He1 Hnd') as (He' & Hdl' & Hto' & Hcb' & Hst' & Hck' & Hdy' & Hnh').
    split; [done|]. split.
    { rewrite Hdl', Hdl1, Hcb1. simpl. by rewrite <- app_assoc. }
    split; [|repeat split; congruence].
    intros t Ht. destruct (Hto' t Ht) as [Hin Hall]. rewrite Hto1 in Hin.
    apply filter_In in Hin as [Hin Hne].
    apply negb_true_iff, bool_decide_eq_false in Hne.
    split; [done|]. intros kv [<-|Hkv]; [done | by apply Hall].
Qed.

(** No armed timer survives the clearing of the timers of all the pending
    entries. *)
Lemma timers_all_cleared d (ts : list Timeout) :
  debouncerOk d ->
  (forall t, In t ts ->
     In t (timeouts d) /\ forall kv, In kv (events d) -> handle t <> timer (snd kv)) ->
  ts = [].
Proof.
  intros Hok Hall. destruct ts as [|t ts]; [done|]. exfalso.
  destruct (Hall t (or_introl eq_refl)) as [Hin Hne].
  destruct (ok_timeout _ Hok t Hin) as (pe & Hget & Htm).
  apply jsmap_get_In in Hget. by apply (Hne _ Hget).
Qed.

Lemma flush_run d :
  debouncerInv d ->
  events (flush d) = []
  /\ timeouts (flush d) = []
  /\ delivered (flush d)
     = delivered d ++ flat_map (emission (callbacks d)) (map snd (JsMap.entries (events d)))
  /\ callbacks (flush d) = callbacks d /\ stopped (flush d) = stopped d
  /\ clock (flush d) = clock d /\ delay (flush d) = delay d.
Proof.
  intros [Hok Hk].
  destruct (flush_loop (events d) d eq_refl Hk)
    as (He & Hdl & Hto & Hcb & Hst & Hck & Hdy & _).
  unfold flush. repeat split; try done.
  by apply (timers_all_cleared d).
Qed.

(** The loop of [stop]. *)
Lemma stop_loop (l : list (string * PendingEvent)) : forall d,
  let d1 := foldl (fun d kv => clearTimeout (timer (snd kv)) d) d l in
  (forall t, In t (timeouts d1) ->
     In t (timeouts d) /\ forall kv, In kv l -> handle t <> timer (snd kv))
  /\ events d1 = events d /\ delivered d1 = delivered d /\ callbacks d1 = callbacks d
  /\ clock d1 = clock d /\ delay d1 = delay d.
Proof.
  induction l as [|kv l IH]; intros d.
  - simpl. repeat split; try done; by intros kv [].
  - cbn [foldl].
    destruct (IH (clearTimeout (timer (snd kv)) d)) as (Hto & He & Hdl & Hcb & Hck & Hdy).
    split; [|by repeat split].
    intros t Ht. destruct (Hto t Ht) as [Hin Hall].
    apply filter_In in Hin as [Hin Hne].
    apply negb_true_iff, bool_decide_eq_false in Hne.
    split; [done|]. intros kv' [<-|Hkv']; [done | by apply Hall].
Qed.

Lemma stop_run d :
  debouncerOk d ->
  events (stop d) = [] /\ timeouts (stop d) = [] /\ stopped (stop d) = true
  /\ delivered (stop d) = delivered d /\ callbacks (stop d) = callbacks d.
Proof.
  intros Hok.
  destruct (stop_loop (JsMap.entries (events d)) d) as (Hto & He & Hdl & Hcb & _).
  unfold stop. cbn [events timeouts stopped delivered callbacks].
  repeat split; try done.
  by apply (timers_all_cleared d).
Qed.

Lemma call_inv c d : debouncerInv d -> debouncerInv (call c d).
Proof.
  intros Hinv. destruct c as [cb|p ty| | |t]; simpl.
  - destruct Hinv as [Hok Hk]. split; [by apply onEvent_ok | done].
  - destruct Hinv as [Hok Hk]. split; [by apply add_ok | by apply add_keys].
  - destruct (flush_run d Hinv) as (He & Ht & _). by apply idle_inv.
  - destruct (stop_run d (inv_ok _ Hinv)) as (He & Ht & _). by apply idle_inv.
  - by apply advance_inv.
Qed.

Lemma runCalls_inv cs : forall d, debouncerInv d -> debouncerInv (runCalls cs d).
Proof.
  induction cs as [|c cs IH]; intros d Hinv; [done|].
  apply (IH (call c d)). by apply call_inv.
Qed.

Lemma history_inv delayMs t0 cs : debouncerInv (runCalls cs (newDebouncer delayMs t0)).
Proof. apply runCalls_inv. by apply idle_inv. Qed.

(** X1.  In every state that a debouncer reaches from its creation, by any
    calls of its methods and any passing of time, the armed timers and the
    pending events correspond one to one: there are as many of the one as of
    the other, a path has a pending event exactly when a timer is armed for
    it, and the timer of a pending event is the one recorded with it.  No
    timer is left armed without its event, and no event waits without a
    timer. *)
Theorem timers_match_pending_events delayMs t0 cs :
  let d := runCalls cs (newDebouncer delayMs t0) in
  length (timeouts d) = pendingCount d
  /\ (forall p, JsMap.has p (events d) = true
                <-> exists t, In t (timeouts d) /\ target t = p)
  /\ (forall t, In t (timeouts d) ->
        exists pe, JsMap.get (target t) (events d) = Some pe /\ timer pe = handle t).
Proof.
  cbv zeta. destruct (history_inv delayMs t0 cs) as [Hok Hk].
  set (d := runCalls cs (newDebouncer delayMs t0)) in *.
  assert (Hhas : forall p, JsMap.has p (events d) = true
                           <-> exists t, In t (timeouts d) /\ target t = p).
  { intros p. unfold JsMap.has. split.
    - destruct (JsMap.get p (events d)) as [pe|] eqn:E; [|done]. intros _.
      destruct (ok_pending _ Hok p pe E) as (_ & t & Hin & _ & Ht). eauto.
    - intros (t & Hin & <-). destruct (ok_timeout _ Hok t Hin) as (pe & -> & _). done. }
  split; [|split; [exact Hhas | apply (ok_timeout _ Hok)]].
  assert (Hnd : List.NoDup (map target (timeouts d))).
  { apply NoDup_map_NoDup_ForallPairs.
    - intros x y Hx Hy Heq.
      destruct (ok_timeout _ Hok x Hx) as (pex & Hgx & Htx).
      destruct (ok_timeout _ Hok y Hy) as (pey & Hgy & Hty).
      apply (handle_inj (timeouts d)); [apply (ok_handles _ Hok) | done | done |].
      rewrite Heq in Hgx. congruence.
    - apply (NoDup_map_inv handle), (ok_handles _ Hok). }
  unfold pendingCount, JsMap.size.
  rewrite <- (length_map target (timeouts d)), <- (length_map fst (events d)).
  apply Nat.le_antisymm; apply NoDup_incl_length; try done.
  - intros p Hp. apply in_map_iff in Hp as (t & <- & Hin).
    destruct (ok_timeout _ Hok t Hin) as (pe & Hget & _).
    by apply jsmap_get_Some_keys in Hget.
  - intros p Hp. apply jsmap_keys_get in Hp as (pe & Hget).
    destruct (ok_pending _ Hok p pe Hget) as (_ & t & Hin & _ & <-).
    by apply in_map.
Qed.

(** X2.  [flush] hands every pending event to every listener, once, in the
    order in which the paths became pending, and leaves nothing pending and
    no timer armed; the listeners and the stop flag are as they were. *)
Theorem flush_emits_every_pending_event delayMs t0 cs :
  let d := runCalls cs (newDebouncer delayMs t0) in
  delivered (flush d)
  = delivered d ++ flat_map (emission (callbacks d)) (map snd (JsMap.entries (events d)))
  /\ pendingCount (flush d) = 0%nat
  /\ timeouts (flush d) = []
  /\ callbacks (flush d) = callbacks d
  /\ stopped (flush d) = stopped d.
Proof.
  cbv zeta.
  destruct (flush_run _ (history_inv delayMs t0 cs)) as (He & Ht & Hdl & Hcb & Hst & _).
  unfold pendingCount. rewrite He. done.
Qed.

(** After [stop], whatever is called and however much time passes, the
    state stays idle and nothing is delivered. *)
Lemma stopped_stays_quiet cs : forall d,
  stopped d = true -> events d = [] -> timeouts d = [] ->
  let d' := runCalls cs d in
  stopped d' = true /\ events d' = [] /\ timeouts d' = [] /\ delivered d' = delivered d.
Proof.
  induction cs as [|c cs IH]; intros d Hs He Ht; [done|].
  cbn [runCalls foldl].
  assert (Hc : stopped (call c d) = true /\ events (call c d) = []
               /\ timeouts (call c d) = [] /\ delivered (call c d) = delivered d).
  { destruct c as [cb|p ty| | |t]; simpl.
    - done.
    - unfold add. by rewrite Hs.
    - unfold flush. by rewrite He.
    - unfold stop. by rewrite He.
    - unfold advance. rewrite Ht. done. }
  destruct Hc as (Hs1 & He1 & Ht1 & Hd1).
  destruct (IH (call c d) Hs1 He1 Ht1) as (? & ? & ? & Hd'). fold (runCalls cs (call c d)).
  repeat split; try done. congruence.
Qed.

(** X3.  [stop] drops the pending events without handing them to any
    listener and disarms their timers; from then on the debouncer is dead:
    whatever is added, flushed or waited for afterwards, no listener is
    called again and nothing becomes pending. *)
Theorem stop_silences_the_debouncer delayMs t0 cs :
  let d := runCalls cs (newDebouncer delayMs t0) in
  delivered (stop d) = delivered d
  /\ pendingCount (stop d) = 0%nat
  /\ timeouts (stop d) = []
  /\ (forall cs', delivered (runCalls cs' (stop d)) = delivered d
                  /\ pendingCount (runCalls cs' (stop d)) = 0%nat
                  /\ timeouts (runCalls cs' (stop d)) = []).
Proof.
  cbv zeta. destruct (history_inv delayMs t0 cs) as [Hok Hk].
  destruct (stop_run _ Hok) as (He & Ht & Hs & Hdl & _).
  unfold pendingCount. rewrite He. repeat split; try done;
    destruct (stopped_stays_quiet cs' _ Hs He Ht) as (_ & He' & Ht' & Hd'); try done.
  - congruence.
  - by rewrite He'.
Qed.

(** X4.  An event added to a running debouncer waits for a quiet window:
    as long as less than the delay has passed since the call of [add], no
    listener hears of the path and the event stays pending; once the delay
    has passed with no further event on the path, every listener receives
    it exactly once, with the path, the type (merged with the type that was
    pending, if one was) and the time of the call, and nothing stays
    pending for the path. *)
Theorem event_waits_for_the_quiet_window delayMs t0 cs p ty t i :
  let d := runCalls cs (newDebouncer delayMs t0) in
  let ev := {| path := p;
               eventType := match JsMap.get p (events d) with
                            | Some pe => coalesce (eventType (event pe)) ty
                            | None => ty
                            end;
               timestamp := clock d |} in
  let d' := advance t (add p ty d) in
  stopped d = false ->
  (clock d <= t)%Z ->
  if (t <? clock d + delay d)%Z
  then deliveredTo i p d' = deliveredTo i p d
       /\ exists h, JsMap.get p (events d') = Some {| event := ev; timer := h |}
  else deliveredTo i p d'
       = deliveredTo i p d ++ (if bool_decide (i < length (callbacks d))%nat then [ev] else [])
       /\ JsMap.get p (events d') = None.
Proof.
  cbv zeta. intros Hs Hclock.
  destruct (history_inv delayMs t0 cs) as [Hok Hk].
  set (d := runCalls cs (newDebouncer delayMs t0)) in *.
  pose proof (add_ok p ty d Hok) as Hok1.
  pose proof (add_events p ty d Hs) as Hev.
  destruct (add_frame p ty d) as (Hdy & Hcb & _ & Hck & Hdl).
  assert (Hpath : match JsMap.get p (events d) with
                  | Some pe => path (event pe) | None => p end = p).
  { destruct (JsMap.get p (events d)) as [pe|] eqn:E; [|done].
    by destruct (ok_pending _ Hok p pe E). }
  rewrite Hpath in Hev.
  assert (Hnew : In {| handle := nextHandle d; due := (clock d + delay d)%Z; target := p |}
                    (timeouts (add p ty d))).
  { rewrite add_timeouts by done. apply in_app_iff. right. by left. }
  assert (Honly : forall x, In x (timeouts (add p ty d)) -> target x = p ->
                            due x = (clock d + delay d)%Z).
  { intros x Hx Htx.
    destruct (ok_timeout _ Hok1 x Hx) as (pe & Hget & Htm).
    rewrite Htx, Hev in Hget. injection Hget as <-. simpl in Htm.
    assert (x = {| handle := nextHandle d; due := (clock d + delay d)%Z; target := p |})
      as -> by (apply (handle_inj (timeouts (add p ty d)));
                [apply (ok_handles _ Hok1) | done | done | done]).
    done. }
  assert (Hsame : forall j, deliveredTo j p (add p ty d) = deliveredTo j p d).
  { intros j. unfold deliveredTo. by rewrite Hdl. }
  destruct (t <? clock d + delay d)%Z eqn:Hlt.
  - apply Z.ltb_lt in Hlt.
    destruct (advance_untouched t p (add p ty d) Hok1) as (_ & Hget & Hd & _).
    { intros x Hx Htx. rewrite (Honly x Hx Htx). lia. }
    { by rewrite Hck. }
    rewrite Hd, Hsame, Hget, Hev. split; [done|]. by eexists.
  - apply Z.ltb_ge in Hlt.
    destruct (advance_fires t p _ _ (add p ty d) Hok1 Hev Hnew eq_refl) as (_ & Hget & Hd).
    { simpl. lia. }
    rewrite Hd, Hsame, Hcb. done.
Qed.

(** The debouncer of two seconds with its one listener: an event added at
    time 0 has reached the listener at 2.5 s, and not yet at 1.5 s. *)
Lemma event_waits_for_the_quiet_window_witness :
  deliveredTo 0 "a.md" (advance 2500 (add "a.md" Modify demoDeb))
  = [{| path := "a.md"; eventType := Modify; timestamp := 0 |}]
  /\ deliveredTo 0 "a.md" (advance 1500 (add "a.md" Modify demoDeb)) = [].
Proof.
  split.
  - exact (proj1 (event_waits_for_the_quiet_window 2000 0 [CallOnEvent demoListener]
                    "a.md" Modify 2500 0 eq_refl ltac:(vm_compute; discriminate))).
  - exact (proj1 (event_waits_for_the_quiet_window 2000 0 [CallOnEvent demoListener]
                    "a.md" Modify 1500 0 eq_refl ltac:(vm_compute; discriminate))).
Defined.

(* ================================================================== *)
(** ** The tracker as a store of records *)



(** X6.  The number of tracked files, for a path other than [__proto__]:
    it grows by one when a record is set for a path that has none and stays
    when the path has one; it falls by one when the record of a path is
    removed and stays when there was none; a member of [Object.prototype]
    read for the path is no record.  [clear] forgets every record and the
    time of the last full sync, and keeps the identity of the vault:
    afterwards no file is counted, every path needs a sync, and reading a
    path gives nothing but the member of [Object.prototype] of its name, if
    there is one.  [setLastFullSync] stores the time that [getLastFullSync]
    returns and touches no record. *)
Theorem tracker_count_and_clear tr p st t h :
  p <> "__proto__" ->
  fileCount (setFileState p st tr)
  = match getFileState p tr with
    | Some (Own _) => fileCount tr
    | _ => S (fileCount tr)
    end
  /\ fileCount (removeFileState p tr)
     = match getFileState p tr with
       | Some (Own _) => pred (fileCount tr)
       | _ => fileCount tr
       end
  /\ fileCount (clear tr) = 0%nat
  /\ getFileState p (clear tr) = (if inheritedKey p then Some (Inherited p) else None)
  /\ needsSync p h (clear tr) = true
  /\ getLastFullSync (clear tr) = None
  /\ vaultPath (state (clear tr)) = vaultPath (state tr)
  /\ isDirty (clear tr) = true
  /\ getLastFullSync (setLastFullSync t tr) = Some t
  /\ getFileState p (setLastFullSync t tr) = getFileState p tr
  /\ fileCount (setLastFullSync t tr) = fileCount tr.
Proof.
  intros _.
  unfold fileCount, getFileState, readKey, needsSync, setFileState, removeFileState, clear,
    setLastFullSync, getLastFullSync, isDirty. simpl.
  rewrite map_size_insert, map_size_delete, map_size_empty, lookup_empty.
  repeat split; destruct (files (state tr) !! p); try done; by destruct (inheritedKey p).
Qed.

(** The tracker of the examples counts one file; a record set for the
    untracked path [constructor] makes two, although [getFileState] gave a
    value for that path before. *)
Lemma tracker_count_and_clear_witness :
  fileCount (setFileState "constructor" demoRecord demoTracker) = 2%nat
  /\ getFileState "constructor" demoTracker = Some (Inherited "constructor").
Proof.
  split; [|reflexivity].
  rewrite (proj1 (tracker_count_and_clear demoTracker "constructor" demoRecord InvalidDate ""
                    ltac:(discriminate))).
  reflexivity.
Defined.

(* ================================================================== *)
(** ** [serialize] and [load] *)

Lemma fromEntries_lookup {V} (l : list (string * V)) : forall (acc : gmap string V) k,
  foldl (fun m kv => <[fst kv := snd kv]> m) acc l !! k
  = match assoc k (rev l) with Some v => Some v | None => acc !! k end.
Proof.
  induction l as [|[k' v'] l IH]; intros acc k; [done|].
  cbn [foldl rev]. rewrite IH, assoc_app. simpl.
  destruct (assoc k (rev l)); [done|].
  destruct (decide (k = k')) as [->|Hne].
  - by rewrite lookup_insert_eq.
  - by rewrite lookup_insert_ne.
Qed.

Lemma assoc_map_to_list {V} (m : gmap string V) k : assoc k (map_to_list m) = m !! k.
Proof.
  assert (Hnd : List.NoDup (map fst (map_to_list m)))
    by apply NoDup_ListNoDup, NoDup_fst_map_to_list.
  destruct (m !! k) as [v|] eqn:E.
  - apply assoc_NoDup; [done|]. by apply list_elem_of_In, elem_of_map_to_list.
  - apply assoc_None. intros Hin. apply in_map_iff in Hin as ([k' v] & Hk & Hin).
    simpl in Hk. subst k'. apply list_elem_of_In, elem_of_map_to_list in Hin. congruence.
Qed.

(** [Object.fromEntries] of the entries of an object is the object. *)
Lemma fromEntries_map_to_list {V} (m : gmap string V) : fromEntries (map_to_list m) = m.
Proof.
  apply map_eq. intros k. unfold fromEntries. rewrite fromEntries_lookup.
  rewrite assoc_rev_NoDup by apply NoDup_ListNoDup, NoDup_fst_map_to_list.
  rewrite assoc_map_to_list, lookup_empty. by destruct (m !! k).
Qed.

Section SerializeFacts.
Context `{Host} `{JsonHost}.

Lemma newDate_iso d : isoRoundTrips d -> newDate (Some (dateToJson d)) = Ok d.
Proof. intros (ms & -> & _ & Hp). simpl. by rewrite Hp. Qed.

Lemma reviveFileState_toJson p st :
  isoRoundTrips (lastSynced st) -> isoRoundTrips (lastModified st) ->
  reviveFileState (p, fileStateToJson st) = Ok (p, st).
Proof.
  intros Hs Hm. destruct st as [h ls lm sz]. simpl in Hs, Hm.
  unfold reviveFileState, fileStateToJson, jsonProp. cbn [hash lastSynced lastModified sizeBytes].
  assert (Hls : assoc "lastSynced"
                  (optField "hash" JStr h
                   ++ [("lastSynced", dateToJson ls); ("lastModified", dateToJson lm)]
                   ++ optField "sizeBytes" JNum sz) = Some (dateToJson ls)).
  { by destruct h. }
  assert (Hlm : assoc "lastModified"
                  (optField "hash" JStr h
                   ++ [("lastSynced", dateToJson ls); ("lastModified", dateToJson lm)]
                   ++ optField "sizeBytes" JNum sz) = Some (dateToJson lm)).
  { by destruct h. }
  rewrite Hls, Hlm. cbn [obind]. rewrite (newDate_iso ls Hs). cbn [obind].
  rewrite (newDate_iso lm Hm). cbn [obind].
  by destruct h, sz.
Qed.

Lemma omapM_revive (rows : list (string * FileState)) :
  Forall (fun kv => isoRoundTrips (lastSynced (snd kv))
                    /\ isoRoundTrips (lastModified (snd kv))) rows ->
  omapM reviveFileState (map (fun kv => (fst kv, fileStateToJson (snd kv))) rows) = Ok rows.
Proof.
  induction 1 as [|[p st] rows [Hs Hm] _ IH]; [done|].
  cbn [map fst snd omapM]. rewrite reviveFileState_toJson by done.
  cbn [obind]. by rewrite IH.
Qed.

(** X7.  What [serialize] writes, [load] reads back: when the platform
    parses the text that it wrote, and the dates of the state come back
    from their ISO texts (they are valid dates), loading the serialized
    state of a tracker into a tracker of the same vault gives that state
    back, every record and the time of the last full sync included; the
    dirty flag of the loading tracker stays as it was. *)
Theorem serialize_then_load_restores_the_state tr tr0 :
  jsonParse (serialize tr) = Ok (stateToJson (state tr)) ->
  (forall d, lastFullSync (state tr) = Some d -> isoRoundTrips d) ->
  (forall p st, files (state tr) !! p = Some st ->
                isoRoundTrips (lastSynced st) /\ isoRoundTrips (lastModified st)) ->
  vaultPath (state tr0) = vaultPath (state tr) ->
  load (serialize tr) tr0 = (Ok tt, {| state := state tr; dirty := dirty tr0 |}).
Proof.
  intros Hparse Hfull Hfiles Hvp.
  assert (Hbody : loadBody (serialize tr) (state tr0) = Ok (state tr)).
  { unfold loadBody. rewrite Hparse. cbn [obind].
    unfold stateToJson at 1. cbn [jsonProp assoc]. rewrite decide_True by done.
    cbn [obind]. rewrite Hvp, bool_decide_eq_true_2 by done.
    unfold reviveState, stateToJson. cbn [jsonProp assoc].
    rewrite decide_False by done. rewrite decide_True by done. cbn [obind].
    assert (Hlfs : (if jsonTruthy (Some match lastFullSync (state tr) with
                                        | Some d => dateToJson d | None => JNull end)
                    then obind (newDate (Some match lastFullSync (state tr) with
                                              | Some d => dateToJson d | None => JNull end))
                               (fun d => Ok (Some d))
                    else Ok None) = Ok (lastFullSync (state tr))).
    { destruct (lastFullSync (state tr)) as [d|] eqn:E; [|done].
      destruct (Hfull d eq_refl) as (ms & -> & Hne & Hp). simpl.
      rewrite Hne. simpl. by rewrite Hp. }
    rewrite Hlfs. cbn [obind].
    rewrite !decide_False by done. rewrite decide_True by done. cbn [obind jsonTruthy jsonEntries].
    rewrite omapM_revive.
    - cbn [obind]. rewrite fromEntries_map_to_list. by destruct tr as [[vp lfs fs] dt].
    - apply Forall_forall. intros [p st] Hin. apply elem_of_map_to_list in Hin.
      by apply (Hfiles p st). }
  unfold load. by rewrite Hbody.
Qed.

End SerializeFacts.

(** The tracker of one record, written and read back by a platform that
    reads its own texts. *)
Lemma serialize_then_load_restores_the_state_witness :
  @load isoHost (@serialize isoJsonHost demoTracker) (newStateTracker "notes")
  = (Ok tt, {| state := state demoTracker; dirty := false |}).
Proof.
  apply (@serialize_then_load_restores_the_state isoHost isoJsonHost
           demoTracker (newStateTracker "notes")).
  - reflexivity.
  - intros d [= <-]. exists 7%Z. by vm_compute.
  - intros p st Hst. unfold demoTracker in Hst. cbn [state files] in Hst.
    destruct (decide (p = "a.md")) as [->|Hne].
    + rewrite lookup_insert_eq in Hst. injection Hst as <-.
      split; [exists 5%Z | exists 4%Z]; by vm_compute.
    + rewrite lookup_insert_ne in Hst by done. by rewrite lookup_empty in Hst.
  - reflexivity.
Defined.

(* ================================================================== *)
(** ** The metadata block and the body *)

Lemma append_cons c a b : String.append (String c a) b = String c (String.append a b).
Proof. reflexivity. Qed.

Lemma append_nil b : String.append EmptyString b = b.
Proof. reflexivity. Qed.

Ltac appends := repeat (rewrite append_cons in * || rewrite append_nil in * ).

Lemma startsWith_spec p : forall s,
  startsWith s p = true <-> exists r, s = String.append p r.
Proof.
  induction p as [|a p IH]; intros s.
  - destruct s; simpl; split; eauto.
  - destruct s as [|b s]; simpl.
    + split; [done | intros [r Hr]; appends; done].
    + destruct (decide (a = b)) as [->|Hne].
      * rewrite IH. split; intros [r Hr]; exists r; appends; congruence.
      * split; [done | intros [r Hr]; appends; congruence].
Qed.

Lemma length_append (a b : string) :
  String.length (String.append a b) = (String.length a + String.length b)%nat.
Proof. induction a as [|c a IH]; appends; simpl; [done | by rewrite IH]. Qed.

Lemma findClose_unfold s :
  findClose s
  = if startsWith s (String "010" "---") then Some (EmptyString, sliceFrom 4 s)
    else match s with
         | EmptyString => None
         | String c s' =>
             match findClose s' with
             | Some (pre, post) => Some (String c pre, post)
             | None => None
             end
         end.
Proof. by destruct s. Qed.

(** [findClose] finds the first closing fence. *)
Lemma findClose_Some s : forall pre post,
  findClose s = Some (pre, post) ->
  s = String.append pre (String.append (String "010" "---") post)
  /\ forall a b, s = String.append a (String.append (String "010" "---") b) ->
                 (String.length pre <= String.length a)%nat.
Proof.
  induction s as [|c s IH]; intros pre post; rewrite findClose_unfold.
  - simpl. done.
  - destruct (startsWith (String c s) (String "010" "---")) eqn:Hs.
    + intros [= <- <-]. apply startsWith_spec in Hs as [r Hr].
      split; [|simpl; lia]. appends. by injection Hr as -> ->.
    + destruct (findClose s) as [[pre' post']|] eqn:Hf; [|done].
      intros [= <- <-]. destruct (IH pre' post' eq_refl) as [Heq Hfirst].
      split; [appends; by rewrite <- Heq|].
      intros a b Hab. destruct a as [|c' a].
      * exfalso. assert (startsWith (String c s) (String "010" "---") = true)
          by (apply startsWith_spec; by exists b). congruence.
      * appends. injection Hab as _ Hab. simpl. apply le_n_S. by apply (Hfirst a b).
Qed.

Lemma findClose_None s :
  findClose s = None ->
  forall a b, s <> String.append a (String.append (String "010" "---") b).
Proof.
  induction s as [|c s IH]; rewrite findClose_unfold.
  - intros _ [|c a] b; appends; done.
  - destruct (startsWith (String c s) (String "010" "---")) eqn:Hs; [done|].
    destruct (findClose s) as [[pre' post']|] eqn:Hf; [done|]. intros _ a b Hab.
    destruct a as [|c' a].
    + assert (startsWith (String c s) (String "010" "---") = true)
        by (apply startsWith_spec; by exists b). congruence.
    + appends. injection Hab as _ Hab. by apply (IH eq_refl a b).
Qed.

Section BlockFacts.
Context `{Host}.

(** X8.  The metadata block that [parseFrontmatter] takes off a note is the
    text between the opening fence and the first closing fence: when there
    is one, the content is the opening line of three dashes, the YAML text
    (not empty), a newline and three dashes, one further newline if one
    follows, and the body; no closing fence stands earlier in the content;
    and the body returned is that rest when the YAML text parses and the
    whole content when it does not.  When the content does not have this
    shape, the metadata is empty and the body is the whole content. *)
Theorem frontmatter_block_ends_at_the_first_fence content :
  (forall y rest,
      matchFrontmatter content = Some (y, rest) ->
      y <> EmptyString
      /\ (exists sep,
             (sep = String "010" EmptyString
              \/ (sep = EmptyString /\ startsWith rest (String "010" EmptyString) = false))
             /\ content = String.append (String.append "---" (String "010" EmptyString))
                            (String.append y
                               (String.append (String "010" "---")
                                  (String.append sep rest))))
      /\ (forall a b,
             a <> EmptyString ->
             content = String.append (String.append "---" (String "010" EmptyString))
                         (String.append a (String.append (String "010" "---") b)) ->
             (String.length y <= String.length a)%nat)
      /\ snd (parseFrontmatter content)
         = if isOk (parseYaml y) then rest else content)
  /\ (matchFrontmatter content = None ->
      parseFrontmatter content = (emptyFrontmatter, content)
      /\ forall a b,
           a <> EmptyString ->
           content <> String.append (String.append "---" (String "010" EmptyString))
                        (String.append a (String.append (String "010" "---") b))).
Proof.
  unfold parseFrontmatter, matchFrontmatter.
  destruct (startsWith content (String "-" (String "-" (String "-" (String "010" EmptyString)))))
    eqn:Hopen.
  2: { split; [done|]. intros _. split; [done|]. intros a b _ Hc.
       assert (startsWith content
                 (String "-" (String "-" (String "-" (String "010" EmptyString)))) = true)
         by (apply startsWith_spec; eexists; exact Hc).
       congruence. }
  apply startsWith_spec in Hopen as [r ->].
  change (sliceFrom 4 (String.append
            (String "-" (String "-" (String "-" (String "010" EmptyString)))) r)) with r.
  destruct r as [|c r].
  { split; [done|]. intros _. split; [done|]. intros [|c a] b Ha; appends; congruence. }
  destruct (findClose r) as [[pre post]|] eqn:Hf.
  - split; [|done]. intros y rest [= <- <-].
    destruct (findClose_Some r pre post Hf) as [Hr Hfirst].
    split; [done|]. split; [|split].
    + destruct (startsWith post (String "010" EmptyString)) eqn:Hnl.
      * exists (String "010" EmptyString). split; [by left|].
        apply startsWith_spec in Hnl as [r' ->]. appends. by rewrite Hr.
      * exists EmptyString. split; [by right|]. appends. by rewrite Hr.
    + intros [|c' a] b Ha Hc; [done|]. appends. injection Hc as _ Hc.
      simpl. apply le_n_S. by apply (Hfirst a b).
    + destruct (parseYaml (String c pre)) as [parsed|m]; simpl; [|done].
      by destruct (isObject parsed).
  - split; [done|]. intros _. split; [done|].
    intros [|c' a] b Ha Hc; [done|]. appends. injection Hc as _ Hc.
    by apply (findClose_None r Hf a b).
Qed.

(** X10.  A parsed note always has a title: the title of its metadata when
    that is a non-empty string, and otherwise the file name given, without
    its ending [.md] if it has one.  The raw content is the text parsed,
    and the body, tags and aliases are those of [parseFrontmatter]. *)
Theorem note_title_defaults_to_the_file_name content filename :
  let parsed := parseContent content filename in
  title (frontmatter parsed)
  = Some (match title (fst (parseFrontmatter content)) with
          | Some t => if nonEmpty t then t else stripMd filename
          | None => stripMd filename
          end)
  /\ stripMd (String.append filename ".md") = filename
  /\ (endsWith filename ".md" = false -> stripMd filename = filename)
  /\ rawContent parsed = content
  /\ body parsed = snd (parseFrontmatter content)
  /\ tags (frontmatter parsed) = tags (fst (parseFrontmatter content))
  /\ aliases (frontmatter parsed) = aliases (fst (parseFrontmatter content)).
Proof.
  cbv zeta. unfold parseContent.
  destruct (parseFrontmatter content) as [fm bd]. simpl.
  split; [|split; [|split]].
  - destruct (title fm) as [t|] eqn:Et; [|done]. destruct (nonEmpty t); [|done].
    by rewrite Et.
  - induction filename as [|c s IH]; [done|]. rewrite append_cons. simpl.
    rewrite bool_decide_eq_false_2; [by rewrite IH|].
    intros Heq. appends. apply (f_equal String.length) in Heq. simpl in Heq.
    rewrite length_append in Heq. simpl in Heq. lia.
  - induction filename as [|c s IH]; [done|]. simpl.
    intros Hends. apply orb_false_iff in Hends as [Hne Hends].
    rewrite Hne. by rewrite IH.
  - repeat split; destruct (title fm) as [t|]; try destruct (nonEmpty t); done.
Qed.

End BlockFacts.

(* ================================================================== *)
(** ** The merged tags *)

Lemma keepFirst_NoDup_id l : List.NoDup l -> keepFirst l = l.
Proof.
  induction 1 as [|x l Hnotin Hnd IH]; simpl; [done|]. rewrite IH. f_equal.
  clear IH Hnd. induction l as [|y l IH]; simpl; [done|].
  rewrite bool_decide_eq_false_2; simpl.
  - f_equal. apply IH. intros Hin. apply Hnotin. by right.
  - intros ->. apply Hnotin. by left.
Qed.

Lemma filter_all {A} (f : A -> bool) l : (forall x, In x l -> f x = true) -> List.filter f l = l.
Proof.
  induction l as [|x l IH]; simpl; [done|]. intros Hall.
  rewrite (Hall x (or_introl eq_refl)). f_equal. apply IH. intros y Hy. apply Hall. by right.
Qed.

Section MergedTags.
Context `{Host}.

(** X9.  The tags stored with a note are exactly the non-empty texts that
    the platform's [toLowerCase] followed by its [trim] make of the tags of
    the metadata and of the inline tags.  Merging two lists is merging their
    concatenation.  On a platform where lower-casing and trimming a text a
    second time changes nothing, merging is idempotent: the merged tags,
    merged again, are themselves. *)
Theorem merged_tags_are_the_normalised_tags fm inl :
  (forall t, In t (mergeTags fm inl)
             <-> t <> EmptyString /\ exists s, In s (fm ++ inl) /\ trim (toLowerCase s) = t)
  /\ mergeTags fm inl = mergeTags (fm ++ inl) []
  /\ ((forall s, trim (toLowerCase (trim (toLowerCase s))) = trim (toLowerCase s)) ->
      mergeTags (mergeTags fm inl) [] = mergeTags fm inl).
Proof.
  split; [|split].
  - intros t. rewrite mergeTags_refines. unfold mergeTags_spec, normalizeTag.
    rewrite keepFirst_In, filter_In, in_map_iff. unfold nonEmpty.
    rewrite negb_true_iff, bool_decide_eq_false. split.
    + intros [(s & Hs & Hin) Hne]. split; [done|]. by exists s.
    + intros [Hne (s & Hin & Hs)]. split; [by exists s | done].
  - rewrite !mergeTags_refines. unfold mergeTags_spec. by rewrite app_nil_r.
  - intros Hidem.
    rewrite (mergeTags_refines (mergeTags fm inl) []). unfold mergeTags_spec.
    rewrite app_nil_r.
    pose proof (mergeTags_normalized fm inl) as Hall.
    rewrite List.Forall_forall in Hall.
    assert (Hmap : map normalizeTag (mergeTags fm inl) = mergeTags fm inl).
    { rewrite <- (map_id (mergeTags fm inl)) at 2. apply map_ext_in.
      intros t Ht. destruct (Hall t Ht) as (_ & u & _ & ->).
      unfold normalizeTag. apply Hidem. }
    rewrite Hmap, filter_all.
    + apply keepFirst_NoDup_id. rewrite mergeTags_refines. apply keepFirst_NoDup.
    + intros t Ht. by destruct (Hall t Ht) as (? & _).
Qed.

End MergedTags.

(** On the host of the examples, whose case mapping and white space are the
    ASCII ones, merged tags are a fixed point of the merge. *)
Lemma merged_tags_are_the_normalised_tags_witness :
  @mergeTags demoHost (@mergeTags demoHost ["Work"; " work "] ["TODO"]) []
  = @mergeTags demoHost ["Work"; " work "] ["TODO"].
Proof.
  apply (@merged_tags_are_the_normalised_tags demoHost). apply demo_normalizeTag_idem.
Defined.

(* ================================================================== *)
(** ** Notes and attachments: the two tests agree *)













(* ================================================================== *)
(** ** Single events *)



Section EventFacts.
Context `{Host}.



(** X12.  [upsertFile] leaves the remote store and the tracker alone unless
    the sync of the path reaches the upsert: for a path that is no file of
    the vault, that matches an ignore pattern, that is an attachment above
    the size limit, or whose digest is the recorded one, it returns without
    a query and without a record; all it may do is print the warning about
    an attachment that is too large. *)
Theorem upsert_is_skipped_unless_needed e p :
  ~ reachesUpsert p e ->
  (upsertFile p e = (Ok tt, e)
   \/ (upsertFile p e = (Ok tt, withConsole (console e ++ [AttachmentTooLarge p]) e)
       /\ extension p <> "md"
       /\ (maxBinarySizeMB (settings e) * 1024 * 1024 < sizeOfStat (statOf (vault e) p))%Z))
  /\ db (snd (upsertFile p e)) = db e
  /\ tracker (snd (upsertFile p e)) = tracker e
  /\ vault (snd (upsertFile p e)) = vault e
  /\ retryQueue (snd (upsertFile p e)) = retryQueue e.
Proof.
  intros Hnot.
  assert (Hc : upsertFile p e = (Ok tt, e)
               \/ (upsertFile p e = (Ok tt, withConsole (console e ++ [AttachmentTooLarge p]) e)
                   /\ extension p <> "md"
                   /\ (maxBinarySizeMB (settings e) * 1024 * 1024
                       < sizeOfStat (statOf (vault e) p))%Z)).
  { unfold upsertFile. rewrite bind_gets.
    destruct (vault e !! p) as [[c ct mt|]|] eqn:Hv; [|by left..].
    rewrite bind_gets. destruct (shouldIgnore p e) eqn:Hig; [by left|].
    assert (Hfile : isLocalFile (vault e) p) by (by exists c, ct, mt).
    assert (Hfc : fileContent (vault e) p = c) by (unfold fileContent; by rewrite Hv).
    destruct (bool_decide (extension p = "md")) eqn:Hmd.
    - apply bool_decide_eq_true in Hmd. left.
      unfold syncNote. unfold bind at 1. rewrite vaultRead_file, Hfc, bind_gets by done.
      destruct (needsSync p (hashContent c) (tracker e)) eqn:Hn; [|done].
      exfalso. apply Hnot. split; [done|]. split; [done|]. split; [by left|].
      unfold localDigest. by rewrite Hfc, bool_decide_eq_true_2.
    - apply bool_decide_eq_false in Hmd.
      unfold syncAttachment, adapterStat. rewrite !bind_gets.
      destruct (_ <? _)%Z eqn:Hsz.
      + right. apply Z.ltb_lt in Hsz. done.
      + left. apply Z.ltb_ge in Hsz.
        unfold bind at 1. rewrite vaultRead_file, Hfc, bind_gets by done.
        destruct (needsSync p (hashArrayBuffer c) (tracker e)) eqn:Hn; [|done].
        exfalso. apply Hnot. split; [done|]. split; [done|]. split; [by right|].
        unfold localDigest. by rewrite Hfc, bool_decide_eq_false_2. }
  split; [exact Hc|]. destruct Hc as [->|[-> _]]; done.
Qed.

Lemma updateStatus_run e :
  exists d, updateStatus e = (Ok tt, withDb d e)
            /\ pool d = pool (db e)
            /\ vault_notes d = vault_notes (db e)
            /\ vault_attachments d = vault_attachments (db e)
            /\ (faults (db e) = [] -> faults d = []).
Proof.
  unfold updateStatus. rewrite bind_gets.
  destruct (statusCallback e).
  2: { exists (db e). by destruct e. }
  unfold tryCatch, bind, onDb, getStatus.
  destruct (pool (db e)) eqn:Hp; simpl.
  2: { exists (db e). by destruct e. }
  unfold query. destruct (faults (db e)) as [|[] fs] eqn:Hf; simpl;
    eexists; (split; [reflexivity|]); simpl; repeat split; try done.
Qed.

Lemma syncFile_queue p k e : retryQueue (snd (syncFile p k e)) = retryQueue e.
Proof.
  destruct k; simpl; try done.
  - by destruct (upsertFile_effect p e) as (_ & _ & _ & Hq & _).
  - by destruct (upsertFile_effect p e) as (_ & _ & _ & Hq & _).
  - unfold removeFile, bind.
    destruct (endsWith p ".md"); unfold onDb;
      [destruct (deleteNote p (db e)) as [[[]|m] d] | destruct (deleteAttachment p (db e)) as [[[]|m] d]];
      done.
Qed.

(** X13.  [handleFileEvent] never throws.  When the sync of the event
    returns, the retry queue is as it was (an entry that the path may have
    there is not cleared); when it throws, the failure is printed and the
    path is put in the retry queue with the count 0, whatever count it had,
    the other entries staying as they are.  In both cases the vault is
    untouched, and the tracker and the remote tables are as the sync left
    them. *)
Theorem file_event_failures_go_to_the_retry_queue ev e :
  let r := syncFile (path ev) (eventType ev) e in
  let e' := snd (handleFileEvent ev e) in
  fst (handleFileEvent ev e) = Ok tt
  /\ (if isOk (fst r)
      then retryQueue e' = retryQueue e
      else retryQueue e' = JsMap.set (path ev) 0%nat (retryQueue e)
           /\ JsMap.get (path ev) (retryQueue e') = Some 0%nat
           /\ (forall q, q <> path ev ->
                 JsMap.get q (retryQueue e') = JsMap.get q (retryQueue e))
           /\ console e' = console (snd r) ++ [SyncFailedFor (path ev)])
  /\ tracker e' = tracker (snd r)
  /\ vault_notes (db e') = vault_notes (db (snd r))
  /\ vault_attachments (db e') = vault_attachments (db (snd r)).
Proof.
  cbv zeta. unfold handleFileEvent, tryCatch. rewrite bind_run.
  pose proof (syncFile_queue (path ev) (eventType ev) e) as Hq.
  destruct (syncFile (path ev) (eventType ev) e) as [[[]|m] e1]; simpl in Hq |- *.
  - destruct (updateStatus_run e1) as (d & -> & _ & Hn & Ha & _). simpl.
    repeat split; done.
  - rewrite Hq. repeat split; try done.
    + apply jsmap_get_set_eq.
    + intros q Hne. by apply jsmap_get_set_ne.
Qed.

(** X14.  With no connection to the database, a full sync and a pull fail
    at their first query and change nothing: nothing is written locally,
    the tracker keeps its records and the time of its last full sync, the
    retry queue is as it was and the running flag is down again; the only
    trace is the notices and the line on the console. *)
Theorem disconnected_passes_change_nothing e :
  pool (db e) = false ->
  isRunning e = false ->
  fullReconcile e
  = (Ok tt, withConsole (console e ++ [Notice "Starting full sync..."; FullReconciliationFailed;
                                       Notice "Sync failed. Check console for details."]) e)
  /\ pullFromDB e
     = (Ok tt, withConsole (console e ++ [Notice "Pulling from database..."; PullFailed;
                                          Notice "Pull failed. Check console for details."]) e).
Proof.
  intros Hp Hr.
  assert (Hplan : forall e0, pool (db e0) = false ->
            reconcilePlan e0 = (Throw "Database not connected", e0)).
  { intros e0 Hp0. unfold reconcilePlan. rewrite bind_gets, bind_run.
    unfold onDb at 1, getAllNoteHashes. rewrite Hp0. simpl.
    by destruct e0 as [? [] ? ? ? ? ? ? ? ?]. }
  assert (Hnotes : forall e0, pool (db e0) = false ->
            onDb getAllNotes e0 = (Throw "Database not connected", e0)).
  { intros e0 Hp0. unfold onDb, getAllNotes. rewrite Hp0. simpl.
    by destruct e0 as [? [] ? ? ? ? ? ? ? ?]. }
  split.
  - unfold fullReconcile. rewrite bind_gets, Hr, bind_modify, bind_log, tryFinally_modify.
    unfold tryCatch. rewrite bind_run, Hplan by done. rewrite !bind_log. simpl.
    destruct e as [v d s t q r cb n lw c]. simpl in *. subst.
    by rewrite <- !app_assoc.
  - unfold pullFromDB. rewrite bind_gets, Hr, bind_modify, bind_log, tryFinally_modify.
    unfold tryCatch. rewrite bind_run, Hnotes by done. rewrite !bind_log. simpl.
    destruct e as [v d s t q r cb n lw c]. simpl in *. subst.
    by rewrite <- !app_assoc.
Qed.


End EventFacts.

(** The small world: the settings file of the application matches an ignore
    pattern, and its sync sends nothing. *)
Lemma upsert_is_skipped_unless_needed_witness :
  db (snd (@upsertFile demoHost ".obsidian/app.json" demoEngine)) = db demoEngine
  /\ tracker (snd (@upsertFile demoHost ".obsidian/app.json" demoEngine)) = tracker demoEngine.
Proof.
  destruct (@upsert_is_skipped_unless_needed demoHost demoEngine ".obsidian/app.json")
    as (_ & Hdb & Htr & _).
  - intros (_ & Hig & _). vm_compute in Hig. discriminate.
  - split; [exact Hdb | exact Htr].
Defined.

(** The small world off line: both passes end with the flag down and
    nothing written. *)
Lemma disconnected_passes_change_nothing_witness :
  tracker (snd (@fullReconcile demoHost demoOffline)) = tracker demoOffline
  /\ localWrites (snd (@pullFromDB demoHost demoOffline)) = [].
Proof.
  destruct (@disconnected_passes_change_nothing demoHost demoOffline eq_refl eq_refl)
    as [Hf Hp].
  rewrite Hf, Hp. split; reflexivity.
Defined.


(* ================================================================== *)
(** ** A full sync that is answered *)










Section ReconcileFacts.
Context `{Host}.






Lemma needsPush_stale dbHashes p digest :
  needsPush dbHashes p digest = true
  <-> ~ (JsMap.get p dbHashes = Some digest /\ digest <> EmptyString).
Proof.
  unfold needsPush, nonEmpty. destruct (JsMap.get p dbHashes) as [h|]; [|by split; [intros _ [? _]|]].
  rewrite orb_true_iff, !negb_true_iff, negb_false_iff, bool_decide_eq_true,
    bool_decide_eq_false.
  split.
  - intros [->|Hd] [[= ->] Hne]; done.
  - intros Hn. destruct (decide (h = digest)) as [->|Hne]; [|by right].
    left. destruct (decide (digest = EmptyString)) as [->|Hne]; [done|].
    exfalso. by apply Hn.
Qed.

Lemma getFiles_NoDup (v : gmap string Entry) : List.NoDup (getFiles v).
Proof.
  unfold getFiles. apply NoDup_map_filter.
  apply NoDup_ListNoDup, NoDup_fst_map_to_list.
Qed.

(** The plan of a full sync whose two listings are answered. *)
Lemma reconcilePlan_answered e :
  pool (db e) = true -> faults (db e) = [] ->
  exists toSync toDelete d2,
    reconcilePlan e = (Ok (toSync, toDelete), withDb d2 e)
    /\ pool d2 = true /\ faults d2 = []
    /\ vault_notes d2 = vault_notes (db e)
    /\ vault_attachments d2 = vault_attachments (db e)
    /\ List.NoDup toSync
    /\ (forall p, In p toSync <->
          inScope e p
          /\ ~ (remoteDigest (db e) p = Some (digestOf e p) /\ digestOf e p <> EmptyString))
    /\ (forall p, In p toDelete <-> remoteDigest (db e) p <> None /\ ~ inScope e p).
Proof.
  intros Hpool Hf.
  unfold reconcilePlan.
  rewrite bind_gets.
  unfold bind at 1. unfold onDb at 1, getAllNoteHashes. rewrite Hpool. simpl.
  rewrite query_ok by (by rewrite Hf). simpl.
  unfold bind at 1. unfold onDb at 1, getAllAttachmentHashes. simpl. rewrite Hpool. simpl.
  rewrite query_ok by (simpl; by rewrite Hf). simpl.
  set (dbHashes := JsMap.ofEntries _).
  set (localFiles := List.filter _ _).
  assert (Hlocal : forall p, In p localFiles <-> inScope e p).
  { intros p. unfold localFiles, inScope. rewrite filter_In, getFiles_In, negb_true_iff. done. }
  unfold bind at 1.
  rewrite scanLocal_files by (intros p Hp; by apply Hlocal in Hp as [? _]).
  simpl. unfold ret.
  assert (Hget : forall p, JsMap.get p dbHashes = remoteDigest (db e) p).
  { intros p. unfold dbHashes. apply dbHashes_get. }
  eexists _, _, _. split; [reflexivity|]. simpl. rewrite Hf. simpl.
  split; [done|]. split; [done|]. split; [done|]. split; [done|]. split.
  { apply List.NoDup_filter. unfold localFiles. apply List.NoDup_filter, getFiles_NoDup. }
  split.
  - intros p. split.
    + intros Hin. apply filter_In in Hin as [Hin Hst]. apply Hlocal in Hin.
      split; [done|]. apply needsPush_stale in Hst. by rewrite Hget in Hst.
    + intros [Hsc Hst]. apply filter_In. split; [by apply Hlocal|].
      apply needsPush_stale. by rewrite Hget.
  - intros p. split.
    + intros Hin. apply filter_In in Hin as [Hk Hn].
      apply negb_true_iff, bool_decide_eq_false in Hn. split.
      * rewrite <- Hget. intros Hnone. by apply jsmap_get_None_keys in Hnone.
      * intros Hsc. apply Hn. apply elem_of_union. left.
        by apply elem_of_list_to_set, list_elem_of_In, Hlocal.
    + intros [Hr Hn]. apply filter_In. split.
      * destruct (in_dec string_dec p (JsMap.keys dbHashes)) as [|Hnk]; [done|].
        apply jsmap_get_None_keys in Hnk. rewrite Hget in Hnk. done.
      * apply negb_true_iff, bool_decide_eq_false. intros Hin.
        apply elem_of_union in Hin as [Hin|Hin]; [|set_solver].
        by apply elem_of_list_to_set, list_elem_of_In, Hlocal in Hin.
Qed.




End ReconcileFacts.


(* ================================================================== *)
(** ** A pull that is answered *)







Section RestoreFacts.
Context `{Host}.







End RestoreFacts.


(** The same pull with a file where the note needs its folder: the host
    refuses the write, and the pull fails. *)
Example pull_below_a_file :
  let e := withVault (<["docs" := FileEntry "text" 1 2]> demoVault) demoPull in
  console (snd (@pullFromDB demoHost e))
  = [Notice "Pulling from database..."; PullFailed;
     Notice "Pull failed. Check console for details."]
  /\ vault (snd (@pullFromDB demoHost e)) !! "docs/n.md" = None.
Proof. by vm_compute. Qed.

(* ================================================================== *)
(** ** The schema name *)

Ltac char_cases c := destruct c as [[] [] [] [] [] [] [] []]; try done.

Lemma wordChar_lower c : isWordChar c = true -> lowerChar c = c.
Proof. char_cases c. Qed.

Lemma wordChar_not_space c : isWordChar c = true -> isSpace c = false.
Proof. char_cases c. Qed.

Lemma wordChar_not_hyphen c : isWordChar c = true -> c <> "-"%char.
Proof. char_cases c. Qed.

Lemma lower_not_digit c : isLower c = true -> isDigit c = false.
Proof. char_cases c. Qed.

Lemma lower_not_underscore c : isLower c = true -> isUnderscore c = false.
Proof. char_cases c. Qed.

Lemma wordChar_head c :
  isWordChar c = true -> isDigit c = false -> isUnderscore c = false -> isLower c = true.
Proof.
  unfold isWordChar. intros Hw Hd Hu. rewrite Hd, Hu in Hw.
  by rewrite !orb_false_r in Hw.
Qed.

Lemma isUnderscore_true c : isUnderscore c = true -> c = "_"%char.
Proof. unfold isUnderscore. by rewrite bool_decide_eq_true. Qed.

Lemma allChars_keepChars p s : allChars p (keepChars p s) = true.
Proof.
  induction s as [|c s IH]; simpl; [done|].
  destruct (p c) eqn:Hc; simpl; [by rewrite Hc|done].
Qed.

Lemma allChars_squeeze q p s :
  q "_"%char = true -> allChars q s = true -> allChars q (squeeze p s) = true.
Proof.
  intros Hq. induction s as [|c s IH]; simpl; [done|].
  rewrite andb_true_iff. intros [Hc Hs].
  destruct (p c); [destruct (headIs p s)|]; simpl; rewrite ?Hq, ?Hc; auto.
Qed.

Lemma headIs_squeeze p s :
  p "_"%char = true -> headIs p (squeeze p s) = headIs p s.
Proof.
  intros Hp. induction s as [|c s IH]; simpl; [done|].
  destruct (p c) eqn:Hc; [|simpl; done].
  destruct (headIs p s) eqn:Hh; [by rewrite IH | done].
Qed.

Lemma noUnderscoreRun_squeeze s : noUnderscoreRun (squeeze isUnderscore s) = true.
Proof.
  induction s as [|c s IH]; simpl; [done|].
  destruct (isUnderscore c) eqn:Hc.
  - destruct (headIs isUnderscore s) eqn:Hh; [done|]. simpl.
    rewrite headIs_squeeze, Hh, IH by done. done.
  - simpl. by rewrite Hc, IH.
Qed.

Lemma allChars_stripStart q p s :
  allChars q s = true -> allChars q (stripStart p s) = true.
Proof.
  induction s as [|c s IH]; simpl; [done|]. intros Hs.
  destruct (p c); [|done]. apply IH. by apply andb_true_iff in Hs as [_ ?].
Qed.

Lemma noUnderscoreRun_stripStart p s :
  noUnderscoreRun s = true -> noUnderscoreRun (stripStart p s) = true.
Proof.
  induction s as [|c s IH]; simpl; [done|]. intros Hs.
  destruct (p c); [|done]. apply IH. by apply andb_true_iff in Hs as [_ ?].
Qed.

Lemma headIs_stripStart p s : headIs p (stripStart p s) = false.
Proof.
  induction s as [|c s IH]; simpl; [done|].
  destruct (p c) eqn:Hc; [done | by simpl].
Qed.

Lemma stripEnd_cases p c s :
  stripEnd p (String c s) = EmptyString
  \/ exists r, stripEnd p (String c s) = String c r
               /\ (r = EmptyString \/ r = stripEnd p s).
Proof.
  simpl. destruct (stripEnd p s) as [|c' r'] eqn:E.
  - destruct (p c); [by left | right; exists EmptyString; auto].
  - right. exists (String c' r'). auto.
Qed.

Lemma stripEnd_keeps_head p c s :
  p c = false -> exists r, stripEnd p (String c s) = String c r.
Proof.
  intros Hc. simpl. destruct (stripEnd p s); rewrite ?Hc; eauto.
Qed.

Lemma headIs_stripEnd q p s :
  headIs q (stripEnd p s) = true -> headIs q s = true.
Proof.
  destruct s as [|c s]; [done|].
  destruct (stripEnd_cases p c s) as [->|(r & -> & _)]; done.
Qed.

Lemma allChars_stripEnd q p s :
  allChars q s = true -> allChars q (stripEnd p s) = true.
Proof.
  induction s as [|c s IH]; [done|]. intros Hs.
  apply andb_true_iff in Hs as [Hc Hs].
  destruct (stripEnd_cases p c s) as [->|(r & -> & [->| ->])]; simpl;
    rewrite ?Hc, ?IH; done.
Qed.

Lemma noUnderscoreRun_stripEnd p s :
  noUnderscoreRun s = true -> noUnderscoreRun (stripEnd p s) = true.
Proof.
  induction s as [|c s IH]; [done|]. intros Hs.
  apply andb_true_iff in Hs as [Hc Hs].
  destruct (stripEnd_cases p c s) as [->|(r & -> & [->| ->])]; [done| |].
  - simpl. by rewrite andb_false_r.
  - cbn [noUnderscoreRun]. rewrite IH by done. rewrite andb_true_r.
    destruct (isUnderscore c); [|done]. simpl in *.
    destruct (headIs isUnderscore (stripEnd p s)) eqn:Hh; [|done].
    apply headIs_stripEnd in Hh. by rewrite Hh in Hc.
Qed.

Lemma endsWith_cons c s p :
  s <> EmptyString -> String.length p = 1%nat ->
  endsWith (String c s) p = endsWith s p.
Proof.
  intros Hs Hp. cbn [endsWith]. rewrite bool_decide_eq_false_2; [done|].
  intros <-. destruct s; [done|]. simpl in Hp. lia.
Qed.

Lemma endsWith_stripEnd s : endsWith (stripEnd isUnderscore s) "_" = false.
Proof.
  induction s as [|c s IH]; [done|]. cbn [stripEnd].
  destruct (stripEnd isUnderscore s) as [|c' r'] eqn:E.
  - destruct (isUnderscore c) eqn:Hc; [done|]. cbn [endsWith].
    rewrite orb_false_iff, !bool_decide_eq_false. split; [|done].
    intros [= ->]. done.
  - by rewrite endsWith_cons.
Qed.

Lemma stripEnd_id s : endsWith s "_" = false -> stripEnd isUnderscore s = s.
Proof.
  induction s as [|c s IH]; [done|]. cbn [endsWith].
  rewrite orb_false_iff, bool_decide_eq_false. intros [Hne Hs].
  simpl. rewrite (IH Hs). destruct s as [|c' s']; [|done].
  destruct (isUnderscore c) eqn:Hc; [|done].
  apply isUnderscore_true in Hc as ->. done.
Qed.

Lemma length_stripEnd p s : (String.length (stripEnd p s) <= String.length s)%nat.
Proof.
  induction s as [|c s IH]; [done|].
  destruct (stripEnd_cases p c s) as [->|(r & -> & [->| ->])]; simpl; lia.
Qed.

Lemma substring_cons c s n :
  String.substring 0 (S n) (String c s) = String c (String.substring 0 n s).
Proof. done. Qed.

Lemma length_substring s : forall n,
  (String.length (String.substring 0 n s) <= n)%nat.
Proof.
  induction s as [|c s IH]; intros [|n]; simpl; try lia. specialize (IH n). lia.
Qed.

Lemma headIs_substring q s n :
  headIs q (String.substring 0 n s) = true -> headIs q s = true.
Proof. destruct s, n; done. Qed.

Lemma allChars_substring q s : forall n,
  allChars q s = true -> allChars q (String.substring 0 n s) = true.
Proof.
  induction s as [|c s IH]; intros [|n]; simpl; try done.
  rewrite !andb_true_iff. intros [Hc Hs]. auto.
Qed.

Lemma noUnderscoreRun_substring s : forall n,
  noUnderscoreRun s = true -> noUnderscoreRun (String.substring 0 n s) = true.
Proof.
  induction s as [|c s IH]; intros [|n]; try done.
  rewrite substring_cons. cbn [noUnderscoreRun].
  rewrite !andb_true_iff. intros [Hc Hs]. split; [|auto].
  destruct (isUnderscore c); [|done]. simpl in *.
  destruct (headIs isUnderscore (String.substring 0 n s)) eqn:Hh; [|done].
  apply headIs_substring in Hh. by rewrite Hh in Hc.
Qed.

Lemma allChars_append q a b :
  allChars q (String.append a b) = allChars q a && allChars q b.
Proof.
  induction a as [|c a IH]; appends; simpl; [done|]. by rewrite IH, andb_assoc.
Qed.

(** The last two steps of [sanitizeIdentifier], on a text that is a name but
    for its length. *)
Lemma truncate_valid r :
  allChars isWordChar r = true -> headIs isLower r = true ->
  endsWith r "_" = false -> noUnderscoreRun r = true ->
  validIdentifier (if (63 <? String.length r)%nat
                   then stripEnd isUnderscore (String.substring 0 63 r) else r).
Proof.
  intros Hall Hhead Hend Hrun.
  destruct (63 <? String.length r)%nat eqn:Hlen.
  - apply Nat.ltb_lt in Hlen.
    destruct r as [|c r]; [done|]. simpl in Hhead.
    change 63%nat with (S 62). rewrite substring_cons.
    destruct (stripEnd_keeps_head isUnderscore c (String.substring 0 62 r)
                (lower_not_underscore c Hhead)) as (r' & Hr').
    pose proof (length_stripEnd isUnderscore (String c (String.substring 0 62 r))) as Hl.
    pose proof (length_substring r 62) as Hl'.
    repeat split.
    + rewrite Hr'. simpl. lia.
    + change (String.length (String c (String.substring 0 62 r)))
        with (S (String.length (String.substring 0 62 r))) in Hl. lia.
    + apply allChars_stripEnd. rewrite <- substring_cons.
      by apply allChars_substring.
    + by rewrite Hr'.
    + apply endsWith_stripEnd.
    + apply noUnderscoreRun_stripEnd. rewrite <- substring_cons.
      by apply noUnderscoreRun_substring.
  - apply Nat.ltb_ge in Hlen. repeat split; try done.
    destruct r; [done | simpl; lia].
Qed.

(** A name is a fixed point of every step. *)
Lemma asciiLowerCase_word s : allChars isWordChar s = true -> asciiLowerCase s = s.
Proof.
  induction s as [|c s IH]; simpl; [done|]. rewrite andb_true_iff. intros [Hc Hs].
  by rewrite (wordChar_lower c Hc), IH.
Qed.

Lemma squeeze_space_word s : allChars isWordChar s = true -> squeeze isSpace s = s.
Proof.
  induction s as [|c s IH]; simpl; [done|]. rewrite andb_true_iff. intros [Hc Hs].
  by rewrite (wordChar_not_space c Hc), IH.
Qed.

Lemma hyphens_word s : allChars isWordChar s = true -> hyphensToUnderscores s = s.
Proof.
  induction s as [|c s IH]; simpl; [done|]. rewrite andb_true_iff. intros [Hc Hs].
  rewrite bool_decide_eq_false_2 by (by apply wordChar_not_hyphen). by rewrite IH.
Qed.

Lemma keepChars_all p s : allChars p s = true -> keepChars p s = s.
Proof.
  induction s as [|c s IH]; simpl; [done|]. rewrite andb_true_iff. intros [Hc Hs].
  by rewrite Hc, IH.
Qed.

Lemma squeeze_underscore_id s :
  noUnderscoreRun s = true -> squeeze isUnderscore s = s.
Proof.
  induction s as [|c s IH]; simpl; [done|]. rewrite andb_true_iff. intros [Hc Hs].
  rewrite (IH Hs). destruct (isUnderscore c) eqn:Hu; [|done].
  simpl in Hc. apply negb_true_iff in Hc. rewrite Hc.
  by apply isUnderscore_true in Hu as ->.
Qed.

Lemma sanitize_fixed s : validIdentifier s -> sanitizeIdentifier s = s.
Proof.
  intros ([Hlo Hhi] & Hall & Hhead & Hend & Hrun). unfold sanitizeIdentifier.
  rewrite (asciiLowerCase_word s Hall), (squeeze_space_word s Hall), (hyphens_word s Hall),
    (keepChars_all _ s Hall), (squeeze_underscore_id s Hrun).
  destruct s as [|c s]; [done|]. simpl in Hhead.
  cbn [stripStart]. rewrite (lower_not_underscore c Hhead), (stripEnd_id _ Hend).
  rewrite bool_decide_eq_false_2 by done. cbn [headIs].
  rewrite (lower_not_digit c Hhead).
  assert (Hl : (63 <? String.length (String c s))%nat = false) by (apply Nat.ltb_ge; lia).
  by rewrite Hl.
Qed.

Lemma sanitize_valid name : validIdentifier (sanitizeIdentifier name).
Proof.
  unfold sanitizeIdentifier.
  set (r0 := keepChars isWordChar _).
  set (r1 := squeeze isUnderscore r0).
  set (r := stripEnd isUnderscore (stripStart isUnderscore r1)).
  assert (Hall : allChars isWordChar r = true).
  { apply allChars_stripEnd, allChars_stripStart, allChars_squeeze; [done|].
    apply allChars_keepChars. }
  assert (Hrun : noUnderscoreRun r = true).
  { apply noUnderscoreRun_stripEnd, noUnderscoreRun_stripStart, noUnderscoreRun_squeeze. }
  assert (Hend : endsWith r "_" = false) by apply endsWith_stripEnd.
  assert (Hhead : headIs isUnderscore r = false).
  { destruct (headIs isUnderscore r) eqn:Hh; [|done].
    apply headIs_stripEnd in Hh. by rewrite headIs_stripStart in Hh. }
  clearbody r. clear r0 r1.
  destruct (bool_decide (r = EmptyString)) eqn:He.
  { by apply (truncate_valid "vault"). }
  apply bool_decide_eq_false in He.
  destruct r as [|c r]; [done|]. cbn [headIs] in *.
  destruct (isDigit c) eqn:Hd.
  - apply truncate_valid.
    + by rewrite allChars_append, Hall.
    + done.
    + appends. do 6 (rewrite endsWith_cons by done). done.
    + appends. cbn [noUnderscoreRun headIs]. rewrite Hhead.
      cbn [noUnderscoreRun] in Hrun. rewrite Hhead in Hrun. rewrite andb_false_r in *.
      simpl in Hrun. by rewrite Hrun.
  - apply truncate_valid; try done. cbn [headIs].
    apply wordChar_head; try done. simpl in Hall. by apply andb_true_iff in Hall as [? _].
Qed.

(** X18.  The schema name that [sanitizeIdentifier] derives from the name of
    a vault is always a name PostgreSQL takes unquoted: one to 63 characters
    of [[a-z0-9_]], the first a letter, with no underscore at the end and no
    two in a row, whatever the name of the vault (empty, all punctuation, or
    longer than 63 characters).  A name that already has this form is
    returned as it is, so sanitising twice is sanitising once. *)
Theorem schema_name_is_a_valid_identifier name :
  validIdentifier (sanitizeIdentifier name)
  /\ (validIdentifier name -> sanitizeIdentifier name = name)
  /\ sanitizeIdentifier (sanitizeIdentifier name) = sanitizeIdentifier name.
Proof.
  split; [apply sanitize_valid|]. split; [apply sanitize_fixed|].
  apply sanitize_fixed, sanitize_valid.
Qed.

(** Three names of vaults and their schemas. *)
Example sanitizeIdentifier_ex :
  sanitizeIdentifier "My Vault - 2024!" = "my_vault_2024"
  /\ sanitizeIdentifier "2024 notes" = "vault_2024_notes"
  /\ sanitizeIdentifier " -- " = "vault".
Proof. by vm_compute. Qed.



(* ================================================================== *)
(** ** The push loop of a full sync under failures *)



Section PushFacts.
Context `{Host}.











End PushFacts.


(** The small world with the store failing the first upsert: the note is
    queued for retry, the picture is uploaded all the same. *)
Example push_demo :
  let r := @pushAll demoHost ["a.md"; "img/b.png"] 0 (demoEngineFailing [true]) in
  fst r = Ok 1%nat
  /\ JsMap.entries (retryQueue (snd r)) = [("a.md", 0%nat)]
  /\ @rowDigest demoHost (db (snd r)) "a.md" = None
  /\ @rowDigest demoHost (db (snd r)) "img/b.png" = Some "b:beta".
Proof. by vm_compute. Qed.



(* ================================================================== *)
(** ** A full sync of a store that mirrors the vault *)

Section MirrorFacts.
Context `{Host}.

Lemma applyPlan_nothing e :
  exists d,
    applyPlan ([], []) e
    = (Ok tt, withConsole (console e ++ [Notice "Sync complete: 0 files synced, 0 deleted";
                                         FullReconciliationDone 0 0])
                (withDb d (withTracker (setLastFullSync (DateMs (now e)) (tracker e)) e)))
    /\ pool d = pool (db e)
    /\ vault_notes d = vault_notes (db e)
    /\ vault_attachments d = vault_attachments (db e).
Proof.
  unfold applyPlan. cbn [pushAll List.filter length Nat.ltb Nat.leb].
  rewrite !bind_ret, bind_gets. unfold onTracker. rewrite bind_modify.
  set (e6 := withTracker _ e).
  destruct (updateStatus_run e6) as (d & Hst & Hp & Hn & Ha & _).
  exists d. rewrite bind_run, Hst, bind_log. unfold log, modify. simpl.
  by rewrite <- app_assoc.
Qed.

(** X20.  A full sync of a store that already mirrors the vault uploads and
    deletes nothing.  Let no pass be running, the database be connected and
    answer, the store hold for every file of the vault that matches no
    ignore pattern a row with the (non-empty) digest of the file, and no row
    for any other path.  Then [fullReconcile] returns, shows the notice
    [Sync complete: 0 files synced, 0 deleted], prints
    [synced=0, deleted=0], and leaves the remote tables, the records of the
    tracker, the vault and the retry queue as they were; it only stamps the
    time of the last full sync. *)
Theorem full_sync_of_a_mirror_changes_nothing e :
  isRunning e = false ->
  pool (db e) = true ->
  faults (db e) = [] ->
  (forall q, inScope e q ->
             remoteDigest (db e) q = Some (digestOf e q) /\ digestOf e q <> EmptyString) ->
  (forall q, ~ inScope e q -> remoteDigest (db e) q = None) ->
  let e' := snd (fullReconcile e) in
  fst (fullReconcile e) = Ok tt
  /\ console e' = console e ++ [Notice "Starting full sync...";
                                Notice "Sync complete: 0 files synced, 0 deleted";
                                FullReconciliationDone 0 0]
  /\ vault_notes (db e') = vault_notes (db e)
  /\ vault_attachments (db e') = vault_attachments (db e)
  /\ (forall q, getFileState q (tracker e') = getFileState q (tracker e))
  /\ getLastFullSync (tracker e') = Some (DateMs (now e))
  /\ vault e' = vault e
  /\ retryQueue e' = retryQueue e
  /\ isRunning e' = false.
Proof.
  intros Hr Hpool Hf Hin Hout. cbv zeta.
  unfold fullReconcile.
  rewrite bind_gets, Hr, bind_modify, bind_log, tryFinally_modify.
  set (e0 := withConsole _ (withRunning true e)).
  destruct (reconcilePlan_answered e0 Hpool Hf)
    as (toSync & toDelete & d2 & Hplan & Hp2 & Hf2 & Hn2 & Ha2 & _ & Hsync & Hdel).
  assert (toSync = []) as ->.
  { destruct toSync as [|p l]; [done|]. exfalso.
    destruct (proj1 (Hsync p) (or_introl eq_refl)) as [Hsc Hst].
    apply Hst. by apply Hin. }
  assert (toDelete = []) as ->.
  { destruct toDelete as [|p l]; [done|]. exfalso.
    destruct (proj1 (Hdel p) (or_introl eq_refl)) as [Hrd Hsc].
    apply Hrd. by apply Hout. }
  destruct (applyPlan_nothing (withDb d2 e0)) as (d & Happly & Hp & Hn & Ha).
  assert (Hbody : (plan <- reconcilePlan ;; applyPlan plan) e0 = _)
    by (rewrite bind_run, Hplan; exact Happly).
  unfold tryCatch. rewrite Hbody. cbn [fst snd].
  cbn [db vault tracker retryQueue isRunning console withRunning withConsole withDb
       withTracker] in *.
  split; [done|]. split.
  { unfold e0. cbn [console withConsole]. by rewrite <- app_assoc. }
  change (db e0) with (db e) in Hn2, Ha2.
  split; [congruence|]. split; [congruence|].
  repeat split; done.
Qed.

End MirrorFacts.

Lemma full_sync_of_a_mirror_changes_nothing_witness :
  console (snd (@fullReconcile demoHost demoMirror))
  = [Notice "Starting full sync..."; Notice "Sync complete: 0 files synced, 0 deleted";
     FullReconciliationDone 0 0].
Proof.
  assert (Hlocal : forall q, @inScope demoHost demoMirror q <-> q = "a.md" \/ q = "img/b.png").
  { intros q. split.
    - intros [(c & ct & mt & Hv) Hig].
      unfold demoMirror, newSyncEngine, demoVault in Hv. cbn [vault] in Hv.
      destruct (decide (q = "a.md")) as [->|H1]; [by left|].
      rewrite lookup_insert_ne in Hv by done.
      destruct (decide (q = "img/b.png")) as [->|H2]; [by right|].
      rewrite lookup_insert_ne in Hv by done.
      destruct (decide (q = "img")) as [->|H3]; [by rewrite lookup_insert_eq in Hv|].
      rewrite lookup_insert_ne in Hv by done.
      destruct (decide (q = ".obsidian/app.json")) as [->|H4]; [by vm_compute in Hig|].
      rewrite lookup_insert_ne in Hv by done. by rewrite lookup_empty in Hv.
    - intros [->| ->]; (split; [by eexists _, _, _ | reflexivity]). }
  destruct (@full_sync_of_a_mirror_changes_nothing demoHost demoMirror)
    as (_ & Hc & _).
  1-3: reflexivity.
  - intros q Hsc. apply Hlocal in Hsc as [->| ->]; by vm_compute.
  - intros q Hsc. unfold remoteDigest, demoMirror, newSyncEngine.
    cbn [db vault_notes vault_attachments].
    assert (H1 : q <> "a.md") by (intros ->; apply Hsc, Hlocal; by left).
    assert (H2 : q <> "img/b.png") by (intros ->; apply Hsc, Hlocal; by right).
    by rewrite !lookup_insert_ne, !lookup_empty.
  - exact Hc.
Defined.
